(** * bib_sorter: reordering a LaTeX bibliography by first citation

    A shallow embedding of [src/bib_sorter.py] and the proofs of the
    properties stated about it.

    Conventions of the embedding.
    - A Python [str] is a list of Unicode code points ([text]); indices and
      slices count code points, as in Python.
    - The regular expressions of the source are kept as syntax trees and run
      by a backtracking matcher with the priorities of Python's [re]
      (leftmost match, greedy or lazy quantifiers, atomic lookahead).
    - [dict] and [OrderedDict] are association lists in insertion order.
    - Positions are exact rationals: the source adds [i * 0.001] to an
      integer position in double precision; rounding is not modelled.
    - [print] is modelled by a list of structured diagnostics and is taken
      to succeed; the banners carry no decision and are left out, and the
      debug listing is modelled on its own by [print_debug_info].
    - The file system is a read function and a write permission; a file is
      named by the text of its path. *)

From Stdlib Require Import String Ascii.
From Stdlib Require Import List NArith ZArith QArith Lia Lqa Bool Arith.
From Stdlib Require Import Permutation Sorted.
Import ListNotations.

Set Implicit Arguments.
Close Scope Q_scope.
Open Scope nat_scope.

(** ** Python strings *)

Definition char := N.
Definition text := list char.

(** A string literal of the source as a [text]. *)
Definition txt (s : string) : text := map N_of_ascii (list_ascii_of_string s).

Definition nl : char := 10%N.
Definition comma : char := 44%N.
Definition rbrace : char := 125%N.
Definition rbracket : char := 93%N.

Definition text_eqb (a b : text) : bool :=
  if list_eq_dec N.eq_dec a b then true else false.

(** [str.isspace] on one code point (the table of CPython's
    [_PyUnicode_IsWhitespace]); the class [\s] of a [str] pattern is the
    same set. *)
Definition isspace (c : char) : bool :=
  ((9 <=? c) && (c <=? 13) || (28 <=? c) && (c <=? 32)
   || (c =? 133) || (c =? 160) || (c =? 5760)
   || (8192 <=? c) && (c <=? 8202)
   || (c =? 8232) || (c =? 8233) || (c =? 8239) || (c =? 8287)
   || (c =? 12288))%N.

Fixpoint lstrip (s : text) : text :=
  match s with
  | c :: s' => if isspace c then lstrip s' else s
  | [] => []
  end.

Definition rstrip (s : text) : text := rev (lstrip (rev s)).

(** [s.strip()] *)
Definition strip (s : text) : text := rstrip (lstrip s).

(** [sep in s] for a one-character [sep] *)
Definition contains (sep : char) (s : text) : bool := existsb (N.eqb sep) s.

(** [s.split(sep)] for a one-character [sep] *)
Fixpoint split (sep : char) (s : text) : list text :=
  match s with
  | [] => [[]]
  | c :: s' =>
      if (c =? sep)%N then [] :: split sep s'
      else match split sep s' with
           | h :: t => (c :: h) :: t
           | [] => [[c]]
           end
  end.

(** [sep.join(l)] *)
Fixpoint join (sep : text) (l : list text) : text :=
  match l with
  | [] => []
  | x :: l' => match l' with [] => x | _ :: _ => x ++ sep ++ join sep l' end
  end.

Fixpoint starts_with (p s : text) : bool :=
  match p, s with
  | [], _ => true
  | a :: p', b :: s' => (a =? b)%N && starts_with p' s'
  | _ :: _, [] => false
  end.

(** [s.replace(old, new)] for a non-empty [old]: every occurrence, leftmost
    first, without overlap.  [skip] counts the characters of an occurrence
    that are still to be passed over. *)
Fixpoint replace_from (old new : text) (skip : nat) (s : text) : text :=
  match s with
  | [] => []
  | c :: s' =>
      match skip with
      | S n => replace_from old new n s'
      | O => if starts_with old s
             then new ++ replace_from old new (length old - 1) s'
             else c :: replace_from old new 0 s'
      end
  end.

Definition replace (old new s : text) : text := replace_from old new 0 s.

(** [s[a:b]] for non-negative [a] and [b] *)
Definition slice (a b : nat) (s : text) : text := firstn (b - a) (skipn a s).

(** ** Regular expressions (the fragment of [re] the source uses) *)

Module Re.

Inductive regex : Type :=
| Chr (p : char -> bool)        (* one character of a class *)
| Str (l : text)                (* a literal string *)
| Star (p : char -> bool)       (* [p*], greedy *)
| Plus (p : char -> bool)       (* [p+], greedy *)
| LazyStar (p : char -> bool)   (* [p*?] *)
| Seq (r1 r2 : regex)
| Alt (r1 r2 : regex)           (* [r1|r2] *)
| Opt (r : regex)               (* [(?:r)?], greedy *)
| Group (n : nat) (r : regex)   (* capturing group number [n] *)
| Ahead (r : regex).            (* [(?=r)] *)

(** Captured groups, the most recent binding first. *)
Definition caps := list (nat * text).

Fixpoint lookup (n : nat) (c : caps) : text :=
  match c with
  | [] => []
  | (m, t) :: c' => if Nat.eqb n m then t else lookup n c'
  end.

Fixpoint strip_prefix (p s : text) : option text :=
  match p, s with
  | [], _ => Some s
  | a :: p', b :: s' => if (a =? b)%N then strip_prefix p' s' else None
  | _ :: _, [] => None
  end.

(** The result of a match: the input left after it and the groups. *)
Definition result := (text * caps)%type.

(** Greedy repetition of a class: the longest run first, giving characters
    back one at a time while the continuation fails. *)
Fixpoint star (p : char -> bool) (k : text -> option result) (s : text) : option result :=
  match s with
  | c :: s' =>
      if p c then match star p k s' with
                  | Some x => Some x
                  | None => k s
                  end
      else k s
  | [] => k []
  end.

(** Lazy repetition of a class: the shortest run first. *)
Fixpoint lazy_star (p : char -> bool) (k : text -> option result) (s : text) : option result :=
  match k s with
  | Some x => Some x
  | None => match s with
            | c :: s' => if p c then lazy_star p k s' else None
            | [] => None
            end
  end.

(** [run r s c k]: match [r] at the head of [s] with the groups [c] captured
    so far, and hand the rest of the input to the continuation [k]; the first
    success in priority order is the result. *)
Fixpoint run (r : regex) (s : text) (c : caps)
    (k : text -> caps -> option result) : option result :=
  match r with
  | Chr p => match s with
             | ch :: s' => if p ch then k s' c else None
             | [] => None
             end
  | Str l => match strip_prefix l s with
             | Some s' => k s' c
             | None => None
             end
  | Star p => star p (fun s' => k s' c) s
  | Plus p => match s with
              | ch :: s' => if p ch then star p (fun s'' => k s'' c) s' else None
              | [] => None
              end
  | LazyStar p => lazy_star p (fun s' => k s' c) s
  | Seq r1 r2 => run r1 s c (fun s' c' => run r2 s' c' k)
  | Alt r1 r2 => match run r1 s c k with
                 | Some x => Some x
                 | None => run r2 s c k
                 end
  | Opt r' => match run r' s c k with
              | Some x => Some x
              | None => k s c
              end
  | Group n r' =>
      run r' s c (fun s' c' => k s' ((n, firstn (length s - length s') s) :: c'))
  | Ahead r' => match run r' s c (fun s' c' => Some (s', c')) with
                | Some (_, c') => k s c'
                | None => None
                end
  end.

(** [pattern.match] at the head of [s] *)
Definition match_at (r : regex) (s : text) : option result :=
  run r s [] (fun s' c' => Some (s', c')).

(** A match object: [start()], [end()] and the groups. *)
Record Match := { m_start : nat; m_end : nat; m_caps : caps }.

(** [m.group(n)] *)
Definition group (n : nat) (m : Match) : text := lookup n (m_caps m).

(** [re.finditer]: the matches from left to right, without overlap.  [skip]
    counts the characters of the last match still to be passed over; an
    empty match moves on by one character (no pattern of the source matches
    the empty string). *)
Fixpoint finditer_from (r : regex) (pos skip : nat) (s : text) : list Match :=
  match s with
  | [] => match skip, match_at r [] with
          | O, Some (_, c) => [{| m_start := pos; m_end := pos; m_caps := c |}]
          | _, _ => []
          end
  | _ :: s' =>
      match skip with
      | S n => finditer_from r (S pos) n s'
      | O => match match_at r s with
             | Some (rest, c) =>
                 let len := length s - length rest in
                 {| m_start := pos; m_end := pos + len; m_caps := c |}
                   :: finditer_from r (S pos) (len - 1) s'
             | None => finditer_from r (S pos) 0 s'
             end
      end
  end.

Definition finditer (r : regex) (s : text) : list Match := finditer_from r 0 0 s.

(** [re.search]: the leftmost match *)
Definition search (r : regex) (s : text) : option Match := hd_error (finditer r s).

(** [re.sub(r, repl, s)] for a replacement without group references *)
Fixpoint sub_from (r : regex) (repl : text) (skip : nat) (s : text) : text :=
  match s with
  | [] => match skip, match_at r [] with
          | O, Some _ => repl
          | _, _ => []
          end
  | ch :: s' =>
      match skip with
      | S n => sub_from r repl n s'
      | O => match match_at r s with
             | Some (rest, _) =>
                 match length s - length rest with
                 | O => repl ++ ch :: sub_from r repl 0 s'
                 | S n => repl ++ sub_from r repl n s'
                 end
             | None => ch :: sub_from r repl 0 s'
             end
      end
  end.

Definition sub (r : regex) (repl s : text) : text := sub_from r repl 0 s.

End Re.

Notation "r1 +++ r2" := (Re.Seq r1 r2) (at level 61, right associativity).

Definition is_char (c : char) : char -> bool := N.eqb c.
Definition not_char (c : char) : char -> bool := fun x => negb (N.eqb c x).
Definition any_char : char -> bool := fun _ => true.

(** ** The patterns of the source *)

(** [\\cite(?:\[[^\]]*\])?\{([^}]+)\}] *)
Definition cite_pattern : Re.regex :=
  Re.Str (txt "\cite")
  +++ Re.Opt (Re.Str (txt "[") +++ Re.Star (not_char rbracket) +++ Re.Str (txt "]"))
  +++ Re.Str (txt "{") +++ Re.Group 1 (Re.Plus (not_char rbrace)) +++ Re.Str (txt "}").

Definition begin_marker : text := txt "\begin{thebibliography}".
Definition end_marker : text := txt "\end{thebibliography}".

(** [\\begin\{thebibliography\}] *)
Definition begin_pattern : Re.regex := Re.Str begin_marker.

(** [\\end\{thebibliography\}] *)
Definition end_pattern : Re.regex := Re.Str end_marker.

(** [\\begin\{thebibliography\}[^\n]*] *)
Definition opening_pattern : Re.regex :=
  Re.Str begin_marker +++ Re.Star (not_char nl).

(** [\\bibitem\{([^}]+)\}(.*?)(?=\\bibitem\{|\\end\{thebibliography\})]
    under [re.DOTALL] *)
Definition bibitem_pattern : Re.regex :=
  Re.Str (txt "\bibitem{") +++ Re.Group 1 (Re.Plus (not_char rbrace))
  +++ Re.Str (txt "}") +++ Re.Group 2 (Re.LazyStar any_char)
  +++ Re.Ahead (Re.Alt (Re.Str (txt "\bibitem{")) (Re.Str end_marker)).

(** [\n\s*\n+] *)
Definition blank_pattern : Re.regex :=
  Re.Chr (is_char nl) +++ Re.Star isspace +++ Re.Plus (is_char nl).

(** ** Dictionaries in insertion order *)

Module Dict.

Definition t (V : Type) := list (text * V).

Section Ops.
Variable V : Type.

(** [d.get(k)] *)
Fixpoint get (k : text) (d : t V) : option V :=
  match d with
  | [] => None
  | (k', v) :: d' => if text_eqb k k' then Some v else get k d'
  end.

(** [k in d] *)
Definition mem (k : text) (d : t V) : bool :=
  match get k d with Some _ => true | None => false end.

(** [d[k] = v]: a present key keeps its place, a new one goes last. *)
Fixpoint set (k : text) (v : V) (d : t V) : t V :=
  match d with
  | [] => [(k, v)]
  | (k', v') :: d' => if text_eqb k k' then (k, v) :: d' else (k', v') :: set k v d'
  end.

(** [d.keys()] *)
Definition keys (d : t V) : list text := map fst d.

End Ops.

End Dict.

(** ** Diagnostics printed by the program

    One constructor for each [print] that reports a decision, with the
    values it formats. *)

Inductive Diag : Type :=
| ReadOk (n : nat)                  (* Successfully read n characters *)
| ReadError (path : text)           (* ERROR: file not found / could not read *)
| NoCitationsFound                  (* No citations found in the document! *)
| DelimiterError                    (* ERROR: Could not find \begin... or \end... *)
| FoundEntries (keys : list text)   (* Found n bibliography entries: ... *)
| Processing (n : nat)              (* Processing n citations in order: *)
| Added (i : nat) (cite_key : text)         (* i. key -> added to bibliography *)
| MissingEntry (i : nat) (cite_key : text)  (* i. key -> WARNING: No bibliography entry found! *)
| AddingUnused (n : nat)            (* Adding n unused bibliography entries: *)
| UnusedAdded (cite_key : text)     (* key -> added as unused entry *)
| FailedCreate                      (* Failed to create reordered bibliography! *)
| Saved (path : text)               (* Successfully saved reordered file to: path *)
| WriteError (path : text)          (* ERROR: Could not write output file *)
| ShowBibliography (section : text) (* the reordered section, printed at the end *)
| Usage                             (* the usage text of main *)
| Header (input_file output_file : text)    (* Input file: / Output file: *)
| Completed                         (* Bibliography reordering completed successfully! *)
| Failed.                           (* Bibliography reordering failed! *)

(** ** class CitationTracker *)

Record CitationTracker := {
  citations : Dict.t Q;                 (* citation_key -> first position *)
  citation_positions : list (Q * text)  (* every (position, citation_key) *)
}.

Definition new_tracker : CitationTracker :=
  {| citations := []; citation_positions := [] |}.

Definition add_citation (position : Q) (citation_key : text)
    (self : CitationTracker) : CitationTracker :=
  let citation_key := strip citation_key in
  {| citation_positions := citation_positions self ++ [(position, citation_key)];
     citations := if Dict.mem citation_key (citations self)
                  then citations self
                  else citations self ++ [(citation_key, position)] |}.

(** [sorted(l, key=key)]: a stable sort; an element goes before the first
    element of the sorted rest whose key is not smaller. *)
Fixpoint insert_sorted (A : Type) (key : A -> Q) (x : A) (l : list A) : list A :=
  match l with
  | [] => [x]
  | y :: l' => if Qle_bool (key x) (key y) then x :: l
               else y :: insert_sorted key x l'
  end.

Definition sorted (A : Type) (key : A -> Q) (l : list A) : list A :=
  fold_right (insert_sorted key) [] l.

Definition get_ordered_citations (self : CitationTracker) : list text :=
  let sorted_citations := sorted snd (citations self) in
  map fst sorted_citations.

(** ** find_all_citations *)

Definition int_position (position : nat) : Q := inject_Z (Z.of_nat position).

(** [position + i * 0.001], as an exact rational *)
Definition offset_position (position i : nat) : Q :=
  (int_position position + inject_Z (Z.of_nat i) * (1 # 1000))%Q.

(** [enumerate(l, start)] *)
Definition enumerate (A : Type) (start : nat) (l : list A) : list (nat * A) :=
  combine (seq start (length l)) l.

Definition scan_match (tracker : CitationTracker) (m : Re.Match) : CitationTracker :=
  let position := Re.m_start m in
  let cite_keys_str := Re.group 1 m in
  if contains comma cite_keys_str then
    let cite_keys := map strip (split comma cite_keys_str) in
    fold_left (fun tr ik => add_citation (offset_position position (fst ik)) (snd ik) tr)
              (enumerate 0 cite_keys) tracker
  else add_citation (int_position position) (strip cite_keys_str) tracker.

Definition find_all_citations (tex_content : text) : CitationTracker :=
  fold_left scan_match (Re.finditer cite_pattern tex_content) new_tracker.

(** ** extract_bibliography_entries *)

(** [m.group(0)] for a match in [s] *)
Definition matched_text (m : Re.Match) (s : text) : text :=
  slice (Re.m_start m) (Re.m_end m) s.

(** The clean-up of one entry body (lines 96 to 100). *)
Definition clean_content (body : text) : text :=
  let content := strip body in
  let content := Re.sub blank_pattern [nl] content in
  strip content.

Definition add_entry (entries : Dict.t text) (m : Re.Match) : Dict.t text :=
  let cite_key := strip (Re.group 1 m) in
  let content := clean_content (Re.group 2 m) in
  Dict.set cite_key content entries.

Definition bib_section_of (bib_start bib_end : nat) (tex_content : text) : text :=
  slice bib_start bib_end tex_content.

Definition extract_bibliography_entries (tex_content : text)
  : option (Dict.t text * (nat * nat) * text) * list Diag :=
  match Re.search begin_pattern tex_content, Re.search end_pattern tex_content with
  | Some bib_start_match, Some bib_end_match =>
      let bib_start := Re.m_start bib_start_match in
      let bib_end := Re.m_end bib_end_match in
      let bib_section := bib_section_of bib_start bib_end tex_content in
      let opening_line :=
        match Re.search opening_pattern bib_section with
        | Some opening_line_match => matched_text opening_line_match bib_section
        | None => begin_marker
        end in
      let entries := fold_left add_entry (Re.finditer bibitem_pattern bib_section) [] in
      (Some (entries, (bib_start, bib_end), opening_line), [])
  | _, _ => (None, [DelimiterError])
  end.

(** ** create_reordered_bibliography *)

(** [f"\\bibitem{{{cite_key}}}\n{entry_content}"] *)
Definition full_entry (cite_key entry_content : text) : text :=
  txt "\bibitem{" ++ cite_key ++ txt "}" ++ [nl] ++ entry_content.

Record Reorder := {
  reordered_entries : list text;
  used_citations : list text;
  printed : list Diag
}.

(** One turn of the loop over [enumerate(citation_order, 1)]. *)
Definition citation_step (bib_entries : Dict.t text) (st : Reorder)
    (ik : nat * text) : Reorder :=
  let (i, cite_key) := ik in
  match Dict.get cite_key bib_entries with
  | Some entry_content =>
      {| reordered_entries := reordered_entries st ++ [full_entry cite_key entry_content];
         used_citations := cite_key :: used_citations st;
         printed := printed st ++ [Added i cite_key] |}
  | None =>
      {| reordered_entries := reordered_entries st;
         used_citations := used_citations st;
         printed := printed st ++ [MissingEntry i cite_key] |}
  end.

Definition citation_pass (citation_order : list text) (bib_entries : Dict.t text) : Reorder :=
  fold_left (citation_step bib_entries) (enumerate 1 citation_order)
    {| reordered_entries := []; used_citations := [];
       printed := [Processing (length citation_order)] |}.

Definition in_set (k : text) (s : list text) : bool := existsb (text_eqb k) s.

(** One turn of the loop over [unused_entries]; its keys are keys of the
    mapping, so the lookup succeeds. *)
Definition unused_step (bib_entries : Dict.t text) (st : Reorder) (cite_key : text) : Reorder :=
  match Dict.get cite_key bib_entries with
  | Some entry_content =>
      {| reordered_entries := reordered_entries st ++ [full_entry cite_key entry_content];
         used_citations := used_citations st;
         printed := printed st ++ [UnusedAdded cite_key] |}
  | None => st
  end.

Definition unused_pass (bib_entries : Dict.t text) (st : Reorder) : Reorder :=
  let unused_entries :=
    filter (fun key => negb (in_set key (used_citations st))) (Dict.keys bib_entries) in
  match unused_entries with
  | [] => st
  | _ :: _ =>
      fold_left (unused_step bib_entries) unused_entries
        {| reordered_entries := reordered_entries st;
           used_citations := used_citations st;
           printed := printed st ++ [AddingUnused (length unused_entries)] |}
  end.

(** The list [reordered_entries] when the block is built. *)
Definition reorder (citation_order : list text) (bib_entries : Dict.t text) : Reorder :=
  unused_pass bib_entries (citation_pass citation_order bib_entries).

Definition serialize (opening_line : text) (entries : list text) : text :=
  opening_line ++ [nl; nl] ++ join [nl; nl] entries ++ [nl] ++ end_marker.

Definition create_reordered_bibliography (citation_order : list text)
    (bib_entries : Dict.t text) (opening_line : text) : option text * list Diag :=
  match bib_entries with
  | [] => (None, [])
  | _ :: _ =>
      let st := reorder citation_order bib_entries in
      (Some (serialize opening_line (reordered_entries st)), printed st)
  end.

(** ** reorder_latex_bibliography and main *)

(** The files the program can see: the text that [f.read()] returns for a
    path ([None] when opening or decoding raises) and whether a path can be
    written. *)
Record FS := {
  fs_read : text -> option text;
  fs_writable : text -> bool
}.

(** [open(path, 'w').write(data)]; [None] when it raises.  A file is named
    by the text of its path, and a write that raises is taken to leave the
    file as it was: two spellings of one file, and a file that is emptied
    by [open] before the write raises, are outside this model. *)
Definition fs_write (fs : FS) (path data : text) : option FS :=
  if fs_writable fs path
  then Some {| fs_read := fun p => if text_eqb p path then Some data else fs_read fs p;
               fs_writable := fs_writable fs |}
  else None.

(** [input_file.replace('.tex', '_reordered.tex')] *)
Definition default_output_file (input_file : text) : text :=
  replace (txt ".tex") (txt "_reordered.tex") input_file.

(** [content[:bib_start] + new_bib_section + content[bib_end:]] *)
Definition splice (content : text) (bib_start bib_end : nat) (new_bib_section : text) : text :=
  firstn bib_start content ++ new_bib_section ++ skipn bib_end content.

(** The messages of a run are taken to be shown.  The success message of
    line 210 is printed inside the [try] block of the write: on a console
    that cannot show its check mark the call raises there, and the function
    reports a write error and returns [False] although the file is written.
    Such a console is outside this model, so the statements below say what
    follows from a returned [True] and what happens at the checks in front
    of the write, and leave open what a returned [False] at the write step
    did to the output file. *)
Definition reorder_latex_bibliography (fs : FS) (input_file : text)
    (output_file : option text) : bool * FS * list Diag :=
  match fs_read fs input_file with
  | None => (false, fs, [ReadError input_file])
  | Some content =>
      let log := [ReadOk (length content)] in
      let citation_tracker := find_all_citations content in
      match citations citation_tracker with
      | [] => (false, fs, log ++ [NoCitationsFound])
      | _ :: _ =>
          let citation_order := get_ordered_citations citation_tracker in
          match extract_bibliography_entries content with
          | (None, log2) => (false, fs, log ++ log2)
          | (Some (bib_entries, (bib_start, bib_end), opening_line), log2) =>
              let log := log ++ log2 ++ [FoundEntries (Dict.keys bib_entries)] in
              match create_reordered_bibliography citation_order bib_entries opening_line with
              | (None, log3) => (false, fs, log ++ log3 ++ [FailedCreate])
              | (Some new_bib_section, log3) =>
                  let log := log ++ log3 in
                  let new_content := splice content bib_start bib_end new_bib_section in
                  let output_file :=
                    match output_file with
                    | None => default_output_file input_file
                    | Some o => o
                    end in
                  match fs_write fs output_file new_content with
                  | Some fs' =>
                      (true, fs', log ++ [Saved output_file; ShowBibliography new_bib_section])
                  | None => (false, fs, log ++ [WriteError output_file])
                  end
              end
          end
      end
  end.

(** [main] on [sys.argv]; the first component is the exit status of the
    process ([sys.exit(1)] on failure, a normal return otherwise).  The
    header shows the given output path when it is a non-empty string and
    the default path otherwise (line 248 tests the truth value, line 204
    tests for [None]). *)
Definition main (argv : list text) (fs : FS) : nat * FS * list Diag :=
  match argv with
  | _ :: input_file :: rest =>
      let output_file := hd_error rest in
      let shown := match output_file with
                   | Some (_ :: _ as o) => o
                   | _ => default_output_file input_file
                   end in
      let '(success, fs', log) := reorder_latex_bibliography fs input_file output_file in
      if success then (0, fs', Header input_file shown :: log ++ [Completed])
      else (1, fs', Header input_file shown :: log ++ [Failed])
  | _ => (0, fs, [Usage])
  end.

(** ** Notions used in the statements *)

(** The body stored for a key ([bib_entries[k]]). *)
Definition body_of (bib_entries : Dict.t text) (k : text) : text :=
  match Dict.get k bib_entries with Some v => v | None => [] end.

(** The serialized entry of a key of the mapping. *)
Definition entry_of (bib_entries : Dict.t text) (k : text) : text :=
  full_entry k (body_of bib_entries k).

(** The cited keys that have an entry, in citation order. *)
Definition matched_keys (citation_order : list text) (bib_entries : Dict.t text) : list text :=
  filter (fun k => Dict.mem k bib_entries) citation_order.

(** The keys of the mapping that are not in [used], in the mapping's order. *)
Definition unused_keys (used : list text) (bib_entries : Dict.t text) : list text :=
  filter (fun k => negb (in_set k used)) (Dict.keys bib_entries).

(** The keys of the reconciled block: matched, then orphaned. *)
Definition output_keys (citation_order : list text) (bib_entries : Dict.t text) : list text :=
  let matched := matched_keys citation_order bib_entries in
  matched ++ unused_keys matched bib_entries.

(** The mapping read back from a reconciled block: the same bodies, in the
    order of the block. *)
Definition reread (citation_order : list text) (bib_entries : Dict.t text) : Dict.t text :=
  map (fun k => (k, body_of bib_entries k)) (output_keys citation_order bib_entries).

(** The line printed for one cited key. *)
Definition step_diag (bib_entries : Dict.t text) (ik : nat * text) : Diag :=
  if Dict.mem (snd ik) bib_entries then Added (fst ik) (snd ik)
  else MissingEntry (fst ik) (snd ik).

(** The first occurrence of each element, in order. *)
Fixpoint dedup (seen l : list text) : list text :=
  match l with
  | [] => []
  | x :: l' => if in_set x seen then dedup seen l' else x :: dedup (x :: seen) l'
  end.

Definition first_occurrences (l : list text) : list text := dedup [] l.

(** The keys of the [\bibitem] entries of the bibliography block of a
    document, as the parser meets them. *)
Definition block_keys (tex_content : text) : list text :=
  match Re.search begin_pattern tex_content, Re.search end_pattern tex_content with
  | Some bib_start_match, Some bib_end_match =>
      map (fun m => strip (Re.group 1 m))
        (Re.finditer bibitem_pattern
           (bib_section_of (Re.m_start bib_start_match) (Re.m_end bib_end_match) tex_content))
  | _, _ => []
  end.

(** A file system holding one readable file, every path writable. *)
Definition single_file (path content : text) : FS :=
  {| fs_read := fun p => if text_eqb p path then Some content else None;
     fs_writable := fun _ => true |}.

(** ** The meaning of a pattern

    [matches r s c s' c']: [r] can consume a prefix of [s] and leave [s'],
    turning the groups [c] into [c'].  The matcher returns one such way of
    matching, chosen by priority. *)
Inductive matches : Re.regex -> text -> Re.caps -> text -> Re.caps -> Prop :=
| M_Chr p ch s c : p ch = true -> matches (Re.Chr p) (ch :: s) c s c
| M_Str l s c : matches (Re.Str l) (l ++ s) c s c
| M_Star p pre s c :
    Forall (fun x => p x = true) pre -> matches (Re.Star p) (pre ++ s) c s c
| M_Plus p pre s c :
    pre <> [] -> Forall (fun x => p x = true) pre -> matches (Re.Plus p) (pre ++ s) c s c
| M_LazyStar p pre s c :
    Forall (fun x => p x = true) pre -> matches (Re.LazyStar p) (pre ++ s) c s c
| M_Seq r1 r2 s c s1 c1 s2 c2 :
    matches r1 s c s1 c1 -> matches r2 s1 c1 s2 c2 -> matches (Re.Seq r1 r2) s c s2 c2
| M_AltL r1 r2 s c s' c' : matches r1 s c s' c' -> matches (Re.Alt r1 r2) s c s' c'
| M_AltR r1 r2 s c s' c' : matches r2 s c s' c' -> matches (Re.Alt r1 r2) s c s' c'
| M_OptSome r s c s' c' : matches r s c s' c' -> matches (Re.Opt r) s c s' c'
| M_OptNone r s c : matches (Re.Opt r) s c s c
| M_Group n r s c s' c' :
    matches r s c s' c' ->
    matches (Re.Group n r) s c s' ((n, firstn (length s - length s') s) :: c')
| M_Ahead r s c s' c' : matches r s c s' c' -> matches (Re.Ahead r) s c s c'.

(** [t in s]: [t] occurs in [s]. *)
Fixpoint occursb (t s : text) : bool :=
  starts_with t s || match s with [] => false | _ :: s' => occursb t s' end.

(** Two matches are in scan order and do not overlap. *)
Definition before (a b : Re.Match) : Prop :=
  Re.m_end a <= Re.m_start b /\ Re.m_start a < Re.m_start b.

(** ** Occurrences

    One call of [add_citation]: the marker position, the sub-index inside
    the marker, the numeric position handed to the tracker, and the key as
    the tracker stores it. *)
Record Occurrence := {
  occ_pos : nat;
  occ_sub : nat;
  occ_q : Q;
  occ_key : text
}.

(** The calls of [add_citation] for one marker, in order. *)
Definition match_occurrences (m : Re.Match) : list Occurrence :=
  let position := Re.m_start m in
  let cite_keys_str := Re.group 1 m in
  if contains comma cite_keys_str then
    map (fun ik => {| occ_pos := position; occ_sub := fst ik;
                      occ_q := offset_position position (fst ik);
                      occ_key := strip (snd ik) |})
        (enumerate 0 (map strip (split comma cite_keys_str)))
  else [{| occ_pos := position; occ_sub := 0;
           occ_q := int_position position;
           occ_key := strip (strip cite_keys_str) |}].

(** The calls of [add_citation] for a document, in scan order. *)
Definition occurrences (tex_content : text) : list Occurrence :=
  flat_map match_occurrences (Re.finditer cite_pattern tex_content).

(** The first occurrence of each key, in order. *)
Fixpoint first_occs (seen : list text) (l : list Occurrence) : list Occurrence :=
  match l with
  | [] => []
  | o :: l' => if in_set (occ_key o) seen then first_occs seen l'
               else o :: first_occs (occ_key o :: seen) l'
  end.

(** The strict order on (marker position, sub-index). *)
Definition lex_lt (a b : nat * nat) : Prop :=
  fst a < fst b \/ (fst a = fst b /\ snd a < snd b).

Definition occ_pair (o : Occurrence) : nat * nat := (occ_pos o, occ_sub o).

(** Both orders at once: by (position, sub-index) and by numeric position. *)
Definition occ_lt (a b : Occurrence) : Prop :=
  lex_lt (occ_pair a) (occ_pair b) /\ (occ_q a < occ_q b)%Q.

(** The numeric position of an occurrence is [position + sub * 0.001], or
    the integer position for a marker with one key. *)
Definition numbered (o : Occurrence) : Prop :=
  occ_q o = offset_position (occ_pos o) (occ_sub o)
  \/ (occ_sub o = 0 /\ occ_q o = int_position (occ_pos o)).

(** What the tracker holds after the calls [os]. *)
Definition tracks (tr : CitationTracker) (os : list Occurrence) : Prop :=
  citation_positions tr = map (fun o => (occ_q o, occ_key o)) os
  /\ citations tr = map (fun o => (occ_key o, occ_q o)) (first_occs [] os).

(** ** Lines

    A line is blank when it holds nothing but whitespace. *)
Definition blank_line (l : text) : bool := forallb isspace l.

(** The text without its blank lines: its other lines, joined again. *)
Definition drop_blank_lines (s : text) : text :=
  join [nl] (filter (fun l => negb (blank_line l)) (split nl s)).

(** What [\s*\n+] leaves of the text that follows a line break: the text
    after the last line break of the leading run of whitespace, if that run
    has one. *)
Fixpoint blank_tail (s : text) : option text :=
  match s with
  | [] => None
  | c :: s' =>
      if isspace c then
        match blank_tail s' with
        | Some r => Some r
        | None => if (c =? nl)%N then Some s' else None
        end
      else None
  end.

(** The lines from the first one that is not blank. *)
Fixpoint skip_blank (L : list text) : list text :=
  match L with
  | [] => []
  | b :: L' => if blank_line b then skip_blank L' else L
  end.

(** A text that does not end with whitespace. *)
Definition ends_ok (t : text) : Prop :=
  t = [] \/ exists u d, t = u ++ [d] /\ isspace d = false.

(** A text without whitespace at either end. *)
Definition trimmed (s : text) : Prop :=
  s = [] \/ (exists c s', s = c :: s' /\ isspace c = false)
            /\ (exists u d, s = u ++ [d] /\ isspace d = false).

(** A document given line by line. *)
Definition lines (l : list string) : text := join [nl] (map txt l).

(** The bibliography section shown at the end of a successful run. *)
Fixpoint shown_block (log : list Diag) : option text :=
  match log with
  | [] => None
  | ShowBibliography b :: _ => Some b
  | _ :: log' => shown_block log'
  end.

(** ** Sample documents *)

(** Citations of [b], then [a] and [b] in one marker, then [c] and an empty
    component; entries [a], [b] and the uncited [w]. *)
Definition sample_doc : text :=
  lines ["See \cite{b} and \cite[p. 3]{a, b} then \cite{c,,d}.";
         "\begin{thebibliography}{99}";
         "\bibitem{a} First";
         "\bibitem{ b } Second";
         "\bibitem{w} Unused";
         "\end{thebibliography}";
         "tail"]%string.

Definition sample_path : text := txt "paper.tex".

Definition sample_order : list text :=
  get_ordered_citations (find_all_citations sample_doc).

Definition sample_entries : Dict.t text :=
  [(txt "a", txt "First"); (txt "b", txt "Second"); (txt "w", txt "Unused")].

Definition sample_opening : text := txt "\begin{thebibliography}{99}".

(** Bibliography entries that cite other entries: [x] cites [p] and [y]
    cites [q], and the text cites [y] before [x]. *)
Definition cross_citing_doc : text :=
  lines ["Intro \cite{y} and \cite{x}.";
         "\begin{thebibliography}{9}";
         "\bibitem{x} X, see \cite{p}.";
         "\bibitem{y} Y, see \cite{q}.";
         "\bibitem{p} P.";
         "\bibitem{q} Q.";
         "\end{thebibliography}"]%string.

(** A bibliography block in which the key [a] is declared twice. *)
Definition duplicate_key_doc : text :=
  lines ["Text \cite{a}.";
         "\begin{thebibliography}{9}";
         "\bibitem{a} One";
         "\bibitem{a} Two";
         "\bibitem{b} Three";
         "\end{thebibliography}"]%string.

(** An entry whose key is blank: it is stored under the empty key. *)
Definition blank_key_doc : text :=
  lines ["Text \cite{a}.";
         "\begin{thebibliography}{9}";
         "\bibitem{ } X";
         "\bibitem{a} Y";
         "\end{thebibliography}"]%string.

(** The first entry on the line of the begin marker. *)
Definition same_line_doc : text :=
  lines ["Text \cite{a}.";
         "\begin{thebibliography}{9}\bibitem{a} A";
         "\bibitem{b} B";
         "\end{thebibliography}"]%string.

(** The reorder run on a document held in [paper.tex], written back to the
    same path; the result is the block shown, the files and the success. *)
Definition run_in_place (fs : FS) : bool * FS * option text :=
  let '(ok, fs', log) := reorder_latex_bibliography fs sample_path (Some sample_path) in
  (ok, fs', shown_block log).

(** ** Notions used for the further properties *)

(** The path a run writes to. *)
Definition output_path (input_file : text) (output_file : option text) : text :=
  match output_file with
  | Some o => o
  | None => default_output_file input_file
  end.

(** [s.find(t)], counted from [pos]: the position of the first occurrence. *)
Fixpoint find_from (t : text) (pos : nat) (s : text) : option nat :=
  if starts_with t s then Some pos
  else match s with
       | [] => None
       | _ :: s' => find_from t (S pos) s'
       end.

Definition find (t s : text) : option nat := find_from t 0 s.

(** The longest prefix of characters of a class, and what follows it. *)
Fixpoint take_while (p : char -> bool) (s : text) : text :=
  match s with
  | c :: s' => if p c then c :: take_while p s' else []
  | [] => []
  end.

Fixpoint drop_while (p : char -> bool) (s : text) : text :=
  match s with
  | c :: s' => if p c then drop_while p s' else s
  | [] => []
  end.

(** The [\bibitem] matches of the block of a document, in order. *)
Definition block_matches (tex_content : text) : list Re.Match :=
  match Re.search begin_pattern tex_content, Re.search end_pattern tex_content with
  | Some bib_start_match, Some bib_end_match =>
      Re.finditer bibitem_pattern
        (bib_section_of (Re.m_start bib_start_match) (Re.m_end bib_end_match) tex_content)
  | _, _ => []
  end.

(** A new tracker after the calls [add_citation(position, key)] of a list,
    in order. *)
Definition record_all (calls : list (Q * text)) : CitationTracker :=
  fold_left (fun tr c => add_citation (fst c) (snd c) tr) calls new_tracker.

(** The entries that no citation names, in the order of the mapping. *)
Definition orphan_keys (citation_order : list text) (bib_entries : Dict.t text) : list text :=
  filter (fun k => negb (in_set k citation_order)) (Dict.keys bib_entries).

(** ** print_debug_info

    The lines of the debug listing, with the values they format.  [None]
    stands for the [KeyError] of a key that is not in the index. *)

Record DebugLine := {
  dbg_rank : nat;        (* i + 1 *)
  dbg_cite : text;
  dbg_pos : Z;           (* int(pos) *)
  dbg_first : bool;      (* the mark [FIRST] *)
  dbg_context : text
}.

(** [int(pos)]: truncation towards zero *)
Definition int_of (q : Q) : Z := Z.quot (Qnum q) (Zpos (Qden q)).

(** [tex_content[start:end].replace('\n', ' ').strip()] around a position *)
Definition debug_context (tex_content : text) (pos : Z) : text :=
  let start := Z.to_nat (Z.max 0 (pos - 20)) in
  let end_ := Z.to_nat (Z.min (Z.of_nat (length tex_content)) (pos + 40)) in
  strip (replace [nl] [32%N] (slice start end_ tex_content)).

Definition debug_line (self : CitationTracker) (tex_content : text)
    (ipc : nat * (Q * text)) : option DebugLine :=
  let '(i, (pos, cite)) := ipc in
  match Dict.get cite (citations self) with
  | Some first =>
      Some {| dbg_rank := i + 1; dbg_cite := cite; dbg_pos := int_of pos;
              dbg_first := Qeq_bool pos first;
              dbg_context := debug_context tex_content (int_of pos) |}
  | None => None
  end.

(** The lines of the second list: rank, key and first position. *)
Definition unique_line (self : CitationTracker) (ic : nat * text)
  : option (nat * text * Q) :=
  match Dict.get (snd ic) (citations self) with
  | Some first => Some (fst ic, snd ic, first)
  | None => None
  end.

(** All results of [f] on a list, or [None] when one call fails. *)
Fixpoint map_all (A B : Type) (f : A -> option B) (l : list A) : option (list B) :=
  match l with
  | [] => Some []
  | x :: l' => match f x, map_all f l' with
               | Some y, Some r => Some (y :: r)
               | _, _ => None
               end
  end.

Definition print_debug_info (self : CitationTracker) (tex_content : text)
  : option (list DebugLine * list (nat * text * Q)) :=
  match map_all (debug_line self tex_content)
          (enumerate 0 (firstn 15 (citation_positions self))),
        map_all (unique_line self) (enumerate 1 (get_ordered_citations self)) with
  | Some listing, Some unique => Some (listing, unique)
  | _, _ => None
  end.

(** For each key of a list, whether it occurs there for the first time. *)
Fixpoint first_flags (seen l : list text) : list bool :=
  match l with
  | [] => []
  | k :: l' => negb (in_set k seen) :: first_flags (k :: seen) l'
  end.

(** The numeric position of the first occurrence of a key. *)
Fixpoint first_q (os : list Occurrence) (k : text) : option Q :=
  match os with
  | [] => None
  | o :: os' => if text_eqb k (occ_key o) then Some (occ_q o) else first_q os' k
  end.

(** Where the body of an entry stops: at the start of the next entry or of
    the end marker (the lookahead of the entry pattern). *)
Definition entry_stop (s : text) : bool :=
  starts_with (txt "\bibitem{") s || starts_with end_marker s.

(** ** Notions used for the second run *)

Definition backslash : char := 92%N.

(** Every [\cite] of the document begins a citation marker that is
    complete in the text in front of the bibliography block. *)
Definition cites_in_front (bib_start : nat) (tex_content : text) : bool :=
  forallb (fun p =>
             negb (starts_with (txt "\cite") (skipn p tex_content))
             || match Re.match_at cite_pattern (skipn p (firstn bib_start tex_content)) with
                | Some _ => true
                | None => false
                end)
          (seq 0 (length tex_content)).

(** No key of the mapping is empty or holds a backslash. *)
Definition plain_keys (bib_entries : Dict.t text) : bool :=
  forallb (fun k => match k with
                    | [] => false
                    | _ :: _ => negb (contains backslash k)
                    end)
          (Dict.keys bib_entries).

(** The opening line holds no entry start and no end marker. *)
Definition plain_opening (opening_line : text) : bool :=
  negb (occursb (txt "\bibitem{") opening_line)
  && negb (occursb end_marker opening_line).

(** * Proofs *)

(** ** Strings and sets *)

Lemma text_eqb_true (a b : text) : text_eqb a b = true <-> a = b.
Proof.
  unfold text_eqb; destruct (list_eq_dec N.eq_dec a b); split; congruence.
Qed.

Lemma text_eqb_refl (a : text) : text_eqb a a = true.
Proof. now apply text_eqb_true. Qed.

Lemma text_eqb_false (a b : text) : text_eqb a b = false <-> a <> b.
Proof.
  unfold text_eqb; destruct (list_eq_dec N.eq_dec a b); split; congruence.
Qed.

Lemma in_set_In (k : text) (s : list text) : in_set k s = true <-> In k s.
Proof.
  unfold in_set; rewrite existsb_exists; split.
  - intros (x & Hx & E); apply text_eqb_true in E; now subst.
  - intros H; exists k; split; [assumption | apply text_eqb_refl].
Qed.

Lemma in_set_false (k : text) (s : list text) : in_set k s = false <-> ~ In k s.
Proof.
  rewrite <- in_set_In; destruct (in_set k s); split; congruence.
Qed.

Lemma in_set_ext (s1 s2 : list text) :
  (forall x, In x s1 <-> In x s2) -> forall x, in_set x s1 = in_set x s2.
Proof.
  intros H x; destruct (in_set x s2) eqn:E.
  - apply in_set_In, H, in_set_In, E.
  - apply in_set_false; rewrite H; now apply in_set_false.
Qed.

(** ** Dictionaries *)

Section DictFacts.
Variable V : Type.
Implicit Types (d : Dict.t V) (k : text).

Lemma dict_get_some_keys d k v : Dict.get k d = Some v -> In k (Dict.keys d).
Proof.
  induction d as [|[k' v'] d IH]; simpl; [discriminate|].
  destruct (text_eqb k k') eqn:E.
  - apply text_eqb_true in E; auto.
  - auto.
Qed.

Lemma dict_get_none_keys d k : Dict.get k d = None <-> ~ In k (Dict.keys d).
Proof.
  induction d as [|[k' v'] d IH]; simpl; [tauto|].
  destruct (text_eqb k k') eqn:E.
  - apply text_eqb_true in E; split; [discriminate | intros H; exfalso; auto].
  - apply text_eqb_false in E; rewrite IH; split.
    + intros H [?|?]; [congruence | contradiction].
    + intros H ?; apply H; now right.
Qed.

Lemma dict_mem_keys d k : Dict.mem k d = true <-> In k (Dict.keys d).
Proof.
  unfold Dict.mem; destruct (Dict.get k d) eqn:E.
  - split; [intros _; eapply dict_get_some_keys; eauto | reflexivity].
  - split; [discriminate | intros H; apply dict_get_none_keys in E; contradiction].
Qed.

Lemma dict_mem_in_set d k : Dict.mem k d = in_set k (Dict.keys d).
Proof.
  destruct (in_set k (Dict.keys d)) eqn:E.
  - apply dict_mem_keys, in_set_In, E.
  - destruct (Dict.mem k d) eqn:M; [|reflexivity].
    apply dict_mem_keys, in_set_In in M; congruence.
Qed.

Lemma dict_keys_set d k v :
  Dict.keys (Dict.set k v d) = if Dict.mem k d then Dict.keys d else Dict.keys d ++ [k].
Proof.
  induction d as [|[k' v'] d IH]; simpl; [reflexivity|].
  unfold Dict.mem in *; simpl.
  destruct (text_eqb k k') eqn:E; simpl.
  - apply text_eqb_true in E; now subst.
  - rewrite IH; now destruct (Dict.get k d).
Qed.

Lemma dict_get_map (f : text -> V) (l : list text) k :
  Dict.get k (map (fun x => (x, f x)) l) = if in_set k l then Some (f k) else None.
Proof.
  induction l as [|x l IH]; simpl; [reflexivity|].
  destruct (text_eqb k x) eqn:E; simpl; [|exact IH].
  apply text_eqb_true in E; now subst.
Qed.

Lemma dict_keys_map (f : text -> V) (l : list text) :
  Dict.keys (map (fun x => (x, f x)) l) = l.
Proof.
  unfold Dict.keys; rewrite map_map; simpl; apply map_id.
Qed.

End DictFacts.

(** ** First occurrences *)

Lemma dedup_ext (s1 s2 l : list text) :
  (forall x, In x s1 <-> In x s2) -> dedup s1 l = dedup s2 l.
Proof.
  revert s1 s2; induction l as [|x l IH]; intros s1 s2 H; simpl; [reflexivity|].
  rewrite (in_set_ext _ _ H x); destruct (in_set x s2); [now apply IH|].
  f_equal; apply IH; intros y; simpl; now rewrite H.
Qed.

Lemma dedup_In (seen l : list text) (x : text) :
  In x (dedup seen l) <-> In x l /\ ~ In x seen.
Proof.
  revert seen; induction l as [|y l IH]; intros seen; simpl; [tauto|].
  destruct (in_set y seen) eqn:E.
  - apply in_set_In in E; rewrite IH; split; [tauto|].
    intros [[->|H] N]; [contradiction | tauto].
  - apply in_set_false in E; simpl; rewrite IH; simpl; split.
    + intros [->|[H N]]; [tauto|]; split; [tauto|]; intros ?; apply N; auto.
    + intros [[->|H] N]; [tauto|].
      destruct (list_eq_dec N.eq_dec y x) as [->|D]; [tauto|].
      right; split; [assumption|]; intros [?|?]; auto.
Qed.

Lemma dedup_NoDup (seen l : list text) : NoDup (dedup seen l).
Proof.
  revert seen; induction l as [|y l IH]; intros seen; simpl; [constructor|].
  destruct (in_set y seen); [apply IH|].
  constructor; [|apply IH].
  rewrite dedup_In; simpl; tauto.
Qed.

Lemma first_occurrences_In (l : list text) (x : text) :
  In x (first_occurrences l) <-> In x l.
Proof. unfold first_occurrences; rewrite dedup_In; simpl; tauto. Qed.

Lemma dedup_NoDup_id (seen l : list text) :
  NoDup l -> (forall x, In x l -> ~ In x seen) -> dedup seen l = l.
Proof.
  revert seen; induction l as [|y l IH]; intros seen N D; simpl; [reflexivity|].
  inversion N; subst.
  assert (E : in_set y seen = false) by (apply in_set_false, D; simpl; auto).
  rewrite E; f_equal; apply IH; [assumption|].
  intros x Hx [->|Hs]; [contradiction|]; apply (D x); simpl; auto.
Qed.

(** ** The reconciler *)

Lemma enumerate_cons (A : Type) (i : nat) (x : A) (l : list A) :
  enumerate i (x :: l) = (i, x) :: enumerate (S i) l.
Proof. reflexivity. Qed.

Lemma enumerate_nth (A : Type) (l : list A) (start n : nat) (x : A) :
  nth_error l n = Some x -> In (start + n, x) (enumerate start l).
Proof.
  revert start n; induction l as [|y l IH]; intros start [|n] H; simpl in H;
    try discriminate.
  - injection H as ->; rewrite Nat.add_0_r; now left.
  - rewrite enumerate_cons; right.
    replace (start + S n) with (S start + n) by lia; now apply IH.
Qed.

Lemma citation_fold (bib_entries : Dict.t text) (order : list text) :
  forall (i : nat) (st : Reorder),
    let st' := fold_left (citation_step bib_entries) (enumerate i order) st in
    reordered_entries st'
      = reordered_entries st ++ map (entry_of bib_entries) (matched_keys order bib_entries)
    /\ used_citations st' = rev (matched_keys order bib_entries) ++ used_citations st
    /\ printed st' = printed st ++ map (step_diag bib_entries) (enumerate i order).
Proof.
  induction order as [|k order IH]; intros i st; cbv zeta.
  - simpl; now rewrite !app_nil_r.
  - rewrite enumerate_cons; cbn [fold_left].
    destruct (IH (S i) (citation_step bib_entries st (i, k))) as (E1 & E2 & E3).
    rewrite E1, E2, E3; clear E1 E2 E3 IH.
    unfold matched_keys, step_diag, entry_of, body_of, Dict.mem, citation_step; simpl.
    destruct (Dict.get k bib_entries) eqn:G; simpl;
      rewrite ?G, <- ?app_assoc; simpl; auto.
Qed.

Lemma citation_pass_spec (order : list text) (bib_entries : Dict.t text) :
  reordered_entries (citation_pass order bib_entries)
    = map (entry_of bib_entries) (matched_keys order bib_entries)
  /\ used_citations (citation_pass order bib_entries)
    = rev (matched_keys order bib_entries)
  /\ printed (citation_pass order bib_entries)
    = Processing (length order) :: map (step_diag bib_entries) (enumerate 1 order).
Proof.
  unfold citation_pass.
  destruct (citation_fold bib_entries order 1
              {| reordered_entries := []; used_citations := [];
                 printed := [Processing (length order)] |}) as (E1 & E2 & E3).
  simpl in *; rewrite E1, E2, E3, app_nil_r; auto.
Qed.

Lemma unused_fold (bib_entries : Dict.t text) (l : list text) :
  forall st : Reorder,
    (forall k, In k l -> In k (Dict.keys bib_entries)) ->
    reordered_entries (fold_left (unused_step bib_entries) l st)
      = reordered_entries st ++ map (entry_of bib_entries) l.
Proof.
  induction l as [|k l IH]; intros st H; simpl; [now rewrite app_nil_r|].
  rewrite IH by (intros; apply H; now right).
  unfold unused_step, entry_of, body_of.
  destruct (Dict.get k bib_entries) eqn:G; simpl.
  - now rewrite <- app_assoc.
  - apply dict_get_none_keys in G; exfalso; apply G, H; now left.
Qed.

Lemma unused_pass_entries (bib_entries : Dict.t text) (st : Reorder) :
  reordered_entries (unused_pass bib_entries st)
    = reordered_entries st
      ++ map (entry_of bib_entries) (unused_keys (used_citations st) bib_entries).
Proof.
  unfold unused_pass; fold (unused_keys (used_citations st) bib_entries).
  assert (H : forall k, In k (unused_keys (used_citations st) bib_entries) ->
                        In k (Dict.keys bib_entries))
    by (intros k Hk; apply filter_In in Hk; tauto).
  destruct (unused_keys (used_citations st) bib_entries) as [|k l] eqn:E.
  - now rewrite app_nil_r.
  - rewrite unused_fold by exact H; reflexivity.
Qed.

Lemma unused_keys_ext (u1 u2 : list text) (bib_entries : Dict.t text) :
  (forall x, In x u1 <-> In x u2) ->
  unused_keys u1 bib_entries = unused_keys u2 bib_entries.
Proof.
  intros H; unfold unused_keys; apply filter_ext; intros k.
  now rewrite (in_set_ext _ _ H k).
Qed.

(** The list built by the two loops is the list of the serialized entries
    of the matched keys followed by the orphaned keys. *)
Lemma reorder_entries (order : list text) (bib_entries : Dict.t text) :
  reordered_entries (reorder order bib_entries)
    = map (entry_of bib_entries) (output_keys order bib_entries).
Proof.
  unfold reorder, output_keys; rewrite unused_pass_entries.
  destruct (citation_pass_spec order bib_entries) as (E1 & E2 & _).
  rewrite E1, E2, map_app; f_equal; f_equal.
  apply unused_keys_ext; intros x; symmetry; apply in_rev.
Qed.

Lemma printed_unused_pass (bib_entries : Dict.t text) (st : Reorder) (x : Diag) :
  In x (printed st) -> In x (printed (unused_pass bib_entries st)).
Proof.
  unfold unused_pass.
  destruct (filter _ (Dict.keys bib_entries)) as [|k l]; [auto|].
  intros H.
  assert (G : forall l' st', In x (printed st') ->
                In x (printed (fold_left (unused_step bib_entries) l' st'))).
  { induction l' as [|k' l' IH]; intros st' H'; simpl; [assumption|].
    apply IH; unfold unused_step; destruct (Dict.get k' bib_entries); simpl;
      [apply in_or_app; now left | assumption]. }
  apply G; simpl; apply in_or_app; now left.
Qed.

Lemma matched_keys_In (order : list text) (bib_entries : Dict.t text) (k : text) :
  In k (matched_keys order bib_entries) <-> In k order /\ In k (Dict.keys bib_entries).
Proof. unfold matched_keys; now rewrite filter_In, dict_mem_keys. Qed.

Lemma unused_keys_In (used : list text) (bib_entries : Dict.t text) (k : text) :
  In k (unused_keys used bib_entries) <-> In k (Dict.keys bib_entries) /\ ~ In k used.
Proof.
  unfold unused_keys; rewrite filter_In, negb_true_iff, in_set_false; tauto.
Qed.

Lemma output_keys_In (order : list text) (bib_entries : Dict.t text) (k : text) :
  In k (output_keys order bib_entries) <-> In k (Dict.keys bib_entries).
Proof.
  unfold output_keys; rewrite in_app_iff, unused_keys_In, matched_keys_In.
  destruct (in_dec (list_eq_dec N.eq_dec) k order); tauto.
Qed.

Lemma NoDup_filter (A : Type) (f : A -> bool) (l : list A) :
  NoDup l -> NoDup (filter f l).
Proof.
  induction 1 as [|x l N _ IH]; simpl; [constructor|].
  destruct (f x); [constructor; [rewrite filter_In; tauto | assumption] | assumption].
Qed.

Lemma output_keys_NoDup (order : list text) (bib_entries : Dict.t text) :
  NoDup order -> NoDup (Dict.keys bib_entries) ->
  NoDup (output_keys order bib_entries).
Proof.
  intros N1 N2; unfold output_keys.
  apply NoDup_app; [now apply NoDup_filter | now apply NoDup_filter |].
  intros k H1 H2; apply unused_keys_In in H2; tauto.
Qed.

(** Every key of the mapping is in the block, once. *)
Lemma output_keys_Permutation (order : list text) (bib_entries : Dict.t text) :
  NoDup order -> NoDup (Dict.keys bib_entries) ->
  Permutation (output_keys order bib_entries) (Dict.keys bib_entries).
Proof.
  intros N1 N2; apply NoDup_Permutation;
    [now apply output_keys_NoDup | assumption | apply output_keys_In].
Qed.

Lemma filter_all_true (A : Type) (f : A -> bool) (l : list A) :
  (forall x, In x l -> f x = true) -> filter f l = l.
Proof.
  induction l as [|x l IH]; intros H; simpl; [reflexivity|].
  rewrite (H x) by (now left); f_equal; apply IH; intros; apply H; now right.
Qed.

Lemma filter_all_false (A : Type) (f : A -> bool) (l : list A) :
  (forall x, In x l -> f x = false) -> filter f l = [].
Proof.
  induction l as [|x l IH]; intros H; simpl; [reflexivity|].
  rewrite (H x) by (now left); apply IH; intros; apply H; now right.
Qed.

Lemma matched_keys_reread (order : list text) (bib_entries : Dict.t text) :
  matched_keys order (reread order bib_entries) = matched_keys order bib_entries.
Proof.
  unfold matched_keys; apply filter_ext; intros k.
  rewrite !dict_mem_in_set; unfold reread; rewrite dict_keys_map.
  apply in_set_ext; intros x; apply output_keys_In.
Qed.

(** Reconciling a block that is already in reconciled order keeps the order. *)
Lemma output_keys_reread (order : list text) (bib_entries : Dict.t text) :
  output_keys order (reread order bib_entries) = output_keys order bib_entries.
Proof.
  unfold output_keys at 1; rewrite matched_keys_reread.
  unfold output_keys; f_equal.
  unfold unused_keys at 1, reread; rewrite dict_keys_map.
  unfold output_keys; rewrite filter_app.
  rewrite filter_all_false, filter_all_true; [reflexivity | |].
  - intros x Hx; apply unused_keys_In in Hx.
    apply negb_true_iff, in_set_false; tauto.
  - intros x Hx; apply negb_false_iff, in_set_In, Hx.
Qed.

Lemma entry_of_reread (order : list text) (bib_entries : Dict.t text) (k : text) :
  In k (output_keys order bib_entries) ->
  entry_of (reread order bib_entries) k = entry_of bib_entries k.
Proof.
  intros H; unfold entry_of, body_of at 1, reread; rewrite dict_get_map.
  apply in_set_In in H; now rewrite H.
Qed.


Lemma create_some (order : list text) (bib_entries : Dict.t text) (opening_line : text) :
  bib_entries <> [] ->
  create_reordered_bibliography order bib_entries opening_line
    = (Some (serialize opening_line
               (map (entry_of bib_entries) (output_keys order bib_entries))),
       printed (reorder order bib_entries)).
Proof.
  intros H; unfold create_reordered_bibliography.
  destruct bib_entries; [congruence|]; now rewrite reorder_entries.
Qed.

Lemma create_none (order : list text) (bib_entries : Dict.t text) (opening_line : text) :
  fst (create_reordered_bibliography order bib_entries opening_line) = None ->
  bib_entries = [].
Proof.
  unfold create_reordered_bibliography; destruct bib_entries; [reflexivity | discriminate].
Qed.

Lemma reread_nil (order : list text) (bib_entries : Dict.t text) :
  reread order bib_entries = [] -> bib_entries = [].
Proof.
  intros H; destruct bib_entries as [|[k v] d]; [reflexivity|].
  assert (In k (output_keys order ((k, v) :: d))) as Hk
    by (apply output_keys_In; now left).
  unfold reread in H; apply map_eq_nil in H; rewrite H in Hk; destruct Hk.
Qed.

Lemma reread_of_nil (order : list text) : reread order [] = [].
Proof.
  destruct (reread order []) as [|[k v] d] eqn:E; [reflexivity|].
  assert (In k (Dict.keys (reread order []))) as Hk by (rewrite E; now left).
  unfold reread in Hk; rewrite dict_keys_map in Hk.
  apply output_keys_In in Hk; destruct Hk.
Qed.

Lemma create_reread (order : list text) (bib_entries : Dict.t text) (opening_line : text) :
  fst (create_reordered_bibliography order (reread order bib_entries) opening_line)
    = fst (create_reordered_bibliography order bib_entries opening_line).
Proof.
  destruct bib_entries as [|kv d] eqn:E; [now rewrite reread_of_nil|]; rewrite <- E.
  assert (N : bib_entries <> []) by (rewrite E; discriminate).
  assert (N' : reread order bib_entries <> [])
    by (intros H; apply reread_nil in H; contradiction).
  rewrite (create_some order opening_line N), (create_some order opening_line N'); simpl.
  rewrite output_keys_reread; do 2 f_equal.
  apply map_ext_in; intros k Hk; now apply entry_of_reread.
Qed.

(** ** The matcher *)

Lemma strip_prefix_sound (l s s' : text) : Re.strip_prefix l s = Some s' -> s = l ++ s'.
Proof.
  revert s; induction l as [|a l IH]; intros [|b s]; simpl; intros H;
    try discriminate; try (injection H as <-; reflexivity).
  destruct (N.eqb_spec a b); [subst; f_equal; auto | discriminate].
Qed.

Lemma strip_prefix_complete (l s : text) : Re.strip_prefix l (l ++ s) = Some s.
Proof.
  induction l as [|a l IH]; simpl; [now destruct s|]; now rewrite N.eqb_refl.
Qed.

Lemma star_sound (p : char -> bool) (k : text -> option Re.result) (s : text) x :
  Re.star p k s = Some x ->
  exists pre s', s = pre ++ s' /\ Forall (fun c => p c = true) pre /\ k s' = Some x.
Proof.
  induction s as [|c s IH]; simpl; intros H.
  - exists [], []; auto.
  - destruct (p c) eqn:P; [|exists [], (c :: s); auto].
    destruct (Re.star p k s) eqn:E.
    + injection H as ->; destruct (IH eq_refl) as (pre & s' & -> & F & K).
      exists (c :: pre), s'; auto.
    + exists [], (c :: s); auto.
Qed.

Lemma lazy_star_sound (p : char -> bool) (k : text -> option Re.result) (s : text) x :
  Re.lazy_star p k s = Some x ->
  exists pre s', s = pre ++ s' /\ Forall (fun c => p c = true) pre /\ k s' = Some x.
Proof.
  induction s as [|c s IH]; simpl; intros H.
  - destruct (k []) eqn:K; [|discriminate]; exists [], []; rewrite K; auto.
  - destruct (k (c :: s)) eqn:K; [exists [], (c :: s); rewrite K; auto|].
    destruct (p c) eqn:P; [|discriminate].
    destruct (IH H) as (pre & s' & -> & F & K'); exists (c :: pre), s'; auto.
Qed.

(** The matcher only returns matches of the pattern. *)
Lemma run_sound (r : Re.regex) :
  forall s c k x, Re.run r s c k = Some x ->
  exists s' c', matches r s c s' c' /\ k s' c' = Some x.
Proof.
  induction r as [p|l|p|p|p|r1 IH1 r2 IH2|r1 IH1 r2 IH2|r IH|n r IH|r IH];
    intros s c k x H; simpl in H.
  - destruct s as [|ch s]; [discriminate|]; destruct (p ch) eqn:P; [|discriminate].
    exists s, c; split; [now constructor | assumption].
  - destruct (Re.strip_prefix l s) as [s'|] eqn:E; [|discriminate].
    apply strip_prefix_sound in E; subst; exists s', c; split; [constructor | assumption].
  - apply star_sound in H; destruct H as (pre & s' & -> & F & K).
    exists s', c; split; [now constructor | assumption].
  - destruct s as [|ch s]; [discriminate|]; destruct (p ch) eqn:P; [|discriminate].
    apply star_sound in H; destruct H as (pre & s' & -> & F & K).
    exists s', c; split; [|assumption].
    apply (M_Plus p (pre := ch :: pre)); [discriminate | now constructor].
  - apply lazy_star_sound in H; destruct H as (pre & s' & -> & F & K).
    exists s', c; split; [now constructor | assumption].
  - apply IH1 in H; destruct H as (s1 & c1 & M1 & H).
    apply IH2 in H; destruct H as (s2 & c2 & M2 & H).
    exists s2, c2; split; [econstructor; eauto | assumption].
  - destruct (Re.run r1 s c k) eqn:E.
    + injection H as ->; apply IH1 in E; destruct E as (s' & c' & M & K).
      exists s', c'; split; [now apply M_AltL | assumption].
    + apply IH2 in H; destruct H as (s' & c' & M & K).
      exists s', c'; split; [now apply M_AltR | assumption].
  - destruct (Re.run r s c k) eqn:E.
    + injection H as ->; apply IH in E; destruct E as (s' & c' & M & K).
      exists s', c'; split; [now apply M_OptSome | assumption].
    + exists s, c; split; [apply M_OptNone | assumption].
  - apply IH in H; destruct H as (s' & c' & M & K).
    eexists _, _; split; [apply M_Group; eassumption | assumption].
  - destruct (Re.run r s c (fun s' c' => Some (s', c'))) as [[s0 c0]|] eqn:E; [|discriminate].
    apply IH in E; destruct E as (s' & c' & M & K); injection K as -> ->.
    exists s, c0; split; [eapply M_Ahead; eassumption | assumption].
Qed.

Lemma match_at_sound (r : Re.regex) (s rest : text) (c : Re.caps) :
  Re.match_at r s = Some (rest, c) -> matches r s [] rest c.
Proof.
  unfold Re.match_at; intros H; apply run_sound in H.
  destruct H as (s' & c' & M & K); now injection K as -> ->.
Qed.

(** What is left after a match is a suffix of the input. *)
Lemma matches_suffix (r : Re.regex) (s s' : text) (c c' : Re.caps) :
  matches r s c s' c' -> exists pre, s = pre ++ s'.
Proof.
  induction 1;
    repeat match goal with H : exists _, _ |- _ => destruct H as [? ->] end;
    solve [ eexists; reflexivity | exists []; reflexivity
          | eexists; apply app_assoc
          | match goal with |- exists _, ?ch :: _ = _ => exists [ch]; reflexivity end ].
Qed.

(** ** finditer and search *)

(** Every match reported is a match of the pattern at its start position, and
    lies inside the text. *)
Lemma finditer_from_In (r : Re.regex) (s : text) :
  forall pos skip m, In m (Re.finditer_from r pos skip s) ->
  exists n rest,
    skip <= n /\ n <= length s /\ Re.m_start m = pos + n
    /\ Re.match_at r (skipn n s) = Some (rest, Re.m_caps m)
    /\ Re.m_end m = Re.m_start m + (length (skipn n s) - length rest).
Proof.
  induction s as [|ch s IH]; intros pos skip m H; simpl in H.
  - destruct skip; [|destruct H].
    destruct (Re.match_at r []) as [[t c]|] eqn:E; [|destruct H].
    destruct H as [<-|[]]; exists 0, t; simpl; rewrite E.
    repeat split; auto; lia.
  - destruct skip as [|k].
    + destruct (Re.match_at r (ch :: s)) as [[rest c]|] eqn:E.
      * destruct H as [<-|H].
        -- exists 0, rest; simpl; rewrite E; repeat split; auto; lia.
        -- apply IH in H; destruct H as (n & rest' & H1 & H2 & H3 & H4 & H5).
           exists (S n), rest'; simpl; repeat split; auto; lia.
      * apply IH in H; destruct H as (n & rest' & H1 & H2 & H3 & H4 & H5).
        exists (S n), rest'; simpl; repeat split; auto; lia.
    + apply IH in H; destruct H as (n & rest' & H1 & H2 & H3 & H4 & H5).
      exists (S n), rest'; simpl; repeat split; auto; lia.
Qed.

Lemma finditer_In (r : Re.regex) (s : text) (m : Re.Match) :
  In m (Re.finditer r s) ->
  exists rest,
    Re.m_start m <= length s
    /\ Re.match_at r (skipn (Re.m_start m) s) = Some (rest, Re.m_caps m)
    /\ Re.m_end m = Re.m_start m + (length (skipn (Re.m_start m) s) - length rest).
Proof.
  intros H; apply finditer_from_In in H.
  destruct H as (n & rest & _ & H2 & H3 & H4 & H5); simpl in H3; subst n.
  exists rest; auto.
Qed.

Lemma finditer_end_le (r : Re.regex) (s : text) (m : Re.Match) :
  In m (Re.finditer r s) -> Re.m_start m <= Re.m_end m <= length s.
Proof.
  intros H; apply finditer_In in H; destruct H as (rest & H1 & _ & H3).
  rewrite H3, length_skipn; lia.
Qed.

(** The matches come in scan order and do not overlap. *)
Lemma finditer_from_sorted (r : Re.regex) (s : text) :
  forall pos skip, StronglySorted before (Re.finditer_from r pos skip s).
Proof.
  induction s as [|ch s IH]; intros pos skip; simpl.
  - destruct skip; [|constructor].
    destruct (Re.match_at r []) as [[t c]|]; repeat constructor.
  - destruct skip as [|k]; [|apply IH].
    destruct (Re.match_at r (ch :: s)) as [[rest c]|]; [|apply IH].
    constructor; [apply IH|].
    apply Forall_forall; intros m Hm; apply finditer_from_In in Hm.
    destruct Hm as (n & rest' & H1 & _ & H3 & _); unfold before; simpl in *; lia.
Qed.

Lemma finditer_sorted (r : Re.regex) (s : text) :
  StronglySorted before (Re.finditer r s).
Proof. apply finditer_from_sorted. Qed.

Lemma finditer_nil (r : Re.regex) :
  Re.match_at r [] = None -> Re.finditer r [] = [].
Proof. unfold Re.finditer; simpl; now intros ->. Qed.

Lemma search_In (r : Re.regex) (s : text) (m : Re.Match) :
  Re.search r s = Some m -> In m (Re.finditer r s).
Proof.
  unfold Re.search; destruct (Re.finditer r s); simpl; [discriminate|].
  intros H; injection H as ->; now left.
Qed.

Lemma starts_with_app (t s : text) : starts_with t (t ++ s) = true.
Proof. induction t as [|a t IH]; simpl; [reflexivity|]; now rewrite N.eqb_refl. Qed.

Lemma occursb_skipn (t s : text) (n : nat) :
  occursb t (skipn n s) = true -> occursb t s = true.
Proof.
  revert s; induction n as [|n IH]; intros s H; [assumption|].
  destruct s as [|c s]; [assumption|]; simpl in *.
  rewrite (IH _ H); apply orb_true_r.
Qed.

Lemma occursb_starts (t s : text) : starts_with t s = true -> occursb t s = true.
Proof. intros H; destruct s; simpl in *; now rewrite H. Qed.

(** A literal that is found occurs in the text. *)
Lemma search_literal_occurs (t s : text) (m : Re.Match) :
  Re.search (Re.Str t) s = Some m -> occursb t s = true.
Proof.
  intros H; apply search_In, finditer_In in H; destruct H as (rest & _ & H & _).
  apply match_at_sound in H; inversion H; subst.
  apply occursb_skipn with (n := Re.m_start m).
  apply occursb_starts.
  match goal with E : _ ++ _ = skipn _ _ |- _ => rewrite <- E end.
  apply starts_with_app.
Qed.

Lemma search_absent (t s : text) :
  occursb t s = false -> Re.search (Re.Str t) s = None.
Proof.
  intros H; destruct (Re.search (Re.Str t) s) eqn:E; [|reflexivity].
  apply search_literal_occurs in E; congruence.
Qed.

(** Without one of its delimiters the block is not found. *)
Lemma extract_absent (tex_content : text) :
  occursb begin_marker tex_content = false \/ occursb end_marker tex_content = false ->
  extract_bibliography_entries tex_content = (None, [DelimiterError]).
Proof.
  unfold extract_bibliography_entries, begin_pattern, end_pattern; intros [H|H].
  - now rewrite (search_absent _ _ H).
  - rewrite (search_absent _ _ H); now destruct (Re.search _ tex_content).
Qed.

(** ** The tracker is not empty once a marker was scanned *)

Lemma split_not_nil (sep : char) (s : text) : split sep s <> [].
Proof.
  destruct s as [|c s]; simpl; [discriminate|].
  destruct (c =? sep)%N; [discriminate|]; destruct (split sep s); discriminate.
Qed.

Lemma add_citation_not_nil (q : Q) (k : text) (tr : CitationTracker) :
  citations (add_citation q k tr) <> [].
Proof.
  unfold add_citation; simpl.
  destruct (Dict.mem (strip k) (citations tr)) eqn:E.
  - intros H; rewrite H in E; discriminate.
  - intros H; apply app_eq_nil in H; destruct H; discriminate.
Qed.

Lemma fold_add_not_nil (p : nat) (l : list (nat * text)) :
  forall tr, citations tr <> [] ->
  citations (fold_left (fun tr ik => add_citation (offset_position p (fst ik)) (snd ik) tr)
               l tr) <> [].
Proof.
  induction l as [|x l IH]; intros tr H; simpl; [assumption|].
  apply IH, add_citation_not_nil.
Qed.

Lemma scan_match_not_nil (tr : CitationTracker) (m : Re.Match) :
  citations (scan_match tr m) <> [].
Proof.
  unfold scan_match; destruct (contains comma (Re.group 1 m)).
  - destruct (split comma (Re.group 1 m)) as [|x l] eqn:E;
      [now apply split_not_nil in E|].
    simpl map; rewrite enumerate_cons; simpl fold_left.
    apply fold_add_not_nil, add_citation_not_nil.
  - apply add_citation_not_nil.
Qed.

Lemma fold_scan_not_nil (l : list Re.Match) :
  forall tr, citations tr <> [] -> citations (fold_left scan_match l tr) <> [].
Proof.
  induction l as [|m l IH]; intros tr H; simpl; [assumption|].
  apply IH, scan_match_not_nil.
Qed.

(** A document has a tracked citation exactly when it has a citation marker. *)
Lemma citations_nil_iff (tex_content : text) :
  citations (find_all_citations tex_content) = []
  <-> Re.finditer cite_pattern tex_content = [].
Proof.
  unfold find_all_citations; split.
  - destruct (Re.finditer cite_pattern tex_content) as [|m l]; [reflexivity|].
    simpl; intros H; exfalso; revert H.
    apply fold_scan_not_nil, scan_match_not_nil.
  - now intros ->.
Qed.

(** ** The driver *)

Lemma fs_write_read (fs fs' : FS) (path data : text) :
  fs_write fs path data = Some fs' -> fs_read fs' path = Some data.
Proof.
  unfold fs_write; destruct (fs_writable fs path); [|discriminate].
  intros H; injection H as <-; simpl; now rewrite text_eqb_refl.
Qed.

Lemma main_exit_status (argv0 input_file : text) (rest : list text) (fs : FS) :
  fst (fst (main (argv0 :: input_file :: rest) fs))
    = if fst (fst (reorder_latex_bibliography fs input_file (hd_error rest))) then 0 else 1.
Proof.
  unfold main.
  destruct (reorder_latex_bibliography fs input_file (hd_error rest)) as [[ok fs'] log].
  now destruct ok.
Qed.

Lemma bibitem_no_empty_match : Re.match_at bibitem_pattern [] = None.
Proof. reflexivity. Qed.

(** A block with an entry has its end after its start. *)
Lemma extract_entries_span (tex_content : text) (entries : Dict.t text)
    (bib_start bib_end : nat) (opening_line : text) :
  fst (extract_bibliography_entries tex_content)
    = Some (entries, (bib_start, bib_end), opening_line) ->
  bib_end <= length tex_content /\ (entries <> [] -> bib_start < bib_end).
Proof.
  unfold extract_bibliography_entries.
  destruct (Re.search begin_pattern tex_content) as [mb|]; [|discriminate].
  destruct (Re.search end_pattern tex_content) as [me|] eqn:E; [|discriminate].
  simpl; intros H; injection H as <- <- <- _.
  split.
  - apply search_In, finditer_end_le in E; lia.
  - intros N; destruct (Nat.lt_ge_cases (Re.m_start mb) (Re.m_end me)) as [|G]; [assumption|].
    exfalso; apply N; unfold bib_section_of, slice.
    replace (Re.m_end me - Re.m_start mb) with 0 by lia.
    cbn [firstn]; now rewrite (finditer_nil _ bibitem_no_empty_match).
Qed.

(** * The reconciler on an empty or unmatched mapping *)

Lemma matched_keys_none (order : list text) (bib_entries : Dict.t text) :
  (forall k, In k order -> Dict.get k bib_entries = None) ->
  matched_keys order bib_entries = [].
Proof.
  intros H; apply filter_all_false; intros k Hk.
  unfold Dict.mem; now rewrite (H k Hk).
Qed.

Lemma output_keys_none (order : list text) (bib_entries : Dict.t text) :
  (forall k, In k order -> Dict.get k bib_entries = None) ->
  output_keys order bib_entries = Dict.keys bib_entries.
Proof.
  intros H; unfold output_keys; rewrite (matched_keys_none _ _ H); simpl.
  apply filter_all_true; reflexivity.
Qed.

Lemma driver_empty_mapping (fs : FS) (input_file : text) (output_file : option text)
    (content : text) (bounds : nat * nat) (opening_line : text) :
  fs_read fs input_file = Some content ->
  fst (extract_bibliography_entries content) = Some ([], bounds, opening_line) ->
  fst (reorder_latex_bibliography fs input_file output_file) = (false, fs).
Proof.
  intros R E; unfold reorder_latex_bibliography; rewrite R.
  destruct (citations (find_all_citations content)); [reflexivity|].
  destruct (extract_bibliography_entries content) as [[[[e [bs be]] o]|] log2];
    simpl in E; [|discriminate].
  injection E as -> _ _; reflexivity.
Qed.

(** C2 (amended).  The reconciler produces a serialized block for every
    citation order and every non-empty entry mapping; when no cited key has
    an entry, the block is the opening line, all entries of the mapping in
    the mapping's order, and the end marker.  For the empty mapping it
    returns no block and prints nothing, and the driver then fails and
    leaves the files untouched. *)
Theorem reconciler_total_on_nonempty_mapping
    (citation_order : list text) (bib_entries : Dict.t text) (opening_line : text) :
  (bib_entries <> [] ->
   exists block,
     fst (create_reordered_bibliography citation_order bib_entries opening_line) = Some block
     /\ ((forall k, In k citation_order -> Dict.get k bib_entries = None) ->
         block = serialize opening_line
                   (map (entry_of bib_entries) (Dict.keys bib_entries))))
  /\ (bib_entries = [] ->
      create_reordered_bibliography citation_order bib_entries opening_line = (None, [])
      /\ forall fs input_file output_file content bounds,
           fs_read fs input_file = Some content ->
           fst (extract_bibliography_entries content) = Some (bib_entries, bounds, opening_line) ->
           fst (reorder_latex_bibliography fs input_file output_file) = (false, fs)).
Proof.
  split.
  - intros N; eexists; rewrite (create_some citation_order opening_line N); split;
      [reflexivity|].
    intros H; now rewrite (output_keys_none _ _ H).
  - intros ->; split; [reflexivity|].
    intros; eapply driver_empty_mapping; eauto.
Qed.

(** C7 (amended).  When the entry mapping is not empty, a cited key without
    an entry is reported by a diagnostic carrying its rank and is skipped:
    the block is still produced, every entry of the block is an entry of the
    mapping (none is made up, so the missing key is not in it), the cited
    keys that have an entry are appended in citation order, and exactly
    those are marked used. *)
Theorem missing_key_reported_and_skipped
    (citation_order : list text) (bib_entries : Dict.t text) (opening_line : text) :
  bib_entries <> [] ->
  let st := reorder citation_order bib_entries in
  create_reordered_bibliography citation_order bib_entries opening_line
    = (Some (serialize opening_line (reordered_entries st)), printed st)
  /\ reordered_entries st
       = map (entry_of bib_entries) (output_keys citation_order bib_entries)
  /\ (forall k, In k (output_keys citation_order bib_entries) ->
        Dict.mem k bib_entries = true)
  /\ (forall i q, nth_error citation_order i = Some q ->
        Dict.get q bib_entries = None ->
        In (MissingEntry (S i) q) (printed st)
        /\ ~ In q (output_keys citation_order bib_entries))
  /\ reordered_entries (citation_pass citation_order bib_entries)
       = map (entry_of bib_entries)
           (filter (fun k => Dict.mem k bib_entries) citation_order)
  /\ (forall k, In k (used_citations (citation_pass citation_order bib_entries))
        <-> In k citation_order /\ Dict.mem k bib_entries = true).
Proof.
  intros N st.
  destruct (citation_pass_spec citation_order bib_entries) as (E1 & E2 & E3).
  split; [|split; [|split; [|split; [|split]]]].
  - unfold create_reordered_bibliography; destruct bib_entries; [congruence | reflexivity].
  - apply reorder_entries.
  - intros k Hk; apply dict_mem_keys; now apply output_keys_In in Hk.
  - intros i q Hi Hq; split.
    + unfold st, reorder; apply printed_unused_pass; rewrite E3; right.
      apply in_map_iff; exists (S i, q); split.
      * unfold step_diag, Dict.mem; simpl; now rewrite Hq.
      * now apply (enumerate_nth citation_order 1 i).
    + intros H; apply output_keys_In in H.
      now apply dict_get_none_keys in Hq.
  - exact E1.
  - intros k; rewrite E2, <- in_rev; apply filter_In.
Qed.

Example sample_order_value :
  sample_order = [txt "b"; txt "a"; txt "c"; []; txt "d"].
Proof. vm_compute; reflexivity. Qed.

Example sample_extract :
  fst (extract_bibliography_entries sample_doc)
    = Some (sample_entries, (53, 160), sample_opening).
Proof. vm_compute; reflexivity. Qed.

Example sample_block :
  fst (create_reordered_bibliography sample_order sample_entries sample_opening)
    = Some (lines ["\begin{thebibliography}{99}"; "";
                   "\bibitem{b}"; "Second"; "";
                   "\bibitem{a}"; "First"; "";
                   "\bibitem{w}"; "Unused";
                   "\end{thebibliography}"]%string).
Proof. vm_compute; reflexivity. Qed.

(** Witness of C2: one cited key without entry, one uncited entry. *)
Lemma reconciler_total_on_nonempty_mapping_witness :
  exists block,
    fst (create_reordered_bibliography [txt "q"] [(txt "w", txt "W.")] sample_opening)
      = Some block
    /\ block = serialize sample_opening
                 (map (entry_of [(txt "w", txt "W.")]) (Dict.keys [(txt "w", txt "W.")])).
Proof.
  destruct (reconciler_total_on_nonempty_mapping
              [txt "q"] [(txt "w", txt "W.")] sample_opening) as [H _].
  destruct H as (block & H1 & H2); [discriminate|].
  exists block; split; [exact H1|].
  apply H2; intros k [<-|[]]; reflexivity.
Defined.

(** Counterexample to C2: an empty mapping gives no block. *)
Lemma reconciler_empty_mapping_no_block :
  create_reordered_bibliography [txt "q"] [] sample_opening = (None, []).
Proof. reflexivity. Qed.

(** Witness of C7: [q] is cited without entry, [a] is cited with one. *)
Lemma missing_key_reported_and_skipped_witness :
  [(txt "a", txt "A.")] <> []
  /\ let citation_order := [txt "q"; txt "a"] in
     let bib_entries := [(txt "a", txt "A.")] in
     let st := reorder citation_order bib_entries in
     create_reordered_bibliography citation_order bib_entries sample_opening
       = (Some (serialize sample_opening (reordered_entries st)), printed st)
     /\ reordered_entries st
          = map (entry_of bib_entries) (output_keys citation_order bib_entries)
     /\ (forall k, In k (output_keys citation_order bib_entries) ->
           Dict.mem k bib_entries = true)
     /\ (forall i q, nth_error citation_order i = Some q ->
           Dict.get q bib_entries = None ->
           In (MissingEntry (S i) q) (printed st)
           /\ ~ In q (output_keys citation_order bib_entries))
     /\ reordered_entries (citation_pass citation_order bib_entries)
          = map (entry_of bib_entries)
              (filter (fun k => Dict.mem k bib_entries) citation_order)
     /\ (forall k, In k (used_citations (citation_pass citation_order bib_entries))
           <-> In k citation_order /\ Dict.mem k bib_entries = true).
Proof.
  split; [discriminate|].
  apply (missing_key_reported_and_skipped
           [txt "q"; txt "a"] (bib_entries := [(txt "a", txt "A.")]) sample_opening).
  discriminate.
Defined.

(** Counterexample to C7: with an empty bibliography block the cited key
    [q] gets no diagnostic of its own and no output is written. *)
Lemma missing_key_with_empty_block :
  let doc := lines ["Text \cite{q}."; "\begin{thebibliography}{9}";
                    "\end{thebibliography}"]%string in
  let run := reorder_latex_bibliography (single_file sample_path doc) sample_path None in
  fst (fst run) = false
  /\ ~ In (MissingEntry 1 (txt "q")) (snd run)
  /\ fs_read (snd (fst run)) (default_output_file sample_path) = None.
Proof.
  vm_compute; repeat split; intuition discriminate.
Qed.

(** * The rewritten document *)

(** What a successful run has read, computed and written. *)
Lemma reorder_success (fs fs' : FS) (input_file : text) (output_file : option text)
    (log : list Diag) :
  reorder_latex_bibliography fs input_file output_file = (true, fs', log) ->
  exists content entries bib_start bib_end opening_line block,
    fs_read fs input_file = Some content
    /\ fst (extract_bibliography_entries content)
         = Some (entries, (bib_start, bib_end), opening_line)
    /\ fst (create_reordered_bibliography
              (get_ordered_citations (find_all_citations content)) entries opening_line)
         = Some block
    /\ fs_write fs (match output_file with
                    | Some o => o
                    | None => default_output_file input_file
                    end)
         (splice content bib_start bib_end block) = Some fs'.
Proof.
  unfold reorder_latex_bibliography.
  destruct (fs_read fs input_file) as [content|]; [|discriminate].
  destruct (citations (find_all_citations content)); [discriminate|].
  destruct (extract_bibliography_entries content) as [[[[e [bs be]] o]|] log2] eqn:X;
    [|discriminate].
  destruct (create_reordered_bibliography _ e o) as [[b|] log3] eqn:C; [|discriminate].
  destruct (fs_write fs _ _) as [fs1|] eqn:W; [|discriminate].
  intros H; injection H as -> _.
  exists content, e, bs, be, o, b; rewrite X, C; simpl; auto.
Qed.

(** C5.  The document written by a run is
    [text[0:block_start] + reconciled_block_text + text[block_end:]]: the
    text before the start of the block and the text after its end are in the
    output unchanged, around the new block. *)
Theorem output_is_spliced_document (fs fs' : FS) (input_file : text)
    (output_file : option text) (log : list Diag) :
  reorder_latex_bibliography fs input_file output_file = (true, fs', log) ->
  exists content entries bib_start bib_end opening_line block,
    fs_read fs input_file = Some content
    /\ fst (extract_bibliography_entries content)
         = Some (entries, (bib_start, bib_end), opening_line)
    /\ fst (create_reordered_bibliography
              (get_ordered_citations (find_all_citations content)) entries opening_line)
         = Some block
    /\ let out := firstn bib_start content ++ block ++ skipn bib_end content in
       fs_read fs' (match output_file with
                    | Some o => o
                    | None => default_output_file input_file
                    end) = Some out
       /\ bib_start < bib_end <= length content
       /\ firstn bib_start out = firstn bib_start content
       /\ skipn (bib_start + length block) out = skipn bib_end content.
Proof.
  intros H; apply reorder_success in H.
  destruct H as (content & e & bs & be & o & b & R & E & C & W).
  exists content, e, bs, be, o, b; repeat split; auto.
  - now apply fs_write_read in W.
  - apply extract_entries_span in E; apply E.
    intros ->; discriminate.
  - apply extract_entries_span in E; tauto.
  - assert (L : length (firstn bs content) = bs).
    { apply firstn_length_le; apply extract_entries_span in E.
      destruct E as [E1 E2].
      assert (bs < be) by (apply E2; intros ->; discriminate); lia. }
    rewrite firstn_app, L, Nat.sub_diag; simpl.
    rewrite app_nil_r; apply firstn_all2; lia.
  - assert (L : length (firstn bs content) = bs).
    { apply firstn_length_le; apply extract_entries_span in E.
      destruct E as [E1 E2].
      assert (bs < be) by (apply E2; intros ->; discriminate); lia. }
    rewrite app_assoc, skipn_app, length_app, L.
    rewrite skipn_all2 by (rewrite length_app; lia).
    now rewrite Nat.sub_diag.
Qed.

(** Witness of C5: the sample document. *)
Lemma output_is_spliced_document_witness :
  let run := reorder_latex_bibliography (single_file sample_path sample_doc)
               sample_path None in
  fst (fst run) = true
  /\ exists content entries bib_start bib_end opening_line block,
       fs_read (single_file sample_path sample_doc) sample_path = Some content
       /\ fst (extract_bibliography_entries content)
            = Some (entries, (bib_start, bib_end), opening_line)
       /\ fst (create_reordered_bibliography
                 (get_ordered_citations (find_all_citations content)) entries opening_line)
            = Some block
       /\ let out := firstn bib_start content ++ block ++ skipn bib_end content in
          fs_read (snd (fst run)) (default_output_file sample_path) = Some out
          /\ bib_start < bib_end <= length content
          /\ firstn bib_start out = firstn bib_start content
          /\ skipn (bib_start + length block) out = skipn bib_end content.
Proof.
  cbv zeta.
  assert (T : fst (fst (reorder_latex_bibliography
                          (single_file sample_path sample_doc) sample_path None)) = true)
    by (vm_compute; reflexivity).
  split; [exact T|].
  apply (output_is_spliced_document (single_file sample_path sample_doc) sample_path None
           (log := snd (reorder_latex_bibliography
                          (single_file sample_path sample_doc) sample_path None))).
  destruct (reorder_latex_bibliography (single_file sample_path sample_doc)
              sample_path None) as [[ok fs'] log].
  simpl in T; now subst.
Defined.

(** * Missing delimiters *)

Lemma driver_missing_delimiter (fs : FS) (input_file : text) (output_file : option text)
    (content : text) :
  fs_read fs input_file = Some content ->
  occursb begin_marker content = false \/ occursb end_marker content = false ->
  exists log,
    reorder_latex_bibliography fs input_file output_file = (false, fs, log)
    /\ (Re.finditer cite_pattern content <> [] -> In DelimiterError log)
    /\ (Re.finditer cite_pattern content = [] ->
        In NoCitationsFound log /\ ~ In DelimiterError log).
Proof.
  intros R A; unfold reorder_latex_bibliography; rewrite R.
  destruct (citations (find_all_citations content)) eqn:C.
  - apply citations_nil_iff in C; eexists; split; [reflexivity|]; split.
    + intros N; contradiction.
    + intros _; simpl; split; [tauto | intuition discriminate].
  - rewrite (extract_absent content A); eexists; split; [reflexivity|]; split.
    + intros _; simpl; tauto.
    + intros N; apply citations_nil_iff in N; congruence.
Qed.

(** C6 (amended).  When the begin marker or the end marker is absent from a
    document, the parser reports the delimiter error, the run fails and
    leaves every file as it was, and the process exits with status 1.  The
    diagnostic of the run is the delimiter error when the document has a
    citation marker; a document without citation marker fails before the
    delimiters are looked for, with the no-citations diagnostic. *)
Theorem missing_delimiter_aborts (fs : FS) (input_file : text)
    (output_file : option text) (content : text) :
  fs_read fs input_file = Some content ->
  occursb begin_marker content = false \/ occursb end_marker content = false ->
  extract_bibliography_entries content = (None, [DelimiterError])
  /\ (exists log,
        reorder_latex_bibliography fs input_file output_file = (false, fs, log)
        /\ (Re.finditer cite_pattern content <> [] -> In DelimiterError log)
        /\ (Re.finditer cite_pattern content = [] ->
            In NoCitationsFound log /\ ~ In DelimiterError log))
  /\ forall argv0 rest, fst (main (argv0 :: input_file :: rest) fs) = (1, fs).
Proof.
  intros R A; split; [now apply extract_absent|]; split;
    [now apply driver_missing_delimiter|].
  intros argv0 rest.
  destruct (driver_missing_delimiter fs input_file (hd_error rest) R A) as (log & E & _).
  unfold main; now rewrite E.
Qed.

(** Witness of C6: a citation and no bibliography block. *)
Lemma missing_delimiter_aborts_witness :
  let content := txt "Text \cite{a} without a bibliography." in
  let fs := single_file sample_path content in
  fs_read fs sample_path = Some content
  /\ (occursb begin_marker content = false \/ occursb end_marker content = false)
  /\ extract_bibliography_entries content = (None, [DelimiterError])
  /\ (exists log,
        reorder_latex_bibliography fs sample_path None = (false, fs, log)
        /\ (Re.finditer cite_pattern content <> [] -> In DelimiterError log)
        /\ (Re.finditer cite_pattern content = [] ->
            In NoCitationsFound log /\ ~ In DelimiterError log))
  /\ forall argv0 rest, fst (main (argv0 :: sample_path :: rest) fs) = (1, fs).
Proof.
  intros content fs.
  assert (R : fs_read fs sample_path = Some content) by reflexivity.
  assert (A : occursb begin_marker content = false \/ occursb end_marker content = false)
    by (left; vm_compute; reflexivity).
  split; [exact R|]; split; [exact A|].
  exact (missing_delimiter_aborts fs sample_path None R A).
Defined.

(** Counterexample to C6: without citation marker the run stops at the
    no-citations check and the delimiter error is never printed. *)
Lemma missing_delimiter_without_citation :
  let content := txt "Plain text, no citation, no bibliography." in
  let run := reorder_latex_bibliography (single_file sample_path content)
               sample_path None in
  occursb begin_marker content = false
  /\ fst (fst run) = false
  /\ snd run = [ReadOk 41; NoCitationsFound]
  /\ ~ In DelimiterError (snd run).
Proof.
  vm_compute; repeat split; intuition discriminate.
Qed.

(** * Running the reconciler again *)


(** An entry stored under the empty key is written as [\bibitem{}], which
    the parser does not read back: the second run drops it. *)
Example empty_key_entry_lost_on_second_run :
  let '(ok1, fs1, block1) := run_in_place (single_file sample_path blank_key_doc) in
  let '(ok2, fs2, block2) := run_in_place fs1 in
  ok1 = true /\ ok2 = true
  /\ block1 = Some (lines ["\begin{thebibliography}{9}"; "";
                           "\bibitem{a}"; "Y"; "";
                           "\bibitem{}"; "X";
                           "\end{thebibliography}"]%string)
  /\ block2 = Some (lines ["\begin{thebibliography}{9}"; "";
                           "\bibitem{a}"; "Y";
                           "\end{thebibliography}"]%string).
Proof. vm_compute; repeat split. Qed.

(** On the sample document the second run gives the same block. *)
Example sample_second_run_same_block :
  let '(ok1, fs1, block1) := run_in_place (single_file sample_path sample_doc) in
  let '(ok2, fs2, block2) := run_in_place fs1 in
  ok1 = true /\ ok2 = true /\ block2 = block1.
Proof. vm_compute; repeat split. Qed.

(** * The tracker *)

Lemma first_occs_keys (seen : list text) (os : list Occurrence) :
  map occ_key (first_occs seen os) = dedup seen (map occ_key os).
Proof.
  revert seen; induction os as [|o os IH]; intros seen; simpl; [reflexivity|].
  destruct (in_set (occ_key o) seen); simpl; now rewrite IH.
Qed.

Lemma first_occs_incl (seen : list text) (os : list Occurrence) (o : Occurrence) :
  In o (first_occs seen os) -> In o os.
Proof.
  revert seen; induction os as [|a os IH]; intros seen; simpl; [tauto|].
  destruct (in_set (occ_key a) seen); simpl; intros H.
  - right; eapply IH; eauto.
  - destruct H; [now left | right; eapply IH; eauto].
Qed.

Lemma first_occs_ext (s1 s2 : list text) (os : list Occurrence) :
  (forall x, In x s1 <-> In x s2) -> first_occs s1 os = first_occs s2 os.
Proof.
  revert s1 s2; induction os as [|o os IH]; intros s1 s2 H; simpl; [reflexivity|].
  rewrite (in_set_ext _ _ H); destruct (in_set (occ_key o) s2); [now apply IH|].
  f_equal; apply IH; intros y; simpl; now rewrite H.
Qed.

Lemma first_occs_snoc (seen : list text) (os : list Occurrence) (o : Occurrence) :
  first_occs seen (os ++ [o])
  = first_occs seen os
    ++ (if in_set (occ_key o) (seen ++ map occ_key os) then [] else [o]).
Proof.
  revert seen; induction os as [|a os IH]; intros seen; simpl.
  - rewrite app_nil_r; now destruct (in_set (occ_key o) seen).
  - destruct (in_set (occ_key a) seen) eqn:E; rewrite IH.
    + f_equal.
      rewrite (in_set_ext (seen ++ map occ_key os) (seen ++ occ_key a :: map occ_key os));
        [reflexivity|].
      intros x; rewrite !in_app_iff; simpl; split; [tauto|].
      intros [H|[<-|H]]; auto; left; now apply in_set_In.
    + rewrite <- app_comm_cons; do 2 f_equal.
      rewrite (in_set_ext ((occ_key a :: seen) ++ map occ_key os)
                 (seen ++ occ_key a :: map occ_key os)); [reflexivity|].
      intros x; simpl; rewrite !in_app_iff; simpl; tauto.
Qed.

Lemma tracks_mem (tr : CitationTracker) (os : list Occurrence) (k : text) :
  tracks tr os -> Dict.mem k (citations tr) = in_set k (map occ_key os).
Proof.
  intros [_ H]; rewrite dict_mem_in_set, H; unfold Dict.keys.
  rewrite map_map; simpl.
  change (map (fun x => occ_key x) (first_occs [] os)) with (map occ_key (first_occs [] os)).
  rewrite first_occs_keys; apply in_set_ext; intros x.
  rewrite dedup_In; simpl; tauto.
Qed.

Lemma tracks_add (tr : CitationTracker) (os : list Occurrence) (o : Occurrence) (k : text) :
  tracks tr os -> occ_key o = strip k ->
  tracks (add_citation (occ_q o) k tr) (os ++ [o]).
Proof.
  intros T K; pose proof (tracks_mem (strip k) T) as M; destruct T as [T1 T2].
  unfold tracks, add_citation; simpl; split.
  - rewrite T1, map_app; simpl; now rewrite K.
  - rewrite first_occs_snoc, map_app, M, K, T2; simpl.
    destruct (in_set (strip k) (map occ_key os)); simpl;
      [now rewrite app_nil_r | now rewrite K].
Qed.

Lemma tracks_fold (p : nat) (l : list (nat * text)) :
  forall tr os, tracks tr os ->
  tracks (fold_left (fun tr ik => add_citation (offset_position p (fst ik)) (snd ik) tr) l tr)
         (os ++ map (fun ik => {| occ_pos := p; occ_sub := fst ik;
                                  occ_q := offset_position p (fst ik);
                                  occ_key := strip (snd ik) |}) l).
Proof.
  induction l as [|ik l IH]; intros tr os T; simpl; [now rewrite app_nil_r|].
  match goal with
  | |- tracks _ (os ++ ?x :: ?t) =>
      replace (os ++ x :: t) with ((os ++ [x]) ++ t) by (now rewrite <- app_assoc)
  end.
  apply IH.
  apply (@tracks_add tr os {| occ_pos := p; occ_sub := fst ik;
                              occ_q := offset_position p (fst ik);
                              occ_key := strip (snd ik) |} (snd ik) T eq_refl).
Qed.

Lemma tracks_scan (tr : CitationTracker) (os : list Occurrence) (m : Re.Match) :
  tracks tr os -> tracks (scan_match tr m) (os ++ match_occurrences m).
Proof.
  intros T; unfold scan_match, match_occurrences.
  destruct (contains comma (Re.group 1 m)); [now apply tracks_fold|].
  apply (@tracks_add tr os {| occ_pos := Re.m_start m; occ_sub := 0;
                              occ_q := int_position (Re.m_start m);
                              occ_key := strip (strip (Re.group 1 m)) |}
           (strip (Re.group 1 m)) T eq_refl).
Qed.

Lemma tracks_scan_all (ms : list Re.Match) :
  forall tr os, tracks tr os ->
  tracks (fold_left scan_match ms tr) (os ++ flat_map match_occurrences ms).
Proof.
  induction ms as [|m ms IH]; intros tr os T; simpl; [now rewrite app_nil_r|].
  rewrite app_assoc; apply IH, tracks_scan, T.
Qed.

(** The tracker of a document holds its occurrences and the first
    occurrence of each key. *)
Lemma find_all_citations_tracks (tex_content : text) :
  tracks (find_all_citations tex_content) (occurrences tex_content).
Proof.
  unfold find_all_citations, occurrences.
  apply (@tracks_scan_all (Re.finditer cite_pattern tex_content) new_tracker []).
  split; reflexivity.
Qed.

(** * The citation order *)

Ltac inv_matches :=
  repeat match goal with
  | H : matches (Re.Seq _ _) _ _ _ _ |- _ => inversion H; clear H; subst
  | H : matches (Re.Str _) _ _ _ _ |- _ => inversion H; clear H; subst
  | H : matches (Re.Chr _) _ _ _ _ |- _ => inversion H; clear H; subst
  | H : matches (Re.Star _) _ _ _ _ |- _ => inversion H; clear H; subst
  | H : matches (Re.Plus _) _ _ _ _ |- _ => inversion H; clear H; subst
  | H : matches (Re.LazyStar _) _ _ _ _ |- _ => inversion H; clear H; subst
  | H : matches (Re.Group _ _) _ _ _ _ |- _ => inversion H; clear H; subst
  | H : matches (Re.Opt _) _ _ _ _ |- _ => inversion H; clear H; subst
  | H : matches (Re.Alt _ _) _ _ _ _ |- _ => inversion H; clear H; subst
  | H : matches (Re.Ahead _) _ _ _ _ |- _ => inversion H; clear H; subst
  end.

Lemma firstn_app_minus (A : Type) (g r : list A) :
  firstn (length (g ++ r) - length r) (g ++ r) = g.
Proof.
  rewrite length_app, Nat.add_sub, firstn_app, Nat.sub_diag, firstn_all; simpl.
  apply app_nil_r.
Qed.

(** The shape of a citation marker: [\cite], an optional bracket, and the
    braced keys, which are group 1. *)
Lemma cite_match_shape (t rest : text) (c : Re.caps) :
  matches cite_pattern t [] rest c ->
  exists opt g,
    t = txt "\cite" ++ opt ++ txt "{" ++ g ++ txt "}" ++ rest
    /\ g <> [] /\ Forall (fun x => not_char rbrace x = true) g
    /\ c = [(1, g)].
Proof.
  unfold cite_pattern; intros H; inv_matches; rewrite firstn_app_minus.
  - exists (txt "[" ++ pre0 ++ txt "]"), pre.
    split; [now rewrite <- !app_assoc | auto].
  - exists [], pre; auto.
Qed.

Lemma split_length (sep : char) (s : text) : length (split sep s) <= S (length s).
Proof.
  induction s as [|c s IH]; simpl; [lia|].
  destruct (c =? sep)%N; simpl; [lia|].
  destruct (split sep s); simpl in *; lia.
Qed.

(** A marker is longer than the number of keys it holds. *)
Lemma cite_match_span (tex_content : text) (m : Re.Match) :
  In m (Re.finditer cite_pattern tex_content) ->
  Re.m_start m + length (split comma (Re.group 1 m)) < Re.m_end m.
Proof.
  intros H; apply finditer_In in H; destruct H as (rest & _ & M & E).
  apply match_at_sound, cite_match_shape in M.
  destruct M as (opt & g & T & _ & _ & C).
  unfold Re.group; rewrite C; simpl Re.lookup.
  rewrite E, T, !length_app, Nat.add_sub_assoc by lia.
  pose proof (split_length comma g).
  change (length (txt "\cite")) with 5; change (length (txt "{")) with 1;
    change (length (txt "}")) with 1; lia.
Qed.

Lemma StronglySorted_app (A : Type) (R : A -> A -> Prop) (l1 l2 : list A) :
  StronglySorted R l1 -> StronglySorted R l2 ->
  (forall a b, In a l1 -> In b l2 -> R a b) ->
  StronglySorted R (l1 ++ l2).
Proof.
  induction 1 as [|x l1 S1 IH F]; intros S2 H; simpl; [assumption|].
  constructor.
  - apply IH; [assumption | intros; apply H; simpl; auto].
  - apply Forall_app; split; [assumption|].
    apply Forall_forall; intros b Hb; apply H; simpl; auto.
Qed.

Lemma StronglySorted_flat_map (A B : Type) (R' : A -> A -> Prop) (R : B -> B -> Prop)
    (f : A -> list B) (ms : list A) :
  StronglySorted R' ms ->
  (forall m, In m ms -> StronglySorted R (f m)) ->
  (forall m1 m2, In m1 ms -> In m2 ms -> R' m1 m2 ->
     forall a b, In a (f m1) -> In b (f m2) -> R a b) ->
  StronglySorted R (flat_map f ms).
Proof.
  induction 1 as [|m ms S1 IH F]; intros H1 H2; simpl; [constructor|].
  apply StronglySorted_app.
  - apply H1; now left.
  - apply IH; [intros; apply H1; now right|].
    intros m1 m2 I1 I2; apply H2; now right.
  - intros a b Ha Hb; apply in_flat_map in Hb; destruct Hb as (m2 & I2 & Hb).
    rewrite Forall_forall in F.
    apply (H2 m m2); simpl; auto.
Qed.

Lemma StronglySorted_map (A B : Type) (R : B -> B -> Prop) (f : A -> B) (l : list A) :
  StronglySorted (fun a b => R (f a) (f b)) l -> StronglySorted R (map f l).
Proof.
  induction 1 as [|x l S1 IH F]; simpl; constructor; [assumption|].
  apply Forall_map; exact F.
Qed.

Lemma StronglySorted_weaken (A : Type) (R R' : A -> A -> Prop) (l : list A) :
  (forall a b, In a l -> In b l -> R a b -> R' a b) ->
  StronglySorted R l -> StronglySorted R' l.
Proof.
  intros H S1; induction S1 as [|x l S1 IH F]; constructor.
  - apply IH; intros; apply H; simpl; auto.
  - rewrite Forall_forall in *; intros y Hy; apply H; simpl; auto.
Qed.

Lemma StronglySorted_first_occs (R : Occurrence -> Occurrence -> Prop)
    (os : list Occurrence) :
  StronglySorted R os -> forall seen, StronglySorted R (first_occs seen os).
Proof.
  induction 1 as [|o os S1 IH F]; intros seen; simpl; [constructor|].
  destruct (in_set (occ_key o) seen); [apply IH|].
  constructor; [apply IH|].
  rewrite Forall_forall in *; intros y Hy; apply F.
  eapply first_occs_incl; eauto.
Qed.

Lemma enumerate_In_range (A : Type) (l : list A) :
  forall start i x, In (i, x) (enumerate start l) -> start <= i < start + length l.
Proof.
  induction l as [|y l IH]; intros start i x H; [destruct H|].
  rewrite enumerate_cons in H; destruct H as [H|H].
  - injection H as <- _; simpl; lia.
  - apply IH in H; simpl; lia.
Qed.

Lemma enumerate_sorted (A : Type) (l : list A) :
  forall start, StronglySorted (fun a b => fst a < fst b) (enumerate start l).
Proof.
  induction l as [|y l IH]; intros start; [constructor|].
  rewrite enumerate_cons; constructor; [apply IH|].
  apply Forall_forall; intros [i x] H; apply enumerate_In_range in H; simpl; lia.
Qed.

(** ** Numeric positions *)

Lemma numbered_Qeq (o : Occurrence) :
  numbered o -> (occ_q o == offset_position (occ_pos o) (occ_sub o))%Q.
Proof.
  intros [->|[E ->]]; [reflexivity|].
  rewrite E; unfold offset_position, int_position, Qeq; simpl; lia.
Qed.

(** The numeric positions order the occurrences as the pairs do. *)
Lemma numbered_Qlt (a b : Occurrence) :
  numbered a -> numbered b ->
  1000 * occ_pos a + occ_sub a < 1000 * occ_pos b + occ_sub b ->
  (occ_q a < occ_q b)%Q.
Proof.
  intros [Ea|[Sa Ea]] [Eb|[Sb Eb]] H; rewrite Ea, Eb;
    unfold offset_position, int_position, Qlt; simpl; lia.
Qed.

Lemma match_occurrences_In (m : Re.Match) (o : Occurrence) :
  In o (match_occurrences m) ->
  occ_pos o = Re.m_start m
  /\ occ_sub o < length (split comma (Re.group 1 m))
  /\ numbered o.
Proof.
  unfold match_occurrences; destruct (contains comma (Re.group 1 m)).
  - intros H; apply in_map_iff in H; destruct H as ([i k] & <- & H).
    apply enumerate_In_range in H; rewrite length_map in H; simpl.
    repeat split; [lia | now left].
  - intros [<-|[]]; simpl; repeat split.
    + pose proof (@split_not_nil comma (Re.group 1 m)).
      destruct (split comma (Re.group 1 m)); [congruence | simpl; lia].
    + right; auto.
Qed.

Lemma match_occurrences_sorted (m : Re.Match) :
  StronglySorted occ_lt (match_occurrences m).
Proof.
  unfold match_occurrences; destruct (contains comma (Re.group 1 m));
    [|repeat constructor].
  apply StronglySorted_map.
  eapply StronglySorted_weaken; [|apply enumerate_sorted].
  intros [i x] [j y] _ _ H; simpl in H; unfold occ_lt, lex_lt; simpl; split; [lia|].
  match goal with
  | |- (occ_q ?a < occ_q ?b)%Q =>
      apply (@numbered_Qlt a b); simpl; [now left | now left | lia]
  | |- (?qa < ?qb)%Q =>
      apply (@numbered_Qlt
               {| occ_pos := Re.m_start m; occ_sub := i; occ_q := qa; occ_key := strip x |}
               {| occ_pos := Re.m_start m; occ_sub := j; occ_q := qb; occ_key := strip y |});
        simpl; [now left | now left | lia]
  end.
Qed.

(** In scan order the occurrences of a document are strictly increasing,
    both as pairs (position, sub-index) and as numeric positions. *)
Lemma occurrences_sorted (tex_content : text) :
  StronglySorted occ_lt (occurrences tex_content).
Proof.
  unfold occurrences.
  apply StronglySorted_flat_map with (R' := before);
    [apply finditer_sorted | intros; apply match_occurrences_sorted|].
  intros m1 m2 I1 _ [B1 B2] a b Ha Hb.
  pose proof (cite_match_span _ _ I1) as Sp.
  apply match_occurrences_In in Ha, Hb.
  destruct Ha as (Pa & Sa & Na), Hb as (Pb & Sb & Nb).
  unfold occ_lt, lex_lt; simpl; split; [lia|].
  apply numbered_Qlt; auto; lia.
Qed.

(** A list whose keys do not decrease is left as it is by the stable sort. *)
Lemma sorted_already (A : Type) (key : A -> Q) (l : list A) :
  StronglySorted (fun a b => (key a <= key b)%Q) l -> sorted key l = l.
Proof.
  induction 1 as [|x l S1 IH F]; [reflexivity|].
  unfold sorted in *; simpl; rewrite IH.
  destruct l as [|y l]; [reflexivity|]; simpl.
  inversion F as [|? ? Hxy _]; subst.
  apply Qle_bool_iff in Hxy; now rewrite Hxy.
Qed.

Lemma sorted_permutation (A : Type) (key : A -> Q) (l : list A) :
  Permutation (sorted key l) l.
Proof.
  assert (I : forall x l', Permutation (insert_sorted key x l') (x :: l')).
  { intros x l'; induction l' as [|y l' IH]; simpl; [reflexivity|].
    destruct (Qle_bool (key x) (key y)); [reflexivity|].
    rewrite IH; apply perm_swap. }
  induction l as [|x l IH]; [reflexivity|].
  unfold sorted in *; simpl; rewrite I; now constructor.
Qed.

Lemma ordered_citations_firsts (tex_content : text) :
  get_ordered_citations (find_all_citations tex_content)
    = map occ_key (first_occs [] (occurrences tex_content)).
Proof.
  destruct (find_all_citations_tracks tex_content) as [_ C].
  unfold get_ordered_citations; rewrite C, sorted_already.
  - now rewrite map_map.
  - apply StronglySorted_map with (R := fun a b => (snd a <= snd b)%Q) (f := fun o => (occ_key o, occ_q o)).
    apply StronglySorted_first_occs.
    eapply StronglySorted_weaken; [|apply occurrences_sorted].
    intros a b _ _ [_ H]; simpl; now apply Qlt_le_weak.
Qed.

(** C4.  The resolved citation order lists each cited key once, at the
    place of its first occurrence: it is the list of the first occurrences
    of the scanned keys.  In scan order the occurrences are strictly
    increasing for the order on (marker position, sub-index) and their
    numeric positions [position + sub * 0.001] are strictly increasing too,
    so no two occurrences tie, whatever the number of keys of a marker; the
    resolved order is sorted strictly ascending on both. *)
Theorem citation_order_is_first_appearance (tex_content : text) :
  let tr := find_all_citations tex_content in
  let occs := occurrences tex_content in
  let firsts := first_occs [] occs in
  citation_positions tr = map (fun o => (occ_q o, occ_key o)) occs
  /\ citations tr = map (fun o => (occ_key o, occ_q o)) firsts
  /\ get_ordered_citations tr = map occ_key firsts
  /\ get_ordered_citations tr = first_occurrences (map occ_key occs)
  /\ NoDup (get_ordered_citations tr)
  /\ (forall k, In k (get_ordered_citations tr) <-> In k (map occ_key occs))
  /\ (forall o, In o occs ->
        (occ_q o == offset_position (occ_pos o) (occ_sub o))%Q)
  /\ StronglySorted lex_lt (map occ_pair occs)
  /\ StronglySorted Qlt (map occ_q occs)
  /\ StronglySorted lex_lt (map occ_pair firsts)
  /\ StronglySorted Qlt (map occ_q firsts).
Proof.
  intros tr occs firsts.
  pose proof (find_all_citations_tracks tex_content) as [T1 T2].
  pose proof (occurrences_sorted tex_content) as S1.
  pose proof (ordered_citations_firsts tex_content) as O.
  assert (O' : get_ordered_citations tr = first_occurrences (map occ_key occs))
    by (unfold tr; rewrite O; apply first_occs_keys).
  split; [exact T1|]; split; [exact T2|]; split; [exact O|]; split; [exact O'|].
  split; [rewrite O'; apply dedup_NoDup|].
  split; [intros k; rewrite O'; apply first_occurrences_In|].
  split.
  { intros o Ho; apply numbered_Qeq.
    apply in_flat_map in Ho; destruct Ho as (m & _ & Ho).
    now apply match_occurrences_In in Ho. }
  repeat split; apply StronglySorted_map.
  - eapply StronglySorted_weaken; [|exact S1]; now intros a b _ _ [H _].
  - eapply StronglySorted_weaken; [|exact S1]; now intros a b _ _ [_ H].
  - apply StronglySorted_first_occs.
    eapply StronglySorted_weaken; [|exact S1]; now intros a b _ _ [H _].
  - apply StronglySorted_first_occs.
    eapply StronglySorted_weaken; [|exact S1]; now intros a b _ _ [_ H].
Qed.

Example sample_occurrences :
  map (fun o => (occ_pos o, occ_sub o, occ_key o)) (occurrences sample_doc)
  = [(4, 0, txt "b"); (17, 0, txt "a"); (17, 1, txt "b");
     (40, 0, txt "c"); (40, 1, []); (40, 2, txt "d")].
Proof. vm_compute; reflexivity. Qed.

(** * Empty keys *)

Lemma enumerate_map_nth (l : list text) (i : nat) (c : text) :
  nth_error l i = Some c -> In (i, strip c) (enumerate 0 (map strip l)).
Proof.
  intros H; apply (enumerate_nth (map strip l) 0 i).
  now rewrite nth_error_map, H.
Qed.

Lemma strip_nil : strip [] = [].
Proof. reflexivity. Qed.

(** * The keys of the block *)

Lemma add_entry_keys (ms : list Re.Match) :
  forall d : Dict.t text,
    Dict.keys (fold_left add_entry ms d)
    = Dict.keys d ++ dedup (Dict.keys d) (map (fun m => strip (Re.group 1 m)) ms).
Proof.
  induction ms as [|m ms IH]; intros d; simpl; [now rewrite app_nil_r|].
  rewrite IH.
  assert (K : Dict.keys (add_entry d m)
              = if in_set (strip (Re.group 1 m)) (Dict.keys d) then Dict.keys d
                else Dict.keys d ++ [strip (Re.group 1 m)])
    by (unfold add_entry; now rewrite dict_keys_set, dict_mem_in_set).
  rewrite K; clear K.
  destruct (in_set (strip (Re.group 1 m)) (Dict.keys d)) eqn:E; [reflexivity|].
  rewrite <- app_assoc; simpl; do 2 f_equal.
  apply dedup_ext; intros x; rewrite in_app_iff; simpl; tauto.
Qed.

(** The keys of the parsed mapping are the keys of the block, each at its
    first declaration. *)
Lemma extract_keys (tex_content : text) (entries : Dict.t text)
    (bounds : nat * nat) (opening_line : text) :
  fst (extract_bibliography_entries tex_content) = Some (entries, bounds, opening_line) ->
  Dict.keys entries = first_occurrences (block_keys tex_content).
Proof.
  unfold extract_bibliography_entries, block_keys.
  destruct (Re.search begin_pattern tex_content) as [mb|]; [|discriminate].
  destruct (Re.search end_pattern tex_content) as [me|]; [|discriminate].
  simpl; intros H; injection H as <- _ _.
  now rewrite add_entry_keys.
Qed.

Lemma ordered_citations_NoDup (tex_content : text) :
  NoDup (get_ordered_citations (find_all_citations tex_content)).
Proof.
  rewrite ordered_citations_firsts, first_occs_keys; apply dedup_NoDup.
Qed.

(** C1 (amended).  When the block has at least one entry, the entries that
    the reconciler serializes after the opening line hold every distinct key
    of the input block exactly once: they are the entries of a list of keys
    that has no duplicate and is a permutation of the distinct keys of the
    input block (of all its keys, when no key is declared twice).  A key
    declared several times in the input block is one entry of the mapping
    and is serialized once. *)
Theorem block_keys_preserved (tex_content : text) (entries : Dict.t text)
    (bounds : nat * nat) (opening_line : text) :
  fst (extract_bibliography_entries tex_content) = Some (entries, bounds, opening_line) ->
  entries <> [] ->
  let order := get_ordered_citations (find_all_citations tex_content) in
  let keys := output_keys order entries in
  fst (create_reordered_bibliography order entries opening_line)
    = Some (serialize opening_line (map (entry_of entries) keys))
  /\ reordered_entries (reorder order entries) = map (entry_of entries) keys
  /\ NoDup keys
  /\ Permutation keys (first_occurrences (block_keys tex_content))
  /\ (NoDup (block_keys tex_content) -> Permutation keys (block_keys tex_content)).
Proof.
  intros E N order keys.
  pose proof (extract_keys _ E) as K.
  assert (N1 : NoDup order) by apply ordered_citations_NoDup.
  assert (N2 : NoDup (Dict.keys entries)) by (rewrite K; apply dedup_NoDup).
  split; [now rewrite (create_some order opening_line N)|].
  split; [apply reorder_entries|].
  split; [now apply output_keys_NoDup|].
  split; [rewrite <- K; now apply output_keys_Permutation|].
  intros D; unfold first_occurrences in K; rewrite dedup_NoDup_id in K; auto.
  rewrite <- K; now apply output_keys_Permutation.
Qed.

(** Witness of C1: the sample document. *)
Lemma block_keys_preserved_witness :
  fst (extract_bibliography_entries sample_doc)
    = Some (sample_entries, (53, 160), sample_opening)
  /\ sample_entries <> []
  /\ let order := get_ordered_citations (find_all_citations sample_doc) in
     let keys := output_keys order sample_entries in
     fst (create_reordered_bibliography order sample_entries sample_opening)
       = Some (serialize sample_opening (map (entry_of sample_entries) keys))
     /\ reordered_entries (reorder order sample_entries) = map (entry_of sample_entries) keys
     /\ NoDup keys
     /\ Permutation keys (first_occurrences (block_keys sample_doc))
     /\ (NoDup (block_keys sample_doc) -> Permutation keys (block_keys sample_doc)).
Proof.
  assert (E : fst (extract_bibliography_entries sample_doc)
              = Some (sample_entries, (53, 160), sample_opening))
    by (vm_compute; reflexivity).
  assert (N : sample_entries <> []) by discriminate.
  split; [exact E|]; split; [exact N|].
  exact (block_keys_preserved sample_doc E N).
Defined.

(** Counterexample to C1: the key [a] is declared twice in the input block
    and once in the output block. *)
Lemma duplicate_key_is_merged :
  let run := reorder_latex_bibliography (single_file sample_path duplicate_key_doc)
               sample_path None in
  fst (fst run) = true
  /\ block_keys duplicate_key_doc = [txt "a"; txt "a"; txt "b"]
  /\ exists out,
       fs_read (snd (fst run)) (default_output_file sample_path) = Some out
       /\ block_keys out = [txt "a"; txt "b"]
       /\ ~ Permutation (block_keys out) (block_keys duplicate_key_doc).
Proof.
  cbv zeta; split; [vm_compute; reflexivity|]; split; [vm_compute; reflexivity|].
  eexists; split; [vm_compute; reflexivity|]; split; [vm_compute; reflexivity|].
  intros P; apply Permutation_length in P; vm_compute in P; discriminate.
Qed.

(** * The default output path *)

Lemma starts_with_shorter (t x : text) (y : char) :
  length t <= length x -> starts_with t (x ++ [y]) = true -> starts_with t x = true.
Proof.
  revert x; induction t as [|a t IH]; intros [|b x] L H; simpl in *;
    try reflexivity; try lia.
  apply andb_true_iff in H; destruct H as [H1 H2].
  rewrite H1; simpl; apply IH; [lia | assumption].
Qed.

Lemma occursb_cons (t s : text) (c : char) :
  occursb t (c :: s) = starts_with t (c :: s) || occursb t s.
Proof. reflexivity. Qed.

Lemma starts_with_refl (t : text) : starts_with t t = true.
Proof. induction t as [|a t IH]; simpl; [reflexivity|]; now rewrite N.eqb_refl. Qed.

Lemma replace_from_skip_all (old new s : text) (n : nat) :
  length s <= n -> replace_from old new n s = [].
Proof.
  revert n; induction s as [|c s IH]; intros n L; [reflexivity|].
  destruct n as [|n]; simpl in *; [lia|]; apply IH; lia.
Qed.

(** Replacing [pre ++ [y]] in a text that ends with it and has no earlier
    occurrence of it rewrites that suffix only. *)
Lemma replace_only_suffix (pre : text) (y : char) (new stem : text) :
  occursb (pre ++ [y]) (stem ++ pre) = false ->
  replace_from (pre ++ [y]) new 0 (stem ++ pre ++ [y]) = stem ++ new.
Proof.
  induction stem as [|c stem IH]; intros H.
  - change ([] ++ pre ++ [y]) with (pre ++ [y]); change ([] ++ new) with new.
    destruct (pre ++ [y]) as [|a old] eqn:E; [now destruct pre|].
    cbn [replace_from]; rewrite starts_with_refl, replace_from_skip_all;
      [apply app_nil_r | simpl; lia].
  - rewrite <- app_comm_cons in H; rewrite occursb_cons in H.
    apply orb_false_iff in H; destruct H as [H1 H2].
    rewrite <- app_comm_cons; cbn [replace_from].
    assert (S : starts_with (pre ++ [y]) (c :: stem ++ pre ++ [y]) = false).
    { destruct (starts_with (pre ++ [y]) (c :: stem ++ pre ++ [y])) eqn:E; [|reflexivity].
      rewrite <- H1; symmetry.
      apply starts_with_shorter with (y := y).
      - simpl; rewrite !length_app; simpl; lia.
      - now rewrite <- app_comm_cons, <- app_assoc. }
    rewrite S; now rewrite (IH H2).
Qed.

Lemma replace_no_occurrence_before (stem : text) :
  occursb (txt ".tex") (stem ++ txt ".te") = false ->
  replace_from (txt ".tex") (txt "_reordered.tex") 0 (stem ++ txt ".tex")
    = stem ++ txt "_reordered.tex".
Proof.
  change (txt ".tex") with (txt ".te" ++ [120%N]); apply replace_only_suffix.
Qed.

(** C9 (amended).  When no output path is given and the input path ends in
    [.tex] with no other occurrence of [.tex], the output path is the input
    path with that trailing [.tex] replaced by [_reordered.tex]; the run
    writes its output there. *)
Theorem default_output_replaces_extension (stem : text) :
  occursb (txt ".tex") (stem ++ txt ".te") = false ->
  default_output_file (stem ++ txt ".tex") = stem ++ txt "_reordered.tex"
  /\ forall fs fs' log,
       reorder_latex_bibliography fs (stem ++ txt ".tex") None = (true, fs', log) ->
       In (Saved (stem ++ txt "_reordered.tex")) log
       /\ exists out, fs_read fs' (stem ++ txt "_reordered.tex") = Some out.
Proof.
  intros H.
  assert (D : default_output_file (stem ++ txt ".tex") = stem ++ txt "_reordered.tex")
    by (apply replace_no_occurrence_before, H).
  split; [exact D|].
  intros fs fs' log R; split.
  - revert R; unfold reorder_latex_bibliography.
    destruct (fs_read fs _) as [content|]; [|discriminate].
    destruct (citations (find_all_citations content)); [discriminate|].
    destruct (extract_bibliography_entries content) as [[[[e [bs be]] o]|] log2];
      [|discriminate].
    destruct (create_reordered_bibliography _ e o) as [[b|] log3]; [|discriminate].
    destruct (fs_write fs _ _); [|discriminate].
    intros R; injection R as _ <-; rewrite D.
    right; apply in_or_app; right; now left.
  - apply reorder_success in R.
    destruct R as (content & e & bs & be & o & b & _ & _ & _ & W).
    rewrite D in W; apply fs_write_read in W; eauto.
Qed.

(** Witness of C9: [paper.tex]. *)
Lemma default_output_replaces_extension_witness :
  occursb (txt ".tex") (txt "paper" ++ txt ".te") = false
  /\ default_output_file (txt "paper" ++ txt ".tex") = txt "paper" ++ txt "_reordered.tex"
  /\ forall fs fs' log,
       reorder_latex_bibliography fs (txt "paper" ++ txt ".tex") None = (true, fs', log) ->
       In (Saved (txt "paper" ++ txt "_reordered.tex")) log
       /\ exists out, fs_read fs' (txt "paper" ++ txt "_reordered.tex") = Some out.
Proof.
  assert (H : occursb (txt ".tex") (txt "paper" ++ txt ".te") = false) by reflexivity.
  split; [exact H|].
  exact (default_output_replaces_extension (txt "paper") H).
Defined.

(** Counterexample to C9: the suffix put in place of [.tex] is
    [_reordered.tex], not [-reordered.tex]; and an occurrence of [.tex]
    that is not the trailing one is rewritten as well. *)
Lemma default_output_not_only_suffix :
  default_output_file (txt "paper.tex") = txt "paper_reordered.tex"
  /\ default_output_file (txt "paper.tex") <> txt "paper-reordered.tex"
  /\ default_output_file (txt "a.tex.d/paper.tex")
       = txt "a_reordered.tex.d/paper_reordered.tex"
  /\ starts_with (txt "a.tex.d/paper") (default_output_file (txt "a.tex.d/paper.tex"))
       = false.
Proof.
  vm_compute; repeat split; discriminate.
Qed.

(** A path without [.tex] gives the input path itself. *)
Example default_output_without_extension :
  default_output_file (txt "paper.latex") = txt "paper.latex".
Proof. reflexivity. Qed.

(** * The clean-up of an entry body *)

(** ** strip *)

Lemma lstrip_head (s : text) :
  lstrip s = [] \/ exists c s', lstrip s = c :: s' /\ isspace c = false.
Proof.
  induction s as [|c s IH]; simpl; [now left|].
  destruct (isspace c) eqn:E; [assumption | right; eauto].
Qed.

Lemma lstrip_suffix (s : text) : exists w, s = w ++ lstrip s.
Proof.
  induction s as [|c s [w IH]]; simpl; [now exists []|].
  destruct (isspace c); [exists (c :: w); simpl; now f_equal | now exists []].
Qed.

Lemma lstrip_id (c : char) (s : text) : isspace c = false -> lstrip (c :: s) = c :: s.
Proof. intros H; simpl; now rewrite H. Qed.

Lemma strip_is_trimmed (s : text) : trimmed (strip s).
Proof.
  unfold strip, rstrip.
  destruct (lstrip_head (rev (lstrip s))) as [E|(c & u & E & Hc)]; rewrite E;
    [now left|].
  right; split; [|exists (rev u), c; simpl; auto].
  destruct (lstrip_suffix (rev (lstrip s))) as [w W]; rewrite E in W.
  apply (f_equal (@rev char)) in W; rewrite rev_involutive, rev_app_distr in W.
  destruct (lstrip_head s) as [N|(d & t & D & Hd)].
  - rewrite N in W; symmetry in W; apply app_eq_nil in W; destruct W as [W _].
    simpl in W; now apply app_eq_nil in W.
  - rewrite D in W; destruct (rev (c :: u)) as [|x y] eqn:R.
    + simpl in R; now apply app_eq_nil in R.
    + simpl in W; injection W as <- _; eauto.
Qed.

Lemma trimmed_strip (s : text) : trimmed s -> strip s = s.
Proof.
  intros [->|[(c & s' & -> & Hc) (t & d & E & Hd)]]; [reflexivity|].
  unfold strip, rstrip; rewrite (@lstrip_id c s' Hc), E, rev_app_distr; simpl.
  rewrite Hd; simpl; now rewrite rev_involutive.
Qed.

(** ** The matches of [\n\s*\n+] *)

Lemma blank_tail_nl (t : text) : blank_tail (nl :: t) <> None.
Proof.
  simpl; change (isspace nl) with true; cbv iota.
  destruct (blank_tail t); discriminate.
Qed.

Lemma not_space_not_nl (c : char) : isspace c = false -> is_char nl c = false.
Proof.
  intros H; unfold is_char; destruct (N.eqb_spec nl c) as [<-|]; [discriminate | reflexivity].
Qed.

Lemma star_newlines_stop (s : text) :
  blank_tail s = None ->
  Re.star (is_char nl) (fun s3 => Some (s3, [])) s = Some (s, @nil (nat * text)).
Proof.
  destruct s as [|d s]; intros H; [reflexivity|]; cbn [Re.star].
  destruct (is_char nl d) eqn:E; [|reflexivity].
  apply N.eqb_eq in E; subst d; now apply blank_tail_nl in H.
Qed.

Lemma star_blank_tail (s : text) :
  Re.star isspace
    (fun s' => match s' with
               | ch :: s'' =>
                   if is_char nl ch
                   then Re.star (is_char nl) (fun s3 => Some (s3, [])) s''
                   else None
               | [] => None
               end) s
  = option_map (fun r => (r, [])) (blank_tail s).
Proof.
  induction s as [|c s IH]; [reflexivity|].
  cbn [Re.star blank_tail]; destruct (isspace c) eqn:Sp.
  - rewrite IH; destruct (blank_tail s) eqn:B; [reflexivity|].
    cbn [option_map]; cbv beta iota.
    replace (is_char nl c) with (c =? nl)%N by apply N.eqb_sym.
    destruct (c =? nl)%N; [now rewrite star_newlines_stop | reflexivity].
  - cbv beta iota; now rewrite (not_space_not_nl _ Sp).
Qed.

(** A match of the pattern starts at a line break and ends after the last
    line break of the whitespace that follows. *)
Lemma match_at_blank (c : char) (s : text) :
  Re.match_at blank_pattern (c :: s)
  = if (c =? nl)%N then option_map (fun r => (r, [])) (blank_tail s) else None.
Proof.
  unfold Re.match_at, blank_pattern; cbn [Re.run].
  replace (is_char nl c) with (c =? nl)%N by apply N.eqb_sym.
  destruct (c =? nl)%N; [apply star_blank_tail | reflexivity].
Qed.

Lemma match_at_blank_nil : Re.match_at blank_pattern [] = None.
Proof. reflexivity. Qed.

(** What is left after a match is a proper suffix. *)
Lemma blank_tail_suffix (s r : text) :
  blank_tail s = Some r -> exists pre, s = pre ++ r /\ pre <> [].
Proof.
  revert r; induction s as [|c s IH]; intros r; simpl; [discriminate|].
  destruct (isspace c); [|discriminate].
  destruct (blank_tail s) as [r'|] eqn:B.
  - intros H; injection H as <-; destruct (IH _ eq_refl) as (pre & -> & _).
    exists (c :: pre); split; [reflexivity | discriminate].
  - destruct (c =? nl)%N; [|discriminate].
    intros H; injection H as <-; exists [c]; split; [reflexivity | discriminate].
Qed.

Lemma sub_from_skip (r : Re.regex) (repl pre rest : text) :
  Re.sub_from r repl (length pre) (pre ++ rest)
  = match pre with [] => Re.sub_from r repl 0 rest | _ :: _ => Re.sub_from r repl 0 rest end.
Proof.
  induction pre as [|c pre IH]; [reflexivity|]; simpl.
  rewrite IH; now destruct pre.
Qed.

(** One step of [re.sub] with the pattern, at a line break. *)
Lemma sub_blank_at_newline (s : text) :
  Re.sub_from blank_pattern [nl] 0 (nl :: s)
  = nl :: Re.sub_from blank_pattern [nl] 0
             (match blank_tail s with Some r => r | None => s end).
Proof.
  cbn [Re.sub_from]; rewrite match_at_blank; change (nl =? nl)%N with true; cbv iota.
  destruct (blank_tail s) as [r|] eqn:B; [|reflexivity]; cbn [option_map].
  destruct (blank_tail_suffix _ B) as (pre & -> & N).
  replace (length (nl :: pre ++ r) - length r) with (S (length pre))
    by (cbn [length]; rewrite length_app; lia).
  rewrite sub_from_skip; now destruct pre.
Qed.

(** Inside a line nothing matches. *)
Lemma sub_blank_line (l rest : text) :
  ~ In nl l ->
  Re.sub_from blank_pattern [nl] 0 (l ++ rest)
  = l ++ Re.sub_from blank_pattern [nl] 0 rest.
Proof.
  induction l as [|c l IH]; intros H; [reflexivity|].
  rewrite <- !app_comm_cons; cbn [Re.sub_from]; rewrite match_at_blank.
  destruct (N.eqb_spec c nl) as [->|_]; [exfalso; apply H; now left|].
  f_equal; apply IH; intros ?; apply H; now right.
Qed.

(** ** Lines *)

Lemma join_cons2 (sep a b : text) (l : list text) :
  join sep (a :: b :: l) = a ++ sep ++ join sep (b :: l).
Proof. reflexivity. Qed.

Lemma join_lines_cons2 (a b : text) (l : list text) :
  join [nl] (a :: b :: l) = a ++ nl :: join [nl] (b :: l).
Proof. reflexivity. Qed.

Lemma join_cons_tail (a : text) (l : list text) :
  join [nl] (a :: l) = a ++ match l with [] => [] | _ :: _ => nl :: join [nl] l end.
Proof. destruct l; [now rewrite app_nil_r | reflexivity]. Qed.

Lemma join_cons_head (sep : text) (c : char) (h : text) (t : list text) :
  join sep ((c :: h) :: t) = c :: join sep (h :: t).
Proof. destruct t; reflexivity. Qed.

Lemma join_split (s : text) : join [nl] (split nl s) = s.
Proof.
  induction s as [|c s IH]; [reflexivity|]; cbn [split].
  destruct (split nl s) as [|h t] eqn:S; [now apply split_not_nil in S|].
  destruct (N.eqb_spec c nl) as [->|N].
  - now rewrite join_lines_cons2, IH.
  - now rewrite join_cons_head, IH.
Qed.

Lemma split_nl_free (s : text) : Forall (fun l => ~ In nl l) (split nl s).
Proof.
  induction s as [|c s IH]; simpl; [repeat constructor; auto|].
  destruct (N.eqb_spec c nl) as [->|N]; [constructor; auto|].
  destruct (split nl s) as [|h t]; [repeat constructor; simpl; intuition|].
  inversion IH; subst; constructor; [simpl; intuition | assumption].
Qed.

Lemma split_line (x t : text) :
  ~ In nl x -> split nl (x ++ nl :: t) = x :: split nl t.
Proof.
  induction x as [|c x IH]; intros H; simpl; [reflexivity|].
  destruct (N.eqb_spec c nl) as [->|N]; [exfalso; apply H; now left|].
  rewrite IH by (intros ?; apply H; now right); reflexivity.
Qed.

Lemma split_one_line (x : text) : ~ In nl x -> split nl x = [x].
Proof.
  induction x as [|c x IH]; intros H; simpl; [reflexivity|].
  destruct (N.eqb_spec c nl) as [->|N]; [exfalso; apply H; now left|].
  rewrite IH by (intros ?; apply H; now right); reflexivity.
Qed.

Lemma split_join (M : list text) :
  Forall (fun l => ~ In nl l) M -> M <> [] -> split nl (join [nl] M) = M.
Proof.
  induction M as [|x M IH]; intros F N; [congruence|].
  inversion F; subst; destruct M as [|y M]; [now apply split_one_line|].
  rewrite join_lines_cons2, split_line by assumption.
  f_equal; apply IH; [assumption | discriminate].
Qed.

(** ** Blank lines after a line break *)

Lemma blank_tail_nonblank (x t : text) :
  ~ In nl x -> blank_line x = false -> blank_tail (x ++ t) = None.
Proof.
  induction x as [|c x IH]; intros N B; [discriminate|]; simpl in *.
  destruct (isspace c); [|reflexivity]; simpl in B.
  rewrite IH by auto.
  destruct (N.eqb_spec c nl) as [->|]; [exfalso; auto | reflexivity].
Qed.

Lemma blank_tail_blank (b t : text) :
  blank_line b = true ->
  blank_tail (b ++ nl :: t)
  = Some (match blank_tail t with Some r => r | None => t end).
Proof.
  induction b as [|c b IH]; intros B.
  - cbn [app blank_tail]; change (isspace nl) with true; cbv iota.
    change (nl =? nl)%N with true; now destruct (blank_tail t).
  - simpl in B; apply andb_true_iff in B; destruct B as [B1 B2].
    rewrite <- app_comm_cons; cbn [blank_tail]; now rewrite B1, (IH B2).
Qed.

Lemma skip_blank_head (L : list text) :
  skip_blank L = [] \/ exists x tl, skip_blank L = x :: tl /\ blank_line x = false.
Proof.
  induction L as [|b L IH]; simpl; [now left|].
  destruct (blank_line b) eqn:B; [assumption | right; eauto].
Qed.

Lemma skip_blank_idem (L : list text) : skip_blank (skip_blank L) = skip_blank L.
Proof.
  destruct (skip_blank_head L) as [->|(x & tl & -> & B)]; [reflexivity|].
  simpl; now rewrite B.
Qed.

Lemma skip_blank_length (L : list text) : length (skip_blank L) <= length L.
Proof.
  induction L as [|b L IH]; simpl; [lia|]; destruct (blank_line b); simpl; lia.
Qed.

Lemma skip_blank_Forall (P : text -> Prop) (L : list text) :
  Forall P L -> Forall P (skip_blank L).
Proof.
  induction 1 as [|b L Hb F IH]; simpl; [constructor|].
  destruct (blank_line b); [assumption | now constructor].
Qed.

Lemma filter_skip_blank (L : list text) :
  filter (fun l => negb (blank_line l)) (skip_blank L)
  = filter (fun l => negb (blank_line l)) L.
Proof.
  induction L as [|b L IH]; simpl; [reflexivity|].
  destruct (blank_line b) eqn:B; simpl; [assumption | now rewrite B].
Qed.

Lemma skip_blank_nil_blank (L : list text) :
  skip_blank L = [] -> forallb isspace (join [nl] L) = true.
Proof.
  induction L as [|b L IH]; cbn [skip_blank]; [reflexivity|].
  destruct (blank_line b) eqn:B; [|discriminate]; intros H.
  rewrite join_cons_tail, forallb_app; unfold blank_line in B; rewrite B; simpl.
  destruct L; [reflexivity|]; simpl; now apply IH.
Qed.

Lemma join_skip_blank (L : list text) :
  skip_blank L <> [] -> exists pre, join [nl] L = pre ++ join [nl] (skip_blank L).
Proof.
  induction L as [|b L IH]; cbn [skip_blank]; [congruence|].
  destruct (blank_line b); [|now exists []].
  intros H; destruct (IH H) as [pre E].
  destruct L as [|c L]; [now simpl in H|].
  rewrite join_lines_cons2, E; exists (b ++ nl :: pre).
  now rewrite <- app_assoc, <- app_comm_cons.
Qed.

(** After a line break, the pattern takes the blank lines that follow. *)
Lemma blank_tail_join (L : list text) :
  Forall (fun l => ~ In nl l) L ->
  skip_blank L <> [] ->
  match blank_tail (join [nl] L) with Some r => r | None => join [nl] L end
  = join [nl] (skip_blank L).
Proof.
  induction 1 as [|b L Hb F IH]; cbn [skip_blank]; [congruence|].
  destruct (blank_line b) eqn:B.
  - intros H; destruct L as [|c L]; [now simpl in H|].
    rewrite join_lines_cons2.
    pose proof (@blank_tail_blank b (join [nl] (c :: L)) B) as Q.
    unfold text in *; rewrite Q; now apply IH.
  - intros _; rewrite join_cons_tail at 1.
    now rewrite (@blank_tail_nonblank b _ Hb B).
Qed.

Lemma ends_ok_suffix (pre t : text) : ends_ok (pre ++ t) -> t <> [] -> ends_ok t.
Proof.
  intros [E|(u & d & E & Hd)] N; [apply app_eq_nil in E; tauto|].
  destruct (exists_last N) as (t' & e & ->).
  rewrite app_assoc in E; apply app_inj_tail in E; destruct E as [_ ->].
  right; eauto.
Qed.

Lemma ends_ok_app (pre t : text) : ends_ok t -> t <> [] -> ends_ok (pre ++ t).
Proof.
  intros [E|(u & d & -> & Hd)] N; [contradiction|].
  right; exists (pre ++ u), d; now rewrite app_assoc.
Qed.

Lemma ends_ok_not_blank (t : text) : ends_ok t -> t <> [] -> forallb isspace t = false.
Proof.
  intros [E|(u & d & -> & Hd)] N; [contradiction|].
  rewrite forallb_app; simpl; rewrite Hd; apply andb_false_iff; right; reflexivity.
Qed.

Lemma nonblank_not_nil (x : text) : blank_line x = false -> x <> [].
Proof. intros H ->; discriminate. Qed.

Lemma join_head_not_nil (x : text) (tl : list text) :
  x <> [] -> join [nl] (x :: tl) <> [].
Proof.
  intros N E; rewrite join_cons_tail in E; apply app_eq_nil in E; tauto.
Qed.

Lemma sub_blank_nil : Re.sub_from blank_pattern [nl] 0 [] = [].
Proof. reflexivity. Qed.

(** On lines that start and end with a line that is not blank, [re.sub]
    with the pattern removes the blank lines. *)
Lemma sub_lines (n : nat) :
  forall L : list text,
    length L <= n ->
    Forall (fun l => ~ In nl l) L ->
    skip_blank L = L ->
    ends_ok (join [nl] L) ->
    Re.sub_from blank_pattern [nl] 0 (join [nl] L)
      = join [nl] (filter (fun l => negb (blank_line l)) L)
    /\ ends_ok (join [nl] (filter (fun l => negb (blank_line l)) L)).
Proof.
  induction n as [|n IH]; intros L Hlen F Hfirst Hend.
  - destruct L; [split; [reflexivity | now left] | simpl in Hlen; lia].
  - destruct L as [|l0 L']; [split; [reflexivity | now left]|].
    assert (B0 : blank_line l0 = false).
    { destruct (blank_line l0) eqn:B; [|reflexivity].
      cbn [skip_blank] in Hfirst; rewrite B in Hfirst.
      pose proof (skip_blank_length L') as Q; rewrite Hfirst in Q; simpl in Q; lia. }
    inversion F as [|? ? Hl0 F']; subst.
    cbn [filter]; rewrite B0; cbn [negb].
    destruct L' as [|l1 L''].
    + cbn [filter join] in *; split; [|assumption].
      rewrite <- (app_nil_r l0) at 1.
      rewrite sub_blank_line, sub_blank_nil by assumption; apply app_nil_r.
    + set (L' := l1 :: L'') in *.
      assert (J : join [nl] (l0 :: L') = l0 ++ nl :: join [nl] L') by reflexivity.
      clearbody L'; rewrite J in *.
      assert (E1 : ends_ok (nl :: join [nl] L'))
        by (apply (ends_ok_suffix l0); [assumption | discriminate]).
      assert (S1 : skip_blank L' <> []).
      { intros S0; apply skip_blank_nil_blank in S0.
        apply ends_ok_not_blank in E1; [|discriminate].
        cbn [forallb] in E1; unfold text in *; rewrite S0 in E1.
        change (isspace nl) with true in E1; discriminate. }
      destruct (skip_blank_head L') as [S0|(x & tl & Sx & Bx)]; [contradiction|].
      assert (Nx : join [nl] (skip_blank L') <> [])
        by (rewrite Sx; apply join_head_not_nil, nonblank_not_nil, Bx).
      assert (E2 : ends_ok (join [nl] (skip_blank L'))).
      { destruct (@join_skip_blank L' S1) as [pre P].
        apply (ends_ok_suffix (nl :: pre)); [|assumption].
        rewrite <- app_comm_cons; unfold text in *; now rewrite <- P. }
      destruct (IH (skip_blank L')) as [I1 I2];
        [pose proof (skip_blank_length L'); simpl in Hlen; lia
        | now apply skip_blank_Forall | apply skip_blank_idem | assumption |].
      rewrite filter_skip_blank in I1, I2.
      assert (M : exists y M', filter (fun l => negb (blank_line l)) L' = y :: M'
                               /\ blank_line y = false).
      { rewrite <- filter_skip_blank, Sx; simpl; rewrite Bx; simpl; eauto. }
      destruct M as (y & M' & My & By).
      unfold text in *; rewrite My in *.
      rewrite join_lines_cons2; split.
      * rewrite sub_blank_line, sub_blank_at_newline by assumption.
        rewrite (@blank_tail_join L' F' S1); unfold text in *; now rewrite I1.
      * apply ends_ok_app.
        -- apply (ends_ok_app [nl]) in I2; [exact I2|].
           apply join_head_not_nil, nonblank_not_nil, By.
        -- discriminate.
Qed.

Lemma Forall_filter_lines (P : text -> Prop) (f : text -> bool) (L : list text) :
  Forall P L -> Forall P (filter f L).
Proof.
  induction 1 as [|x L Hx F IH]; simpl; [constructor|].
  destruct (f x); [now constructor | assumption].
Qed.

(** [re.sub] with the pattern on a trimmed text removes its blank lines and
    leaves it trimmed. *)
Lemma sub_blank_trimmed (s : text) :
  trimmed s ->
  Re.sub blank_pattern [nl] s = drop_blank_lines s /\ trimmed (drop_blank_lines s).
Proof.
  intros [->|[(c & s' & E & Hc) Hd]]; [split; [reflexivity | now left]|].
  assert (Hend : ends_ok s) by (right; exact Hd).
  assert (Hs : s <> []) by (rewrite E; discriminate).
  unfold drop_blank_lines, Re.sub.
  pose proof (split_nl_free s) as F.
  pose proof (join_split s) as J.
  assert (H : exists h t, split nl s = (c :: h) :: t).
  { rewrite E; cbn [split].
    destruct (N.eqb_spec c nl) as [->|_]; [discriminate|].
    destruct (split nl s'); eauto. }
  destruct H as (h & t & Sp).
  assert (B : blank_line (c :: h) = false) by (simpl; now rewrite Hc).
  destruct (@sub_lines (length (split nl s)) (split nl s)) as [I1 I2];
    [lia | assumption | rewrite Sp; cbn [skip_blank]; now rewrite B
    | now rewrite J |].
  rewrite J in I1; split; [exact I1|].
  revert I2; rewrite Sp; cbn [filter]; rewrite B; cbn [negb].
  rewrite join_cons_head; intros [N|I2]; [discriminate|].
  right; split; [eauto | exact I2].
Qed.

(** C3 (amended).  The cleaned body is the stripped body without its blank
    (whitespace-only) lines: every run of one or more blank lines is removed
    together with one of the two line breaks around it, so that no blank
    line remains, not even a single one.  The result has no whitespace at
    either end, its lines are the non-blank lines of the stripped body,
    unchanged and in order, and a stripped body without blank line is left
    as it is. *)
Theorem clean_content_removes_blank_lines (body : text) :
  clean_content body = drop_blank_lines (strip body)
  /\ trimmed (clean_content body)
  /\ (clean_content body <> [] ->
      split nl (clean_content body)
        = filter (fun l => negb (blank_line l)) (split nl (strip body)))
  /\ (forallb (fun l => negb (blank_line l)) (split nl (strip body)) = true ->
      clean_content body = strip body).
Proof.
  destruct (sub_blank_trimmed (strip_is_trimmed body)) as [S T].
  assert (E : clean_content body = drop_blank_lines (strip body))
    by (unfold clean_content; rewrite S; now apply trimmed_strip).
  split; [exact E|]; split; [now rewrite E|]; split.
  - rewrite E; unfold drop_blank_lines; intros N.
    apply split_join.
    + apply Forall_filter_lines, split_nl_free.
    + intros Z; apply N; now rewrite Z.
  - intros A; rewrite E; unfold drop_blank_lines.
    rewrite filter_all_true; [apply join_split|].
    now apply forallb_forall.
Qed.

(** Counterexample to C3: a single blank line is removed, and a run of two
    blank lines is removed as well instead of being kept as one. *)
Lemma single_blank_line_is_removed :
  clean_content (lines ["A"; ""; "B"]%string) = lines ["A"; "B"]%string
  /\ clean_content (lines ["A"; ""; "B"]%string) <> lines ["A"; ""; "B"]%string
  /\ clean_content (lines ["A"; ""; ""; "B"]%string) = lines ["A"; "B"]%string
  /\ clean_content (lines ["A"; ""; ""; "B"]%string) <> lines ["A"; ""; "B"]%string.
Proof.
  vm_compute; repeat split; discriminate.
Qed.

Example clean_content_keeps_indentation :
  clean_content (lines ["  A  "; "   "; "   B"; "C  "]%string)
    = lines ["A  "; "   B"; "C"]%string.
Proof. vm_compute; reflexivity. Qed.

(** The opening line is the whole line of the begin marker: an entry that
    starts on that line is copied with it, before the serialized entries. *)
Example opening_line_keeps_first_entry :
  let '(ok, fs, block) := run_in_place (single_file sample_path same_line_doc) in
  ok = true
  /\ block = Some (lines ["\begin{thebibliography}{9}\bibitem{a} A"; "";
                          "\bibitem{a}"; "A"; "";
                          "\bibitem{b}"; "B";
                          "\end{thebibliography}"]%string).
Proof. vm_compute; repeat split. Qed.

(** * Further properties of the code *)

(** ** Literal search *)

Lemma strip_prefix_starts (t s : text) :
  Re.strip_prefix t s = None <-> starts_with t s = false.
Proof.
  revert s; induction t as [|a t IH]; intros [|b s]; simpl; try (split; congruence).
  destruct (a =? b)%N; simpl; [apply IH | tauto].
Qed.

Lemma match_at_literal (t s : text) :
  Re.match_at (Re.Str t) s
  = if starts_with t s then Some (skipn (length t) s, []) else None.
Proof.
  unfold Re.match_at; simpl.
  destruct (Re.strip_prefix t s) as [rest|] eqn:E.
  - pose proof (strip_prefix_sound _ _ E) as ->.
    rewrite starts_with_app, skipn_app, Nat.sub_diag, skipn_all; reflexivity.
  - apply strip_prefix_starts in E; now rewrite E.
Qed.

Lemma starts_with_length (t s : text) : starts_with t s = true -> length t <= length s.
Proof.
  revert s; induction t as [|a t IH]; intros [|b s]; simpl; try lia; try discriminate.
  intros H; apply andb_true_iff in H; destruct H as [_ H]; apply IH in H; lia.
Qed.

(** [re.search] of a literal is [str.find]: the first occurrence. *)
Lemma search_literal_find_from (t s : text) :
  forall pos,
    hd_error (Re.finditer_from (Re.Str t) pos 0 s)
    = option_map (fun i => {| Re.m_start := i; Re.m_end := i + length t; Re.m_caps := [] |})
        (find_from t pos s).
Proof.
  induction s as [|c s IH]; intros pos.
  - cbn [Re.finditer_from find_from]; rewrite match_at_literal.
    destruct (starts_with t []) eqn:E; [|reflexivity].
    destruct t; [|discriminate]; simpl; now rewrite Nat.add_0_r.
  - cbn [Re.finditer_from find_from]; rewrite match_at_literal.
    destruct (starts_with t (c :: s)) eqn:E; [|apply IH].
    cbn [hd_error option_map]; do 2 f_equal.
    apply starts_with_length in E; rewrite length_skipn; lia.
Qed.

Lemma search_literal_find (t s : text) :
  Re.search (Re.Str t) s
  = option_map (fun i => {| Re.m_start := i; Re.m_end := i + length t; Re.m_caps := [] |})
      (find t s).
Proof. apply search_literal_find_from. Qed.

(** [find] gives the first position at which the text continues with [t]. *)
Lemma find_from_first (t s : text) :
  forall pos i, find_from t pos s = Some i ->
  pos <= i /\ starts_with t (skipn (i - pos) s) = true
  /\ forall j, j < i - pos -> starts_with t (skipn j s) = false.
Proof.
  induction s as [|c s IH]; intros pos i; cbn [find_from].
  - destruct (starts_with t []) eqn:E; [|discriminate].
    intros H; injection H as <-; rewrite Nat.sub_diag; repeat split; auto; lia.
  - destruct (starts_with t (c :: s)) eqn:E.
    + intros H; injection H as <-; rewrite Nat.sub_diag; repeat split; auto; lia.
    + intros H; apply IH in H; destruct H as (H1 & H2 & H3).
      replace (i - pos) with (S (i - S pos)) by lia; repeat split; [lia | exact H2 |].
      intros [|j] Hj; [exact E | apply H3; lia].
Qed.

Lemma find_from_none (t s : text) :
  forall pos, find_from t pos s = None <-> occursb t s = false.
Proof.
  induction s as [|c s IH]; intros pos; cbn [find_from occursb].
  - destruct (starts_with t []); simpl; split; congruence.
  - destruct (starts_with t (c :: s)); simpl; [split; congruence | apply IH].
Qed.

Lemma search_literal_none (t s : text) :
  Re.search (Re.Str t) s = None <-> occursb t s = false.
Proof.
  rewrite search_literal_find, <- (find_from_none t s 0); unfold find.
  destruct (find_from t 0 s); simpl; split; congruence.
Qed.

(** ** The bounds of the block *)

Lemma search_literal_first (t s : text) (m : Re.Match) :
  Re.search (Re.Str t) s = Some m ->
  Re.m_end m = Re.m_start m + length t
  /\ starts_with t (skipn (Re.m_start m) s) = true
  /\ forall j, j < Re.m_start m -> starts_with t (skipn j s) = false.
Proof.
  rewrite search_literal_find; unfold find.
  destruct (find_from t 0 s) as [i|] eqn:E; [|discriminate].
  intros H; injection H as <-; simpl.
  apply find_from_first in E; rewrite Nat.sub_0_r in E; tauto.
Qed.

(** X1.  The block that is parsed runs from the first occurrence of the
    begin marker to the end of the first occurrence of the end marker, and
    lies inside the document. *)
Theorem block_is_first_begin_to_first_end (tex_content : text) (entries : Dict.t text)
    (bib_start bib_end : nat) (opening_line : text) :
  fst (extract_bibliography_entries tex_content)
    = Some (entries, (bib_start, bib_end), opening_line) ->
  starts_with begin_marker (skipn bib_start tex_content) = true
  /\ (forall j, j < bib_start -> starts_with begin_marker (skipn j tex_content) = false)
  /\ length end_marker <= bib_end <= length tex_content
  /\ starts_with end_marker (skipn (bib_end - length end_marker) tex_content) = true
  /\ (forall j, j < bib_end - length end_marker ->
        starts_with end_marker (skipn j tex_content) = false).
Proof.
  unfold extract_bibliography_entries, begin_pattern, end_pattern.
  destruct (Re.search (Re.Str begin_marker) tex_content) as [mb|] eqn:B; [|discriminate].
  destruct (Re.search (Re.Str end_marker) tex_content) as [me|] eqn:E; [|discriminate].
  simpl; intros H; injection H as _ <- <- _.
  pose proof (finditer_end_le _ _ _ (search_In _ _ E)) as L.
  apply search_literal_first in B, E.
  destruct B as (_ & B1 & B2), E as (E0 & E1 & E2).
  rewrite E0 in *; rewrite Nat.add_sub.
  split; [exact B1|]; split; [exact B2|]; split; [|split; [exact E1 | exact E2]].
  change (length end_marker) with 21 in *; lia.
Qed.

(** Witness of X1: the sample document. *)
Lemma block_is_first_begin_to_first_end_witness :
  fst (extract_bibliography_entries sample_doc)
    = Some (sample_entries, (53, 160), sample_opening)
  /\ starts_with begin_marker (skipn 53 sample_doc) = true
  /\ (forall j, j < 53 -> starts_with begin_marker (skipn j sample_doc) = false)
  /\ length end_marker <= 160 <= length sample_doc
  /\ starts_with end_marker (skipn (160 - length end_marker) sample_doc) = true
  /\ (forall j, j < 160 - length end_marker ->
        starts_with end_marker (skipn j sample_doc) = false).
Proof.
  assert (E : fst (extract_bibliography_entries sample_doc)
              = Some (sample_entries, (53, 160), sample_opening))
    by (vm_compute; reflexivity).
  split; [exact E|].
  exact (@block_is_first_begin_to_first_end sample_doc sample_entries 53 160
           sample_opening E).
Defined.

Lemma opening_no_empty_match : Re.search opening_pattern [] = None.
Proof. reflexivity. Qed.

(** X2.  When the first end marker ends at or before the first begin
    marker, the section between them is empty: no entry is parsed, the
    opening line is the bare begin marker, and a run on such a document
    fails and changes no file. *)
Theorem end_marker_before_begin_marker (tex_content : text) (entries : Dict.t text)
    (bib_start bib_end : nat) (opening_line : text) :
  fst (extract_bibliography_entries tex_content)
    = Some (entries, (bib_start, bib_end), opening_line) ->
  bib_end <= bib_start ->
  entries = [] /\ opening_line = begin_marker
  /\ forall fs input_file output_file,
       fs_read fs input_file = Some tex_content ->
       fst (reorder_latex_bibliography fs input_file output_file) = (false, fs).
Proof.
  intros E L.
  assert (N : entries = []).
  { destruct entries as [|kv d]; [reflexivity|].
    apply extract_entries_span in E; destruct E as [_ E].
    assert (bib_start < bib_end) by (apply E; discriminate); lia. }
  subst entries; split; [reflexivity|]; split.
  - revert E; unfold extract_bibliography_entries.
    destruct (Re.search begin_pattern tex_content) as [mb|]; [|discriminate].
    destruct (Re.search end_pattern tex_content) as [me|]; [|discriminate].
    simpl; intros H; injection H as _ -> -> <-.
    unfold bib_section_of, slice; replace (bib_end - bib_start) with 0 by lia.
    cbn [firstn]; now rewrite opening_no_empty_match.
  - intros fs input_file output_file R; eapply driver_empty_mapping; eauto.
Qed.

(** Witness of X2: an end marker in the text before the bibliography. *)
Lemma end_marker_before_begin_marker_witness :
  let doc := lines ["\end{thebibliography} \cite{a}";
                    "\begin{thebibliography}{9}"; "\bibitem{a} A";
                    "\end{thebibliography}"]%string in
  fst (extract_bibliography_entries doc) = Some ([], (31, 21), begin_marker)
  /\ 21 <= 31
  /\ @nil (text * text) = [] /\ begin_marker = begin_marker
  /\ forall fs input_file output_file,
       fs_read fs input_file = Some doc ->
       fst (reorder_latex_bibliography fs input_file output_file) = (false, fs).
Proof.
  intros doc.
  assert (E : fst (extract_bibliography_entries doc) = Some ([], (31, 21), begin_marker))
    by (vm_compute; reflexivity).
  assert (L : 21 <= 31) by lia.
  split; [exact E|]; split; [exact L|].
  exact (@end_marker_before_begin_marker doc [] 31 21 begin_marker E L).
Defined.

Lemma replace_absent (old new s : text) :
  occursb old s = false -> replace_from old new 0 s = s.
Proof.
  induction s as [|c s IH]; intros H; [reflexivity|].
  rewrite occursb_cons in H; apply orb_false_iff in H; destruct H as [H1 H2].
  cbn [replace_from]; rewrite H1; f_equal; now apply IH.
Qed.

(** X4.  When no output path is given and the input path does not contain
    [.tex], the default output path is the input path itself: a successful
    run then replaces the input file by the rewritten document. *)
Theorem input_without_tex_is_overwritten (input_file : text) :
  occursb (txt ".tex") input_file = false ->
  default_output_file input_file = input_file
  /\ forall fs fs' log,
       reorder_latex_bibliography fs input_file None = (true, fs', log) ->
       exists content entries bib_start bib_end opening_line block,
         fs_read fs input_file = Some content
         /\ fst (extract_bibliography_entries content)
              = Some (entries, (bib_start, bib_end), opening_line)
         /\ fst (create_reordered_bibliography
                   (get_ordered_citations (find_all_citations content))
                   entries opening_line) = Some block
         /\ fs_read fs' input_file = Some (splice content bib_start bib_end block).
Proof.
  intros H.
  assert (D : default_output_file input_file = input_file)
    by (apply replace_absent, H).
  split; [exact D|].
  intros fs fs' log R; apply reorder_success in R.
  destruct R as (content & e & bs & be & o & b & R & E & C & W).
  rewrite D in W; apply fs_write_read in W.
  exists content, e, bs, be, o, b; auto.
Qed.

(** Witness of X4: [paper.latex]. *)
Lemma input_without_tex_is_overwritten_witness :
  occursb (txt ".tex") (txt "paper.latex") = false
  /\ default_output_file (txt "paper.latex") = txt "paper.latex"
  /\ forall fs fs' log,
       reorder_latex_bibliography fs (txt "paper.latex") None = (true, fs', log) ->
       exists content entries bib_start bib_end opening_line block,
         fs_read fs (txt "paper.latex") = Some content
         /\ fst (extract_bibliography_entries content)
              = Some (entries, (bib_start, bib_end), opening_line)
         /\ fst (create_reordered_bibliography
                   (get_ordered_citations (find_all_citations content))
                   entries opening_line) = Some block
         /\ fs_read fs' (txt "paper.latex")
              = Some (splice content bib_start bib_end block).
Proof.
  assert (H : occursb (txt ".tex") (txt "paper.latex") = false) by reflexivity.
  split; [exact H|].
  exact (@input_without_tex_is_overwritten (txt "paper.latex") H).
Defined.

(** ** When a run succeeds *)

Lemma first_occurrences_nil (l : list text) : first_occurrences l = [] <-> l = [].
Proof.
  split; [|now intros ->].
  destruct l as [|x l]; [reflexivity|]; unfold first_occurrences; simpl; discriminate.
Qed.

Lemma extract_some_iff (tex_content : text) :
  (exists r, fst (extract_bibliography_entries tex_content) = Some r)
  <-> occursb begin_marker tex_content = true /\ occursb end_marker tex_content = true.
Proof.
  unfold extract_bibliography_entries, begin_pattern, end_pattern.
  pose proof (search_literal_none begin_marker tex_content) as B.
  pose proof (search_literal_none end_marker tex_content) as E.
  destruct (Re.search (Re.Str begin_marker) tex_content) as [mb|];
    destruct (Re.search (Re.Str end_marker) tex_content) as [me|]; simpl.
  - split; [intros _|eauto].
    split; [destruct (occursb begin_marker tex_content)
           | destruct (occursb end_marker tex_content)]; auto.
    + destruct B as [_ B]; discriminate (B eq_refl).
    + destruct E as [_ E]; discriminate (E eq_refl).
  - split; [intros [r H]; discriminate|].
    intros [_ H]; destruct E as [E _]; rewrite (E eq_refl) in H; discriminate.
  - split; [intros [r H]; discriminate|].
    intros [H _]; destruct B as [B _]; rewrite (B eq_refl) in H; discriminate.
  - split; [intros [r H]; discriminate|].
    intros [H _]; destruct B as [B _]; rewrite (B eq_refl) in H; discriminate.
Qed.

(** The checks in front of the write step: either one of them stops the
    run, which then returns [False] and leaves the files as they were, or
    all of them pass and the result is that of the write. *)
Lemma run_cases (fs : FS) (input_file : text) (output_file : option text) :
  (exists log,
     reorder_latex_bibliography fs input_file output_file = (false, fs, log))
  \/ (exists content,
        fs_read fs input_file = Some content
        /\ Re.finditer cite_pattern content <> []
        /\ occursb begin_marker content = true
        /\ occursb end_marker content = true
        /\ block_keys content <> []
        /\ fst (fst (reorder_latex_bibliography fs input_file output_file))
             = fs_writable fs (output_path input_file output_file)).
Proof.
  unfold reorder_latex_bibliography, output_path.
  destruct (fs_read fs input_file) as [content|]; [|left; eauto].
  pose proof (citations_nil_iff content) as CN.
  pose proof (extract_some_iff content) as XS.
  pose proof (@extract_keys content) as XK.
  destruct (citations (find_all_citations content)) eqn:C; [left; eauto|].
  assert (NC : Re.finditer cite_pattern content <> [])
    by (intros Z; apply CN in Z; discriminate).
  destruct (extract_bibliography_entries content) as [[[[e [bs be]] o]|] log2];
    [|left; eauto].
  destruct XS as [XS _]; destruct (XS (ex_intro _ _ eq_refl)) as [B E].
  specialize (XK e (bs, be) o eq_refl).
  destruct e as [|kv e]; [left; simpl; eauto|].
  assert (K : block_keys content <> []).
  { intros Z; rewrite Z in XK; discriminate. }
  right; exists content.
  split; [reflexivity|]; split; [exact NC|]; split; [exact B|]; split; [exact E|].
  split; [exact K|].
  cbn [create_reordered_bibliography]; unfold fs_write.
  destruct (fs_writable fs _); reflexivity.
Qed.

(** X5.  A run returns [True] only when the input could be read, the
    document has a citation marker, both delimiters occur in it, the block
    between them has at least one entry, and the output path could be
    written. *)
Theorem run_success_conditions (fs : FS) (input_file : text)
    (output_file : option text) :
  fst (fst (reorder_latex_bibliography fs input_file output_file)) = true ->
  exists content,
    fs_read fs input_file = Some content
    /\ Re.finditer cite_pattern content <> []
    /\ occursb begin_marker content = true
    /\ occursb end_marker content = true
    /\ block_keys content <> []
    /\ fs_writable fs (output_path input_file output_file) = true.
Proof.
  intros T; destruct (run_cases fs input_file output_file)
    as [[log R]|(content & H1 & H2 & H3 & H4 & H5 & H6)].
  - rewrite R in T; discriminate.
  - exists content; rewrite T in H6; auto 10.
Qed.

(** Witness of X5: the run on the sample document. *)
Lemma run_success_conditions_witness :
  fst (fst (reorder_latex_bibliography (single_file sample_path sample_doc)
              sample_path None)) = true
  /\ exists content,
       fs_read (single_file sample_path sample_doc) sample_path = Some content
       /\ Re.finditer cite_pattern content <> []
       /\ occursb begin_marker content = true
       /\ occursb end_marker content = true
       /\ block_keys content <> []
       /\ fs_writable (single_file sample_path sample_doc)
            (output_path sample_path None) = true.
Proof.
  assert (T : fst (fst (reorder_latex_bibliography (single_file sample_path sample_doc)
                          sample_path None)) = true) by (vm_compute; reflexivity).
  split; [exact T|].
  exact (@run_success_conditions (single_file sample_path sample_doc) sample_path None T).
Defined.

(** X3.  A run writes nothing before every check has passed: when some
    path reads differently after a run than before it, the input was read
    and the document has a citation marker, both delimiters and at least
    one entry in its block.  A run that stops at one of these checks leaves
    every file as it was. *)
Theorem run_writes_only_after_checks (fs : FS) (input_file : text)
    (output_file : option text) (p : text) :
  fs_read (snd (fst (reorder_latex_bibliography fs input_file output_file))) p
    <> fs_read fs p ->
  exists content,
    fs_read fs input_file = Some content
    /\ Re.finditer cite_pattern content <> []
    /\ occursb begin_marker content = true
    /\ occursb end_marker content = true
    /\ block_keys content <> [].
Proof.
  intros D; destruct (run_cases fs input_file output_file)
    as [[log R]|(content & H1 & H2 & H3 & H4 & H5 & _)].
  - rewrite R in D; now contradiction D.
  - exists content; auto 10.
Qed.

(** Witness of X3: the run on the sample document writes its output file. *)
Lemma run_writes_only_after_checks_witness :
  let fs := single_file sample_path sample_doc in
  let p := default_output_file sample_path in
  fs_read (snd (fst (reorder_latex_bibliography fs sample_path None))) p <> fs_read fs p
  /\ exists content,
       fs_read fs sample_path = Some content
       /\ Re.finditer cite_pattern content <> []
       /\ occursb begin_marker content = true
       /\ occursb end_marker content = true
       /\ block_keys content <> [].
Proof.
  cbv zeta.
  assert (D : fs_read (snd (fst (reorder_latex_bibliography
                                   (single_file sample_path sample_doc) sample_path None)))
                (default_output_file sample_path)
              <> fs_read (single_file sample_path sample_doc)
                   (default_output_file sample_path))
    by (vm_compute; discriminate).
  split; [exact D|].
  exact (@run_writes_only_after_checks (single_file sample_path sample_doc)
           sample_path None (default_output_file sample_path) D).
Defined.

(** ** main *)

(** X6.  The process exits with status 0 or 1.  It exits with 1 exactly
    when an input path was given and the run on it returned [False]; with
    fewer than two arguments it prints the usage, reads and writes no file
    and exits with 0. *)
Theorem main_exit_status_meaning (argv : list text) (fs : FS) :
  let status := fst (fst (main argv fs)) in
  (status = 0 \/ status = 1)
  /\ (status = 1 <->
      exists prog input_file rest,
        argv = prog :: input_file :: rest
        /\ fst (fst (reorder_latex_bibliography fs input_file (hd_error rest))) = false)
  /\ (length argv < 2 -> main argv fs = (0, fs, [Usage])).
Proof.
  cbv zeta; destruct argv as [|prog [|input_file rest]].
  - repeat split; simpl; auto; try discriminate.
    intros (p & i & r & H & _); discriminate.
  - repeat split; simpl; auto; try discriminate.
    intros (p & i & r & H & _); discriminate.
  - rewrite main_exit_status.
    destruct (reorder_latex_bibliography fs input_file (hd_error rest))
      as [[ok f] log] eqn:R; simpl.
    destruct ok; (split; [auto|]); split.
    + split; [discriminate|].
      intros (p & i & r & H & F); injection H as <- <- <-.
      rewrite R in F; discriminate.
    + simpl; lia.
    + split; [intros _; exists prog, input_file, rest; now rewrite R|reflexivity].
    + simpl; lia.
Qed.

(** ** The opening line *)

Lemma star_final (p : char -> bool) (c : Re.caps) (s : text) :
  Re.star p (fun s' => Some (s', c)) s = Some (drop_while p s, c).
Proof.
  induction s as [|ch s IH]; [reflexivity|]; simpl.
  destruct (p ch); [now rewrite IH | reflexivity].
Qed.

Lemma take_drop_while (p : char -> bool) (s : text) :
  take_while p s ++ drop_while p s = s.
Proof.
  induction s as [|c s IH]; [reflexivity|]; simpl.
  destruct (p c); simpl; [now rewrite IH | reflexivity].
Qed.

Lemma take_while_app (p : char -> bool) (a b : text) :
  forallb p a = true -> take_while p (a ++ b) = a ++ take_while p b.
Proof.
  induction a as [|c a IH]; intros H; [reflexivity|]; simpl in *.
  apply andb_true_iff in H; destruct H as [H1 H2]; now rewrite H1, IH.
Qed.

Lemma take_while_class (p : char -> bool) (s : text) : forallb p (take_while p s) = true.
Proof.
  induction s as [|c s IH]; [reflexivity|]; simpl.
  destruct (p c) eqn:E; simpl; [now rewrite E | reflexivity].
Qed.

Lemma starts_with_split (t s : text) :
  starts_with t s = true -> s = t ++ skipn (length t) s.
Proof.
  revert s; induction t as [|a t IH]; intros [|b s]; simpl; try discriminate; auto.
  intros H; apply andb_true_iff in H; destruct H as [H1 H2].
  apply N.eqb_eq in H1; subst; f_equal; now apply IH.
Qed.

(** The pattern of the opening line at the head of a text: the begin marker
    and the rest of its line. *)
Lemma match_at_opening (s : text) :
  Re.match_at opening_pattern s
  = if starts_with begin_marker s
    then Some (drop_while (not_char nl) (skipn (length begin_marker) s), [])
    else None.
Proof.
  unfold Re.match_at, opening_pattern; cbn [Re.run].
  destruct (Re.strip_prefix begin_marker s) as [rest|] eqn:E.
  - pose proof (strip_prefix_sound _ _ E) as ->.
    rewrite starts_with_app, skipn_app, Nat.sub_diag, skipn_all; simpl skipn.
    apply star_final.
  - apply strip_prefix_starts in E; now rewrite E.
Qed.

Lemma nth_error_starts_with (t s : text) (i k : nat) :
  starts_with t (skipn i s) = true -> k < length t ->
  nth_error s (i + k) = nth_error t k.
Proof.
  intros H K; apply starts_with_split in H.
  rewrite <- (firstn_skipn i s) at 1.
  assert (L : i <= length s).
  { destruct (Nat.le_gt_cases i (length s)) as [|G]; [assumption|].
    rewrite skipn_all2 in H by lia; destruct t; [simpl in K; lia | discriminate]. }
  rewrite nth_error_app2 by (rewrite length_firstn; lia).
  rewrite length_firstn, Nat.min_l, Nat.add_comm, Nat.add_sub by lia.
  rewrite H, nth_error_app1 by assumption; reflexivity.
Qed.

Lemma end_marker_backslash (k : nat) :
  k < length end_marker -> nth_error end_marker k = Some 92%N -> k = 0.
Proof.
  intros K H; do 21 (destruct k as [|k]; [first [reflexivity | discriminate H]|]).
  simpl in K; lia.
Qed.

Lemma begin_marker_backslash (k : nat) :
  k < length begin_marker -> nth_error begin_marker k = Some 92%N -> k = 0.
Proof.
  intros K H; do 23 (destruct k as [|k]; [first [reflexivity | discriminate H]|]).
  simpl in K; lia.
Qed.

(** The two markers cannot overlap: an end marker either ends before the
    begin marker starts or starts after it ends. *)
Lemma markers_do_not_overlap (s : text) (b e : nat) :
  starts_with begin_marker (skipn b s) = true ->
  starts_with end_marker (skipn e s) = true ->
  e + length end_marker <= b \/ b + length begin_marker <= e.
Proof.
  intros B E.
  destruct (Nat.le_gt_cases (e + length end_marker) b) as [|G1]; [now left|].
  destruct (Nat.le_gt_cases (b + length begin_marker) e) as [|G2]; [now right|].
  exfalso.
  destruct (Nat.lt_trichotomy b e) as [L|[->|L]].
  - pose proof (@nth_error_starts_with _ _ b (e - b) B ltac:(lia)) as Hb.
    pose proof (@nth_error_starts_with _ _ e 0 E ltac:(simpl; lia)) as He.
    replace (b + (e - b)) with (e + 0) in Hb by lia; rewrite He in Hb.
    symmetry in Hb; apply begin_marker_backslash in Hb; lia.
  - pose proof (@nth_error_starts_with _ _ e 1 B ltac:(simpl; lia)) as Hb.
    pose proof (@nth_error_starts_with _ _ e 1 E ltac:(simpl; lia)) as He.
    rewrite He in Hb; discriminate.
  - pose proof (@nth_error_starts_with _ _ e (b - e) E ltac:(lia)) as He.
    pose proof (@nth_error_starts_with _ _ b 0 B ltac:(simpl; lia)) as Hb.
    replace (e + (b - e)) with (b + 0) in He by lia; rewrite Hb in He.
    symmetry in He; apply end_marker_backslash in He; lia.
Qed.

Lemma firstn_take_while (p : char -> bool) (a r : text) :
  forallb p a = true ->
  firstn (length (a ++ r) - length (drop_while p r)) (a ++ r) = take_while p (a ++ r).
Proof.
  intros H; rewrite take_while_app by assumption.
  pose proof (take_drop_while p r) as TD.
  remember (take_while p r) as t; remember (drop_while p r) as d.
  rewrite <- TD, app_assoc; apply firstn_app_minus.
Qed.

Lemma search_opening (s : text) :
  starts_with begin_marker s = true ->
  exists m, Re.search opening_pattern s = Some m
            /\ matched_text m s = take_while (not_char nl) s.
Proof.
  intros H; pose proof (starts_with_split _ _ H) as E.
  assert (M : Re.match_at opening_pattern s
              = Some (drop_while (not_char nl) (skipn (length begin_marker) s), []))
    by (rewrite match_at_opening, H; reflexivity).
  assert (F : firstn (length s - length (drop_while (not_char nl)
                                          (skipn (length begin_marker) s))) s
              = take_while (not_char nl) s).
  { rewrite E at 1 3 4; apply firstn_take_while; reflexivity. }
  destruct s as [|c s']; [discriminate|].
  unfold Re.search, Re.finditer; cbn [Re.finditer_from]; rewrite M; cbn [hd_error].
  eexists; split; [reflexivity|].
  unfold matched_text, slice; cbn [Re.m_start Re.m_end skipn].
  now rewrite Nat.sub_0_r, Nat.add_0_l.
Qed.

Lemma forallb_not_In (c : char) (s : text) :
  forallb (not_char c) s = true -> ~ In c s.
Proof.
  induction s as [|x s IH]; simpl; [tauto|].
  intros H; apply andb_true_iff in H; destruct H as [H1 H2].
  intros [<-|I]; [|now apply IH].
  unfold not_char in H1; now rewrite N.eqb_refl in H1.
Qed.

(** X7.  The markers of a block cannot overlap: the section is either empty
    or holds both markers.  The opening line is the first line of the
    section, that is the begin marker and everything up to the next line
    break or the end of the section; for an empty section it is the bare
    begin marker.  It never contains a line break. *)
Theorem opening_line_is_first_line (tex_content : text) (entries : Dict.t text)
    (bib_start bib_end : nat) (opening_line : text) :
  fst (extract_bibliography_entries tex_content)
    = Some (entries, (bib_start, bib_end), opening_line) ->
  (bib_end <= bib_start
   \/ bib_start + length begin_marker + length end_marker <= bib_end)
  /\ (bib_start < bib_end ->
      opening_line = take_while (not_char nl) (slice bib_start bib_end tex_content)
      /\ starts_with begin_marker opening_line = true)
  /\ (bib_end <= bib_start -> opening_line = begin_marker)
  /\ ~ In nl opening_line.
Proof.
  intros X.
  assert (O : bib_end <= bib_start
              \/ bib_start + length begin_marker + length end_marker <= bib_end).
  { revert X; unfold extract_bibliography_entries, begin_pattern, end_pattern.
    destruct (Re.search (Re.Str begin_marker) tex_content) as [mb|] eqn:B; [|discriminate].
    destruct (Re.search (Re.Str end_marker) tex_content) as [me|] eqn:E; [|discriminate].
    simpl; intros H; injection H as _ <- <- _.
    apply search_literal_first in B, E.
    destruct B as (_ & B1 & _), E as (E0 & E1 & _).
    pose proof (markers_do_not_overlap _ _ _ B1 E1) as D.
    change (length begin_marker) with 23 in *; change (length end_marker) with 21 in *.
    lia. }
  assert (Z : bib_end <= bib_start -> opening_line = begin_marker).
  { intros L; revert X; unfold extract_bibliography_entries.
    destruct (Re.search begin_pattern tex_content) as [mb|]; [|discriminate].
    destruct (Re.search end_pattern tex_content) as [me|]; [|discriminate].
    simpl; intros H; injection H as _ -> -> <-.
    unfold bib_section_of, slice; replace (bib_end - bib_start) with 0 by lia.
    cbn [firstn]; now rewrite opening_no_empty_match. }
  assert (P : bib_start < bib_end ->
              opening_line = take_while (not_char nl) (slice bib_start bib_end tex_content)
              /\ starts_with begin_marker opening_line = true).
  { intros L.
    assert (S : starts_with begin_marker (slice bib_start bib_end tex_content) = true).
    { revert X; unfold extract_bibliography_entries, begin_pattern.
      destruct (Re.search (Re.Str begin_marker) tex_content) as [mb|] eqn:B; [|discriminate].
      destruct (Re.search end_pattern tex_content) as [me|]; [|discriminate].
      cbn [fst]; intros H; injection H as _ <- <- _.
      apply search_literal_first in B; destruct B as (_ & B1 & _).
      apply starts_with_split in B1; unfold slice; rewrite B1.
      rewrite firstn_app.
      rewrite firstn_all2 by (change (length begin_marker) with 23 in *; lia).
      apply starts_with_app. }
    destruct (search_opening _ S) as (m & Sm & Mm).
    revert X; unfold extract_bibliography_entries.
    destruct (Re.search begin_pattern tex_content) as [mb|]; [|discriminate].
    destruct (Re.search end_pattern tex_content) as [me|]; [|discriminate].
    cbn [fst]; intros H; injection H as _ -> -> <-.
    unfold bib_section_of in *; rewrite Sm, Mm; split; [reflexivity|].
    apply starts_with_split in S; rewrite S at 1.
    rewrite take_while_app by reflexivity; apply starts_with_app. }
  split; [exact O|]; split; [exact P|]; split; [exact Z|].
  destruct (Nat.le_gt_cases bib_end bib_start) as [L|L].
  - rewrite (Z L); vm_compute; intuition discriminate.
  - destruct (P L) as [-> _]; apply forallb_not_In, take_while_class.
Qed.

(** Witness of X7: the sample document. *)
Lemma opening_line_is_first_line_witness :
  fst (extract_bibliography_entries sample_doc)
    = Some (sample_entries, (53, 160), sample_opening)
  /\ (160 <= 53 \/ 53 + length begin_marker + length end_marker <= 160)
  /\ (53 < 160 ->
      sample_opening = take_while (not_char nl) (slice 53 160 sample_doc)
      /\ starts_with begin_marker sample_opening = true)
  /\ (160 <= 53 -> sample_opening = begin_marker)
  /\ ~ In nl sample_opening.
Proof.
  assert (E : fst (extract_bibliography_entries sample_doc)
              = Some (sample_entries, (53, 160), sample_opening))
    by (vm_compute; reflexivity).
  split; [exact E|].
  exact (@opening_line_is_first_line sample_doc sample_entries 53 160 sample_opening E).
Defined.

(** ** The parsed entries *)

Lemma dict_get_set_same (V : Type) (k : text) (v : V) (d : Dict.t V) :
  Dict.get k (Dict.set k v d) = Some v.
Proof.
  induction d as [|[k' v'] d IH]; simpl; [now rewrite text_eqb_refl|].
  destruct (text_eqb k k') eqn:E; simpl; [now rewrite text_eqb_refl | now rewrite E].
Qed.

Lemma dict_get_set_other (V : Type) (k k0 : text) (v : V) (d : Dict.t V) :
  k0 <> k -> Dict.get k0 (Dict.set k v d) = Dict.get k0 d.
Proof.
  intros N; induction d as [|[k' v'] d IH]; simpl.
  - apply text_eqb_false in N; now rewrite N.
  - destruct (text_eqb k k') eqn:E; simpl.
    + apply text_eqb_true in E; subst k'.
      apply text_eqb_false in N; now rewrite N.
    + destruct (text_eqb k0 k'); [reflexivity | exact IH].
Qed.

Lemma add_entry_get_other (ms : list Re.Match) (k : text) :
  forall d : Dict.t text,
    (forall m, In m ms -> strip (Re.group 1 m) <> k) ->
    Dict.get k (fold_left add_entry ms d) = Dict.get k d.
Proof.
  induction ms as [|m ms IH]; intros d H; simpl; [reflexivity|].
  rewrite IH by (intros; apply H; now right).
  unfold add_entry; apply dict_get_set_other.
  intros E; apply (H m); [now left | now symmetry].
Qed.

Lemma add_entry_get_origin (ms : list Re.Match) (k v : text) :
  forall d : Dict.t text,
    Dict.get k (fold_left add_entry ms d) = Some v ->
    Dict.get k d = Some v
    \/ exists m, In m ms /\ k = strip (Re.group 1 m) /\ v = clean_content (Re.group 2 m).
Proof.
  induction ms as [|m ms IH]; intros d H; simpl in *; [now left|].
  apply IH in H; destruct H as [H|(m' & I & E1 & E2)]; [|right; exists m'; auto].
  unfold add_entry in H.
  destruct (list_eq_dec N.eq_dec k (strip (Re.group 1 m))) as [->|N].
  - rewrite dict_get_set_same in H; injection H as <-; right; exists m; auto.
  - rewrite dict_get_set_other in H by assumption; now left.
Qed.

Lemma extract_entries_fold (tex_content : text) (entries : Dict.t text)
    (bounds : nat * nat) (opening_line : text) :
  fst (extract_bibliography_entries tex_content) = Some (entries, bounds, opening_line) ->
  entries = fold_left add_entry (block_matches tex_content) []
  /\ block_keys tex_content
     = map (fun m => strip (Re.group 1 m)) (block_matches tex_content).
Proof.
  unfold extract_bibliography_entries, block_matches, block_keys.
  destruct (Re.search begin_pattern tex_content) as [mb|]; [|discriminate].
  destruct (Re.search end_pattern tex_content) as [me|]; [|discriminate].
  cbn [fst]; intros H; injection H as <- _ _; auto.
Qed.

(** X8.  When a key is declared several times in the block, the mapping
    holds the cleaned body of its last declaration, and the key keeps the
    place of its first declaration among the keys. *)
Theorem duplicate_key_keeps_last_body (tex_content : text) (entries : Dict.t text)
    (bounds : nat * nat) (opening_line : text) (ms1 ms2 : list Re.Match) (m : Re.Match) :
  fst (extract_bibliography_entries tex_content) = Some (entries, bounds, opening_line) ->
  block_matches tex_content = ms1 ++ m :: ms2 ->
  (forall m', In m' ms2 -> strip (Re.group 1 m') <> strip (Re.group 1 m)) ->
  Dict.get (strip (Re.group 1 m)) entries = Some (clean_content (Re.group 2 m))
  /\ Dict.keys entries
     = first_occurrences (map (fun m => strip (Re.group 1 m)) (block_matches tex_content)).
Proof.
  intros X S L.
  pose proof (extract_keys _ X) as K.
  apply extract_entries_fold in X; destruct X as [-> B]; rewrite B in K.
  split; [|exact K].
  rewrite S, fold_left_app; cbn [fold_left].
  rewrite add_entry_get_other by assumption.
  unfold add_entry; apply dict_get_set_same.
Qed.

(** Witness of X8: the key [a] declared twice; the second body is kept. *)
Lemma duplicate_key_keeps_last_body_witness :
  let ms := block_matches duplicate_key_doc in
  let m := nth 1 ms {| Re.m_start := 0; Re.m_end := 0; Re.m_caps := [] |} in
  fst (extract_bibliography_entries duplicate_key_doc)
    = Some ([(txt "a", txt "Two"); (txt "b", txt "Three")], (15, 113),
            txt "\begin{thebibliography}{9}")
  /\ ms = firstn 1 ms ++ m :: skipn 2 ms
  /\ (forall m', In m' (skipn 2 ms) -> strip (Re.group 1 m') <> strip (Re.group 1 m))
  /\ strip (Re.group 1 m) = txt "a"
  /\ Dict.get (strip (Re.group 1 m)) [(txt "a", txt "Two"); (txt "b", txt "Three")]
       = Some (clean_content (Re.group 2 m))
  /\ Dict.keys [(txt "a", txt "Two"); (txt "b", txt "Three")]
     = first_occurrences (map (fun m => strip (Re.group 1 m)) ms).
Proof.
  cbv zeta.
  assert (X : fst (extract_bibliography_entries duplicate_key_doc)
              = Some ([(txt "a", txt "Two"); (txt "b", txt "Three")], (15, 113),
                      txt "\begin{thebibliography}{9}"))
    by (vm_compute; reflexivity).
  assert (S : block_matches duplicate_key_doc
              = firstn 1 (block_matches duplicate_key_doc)
                ++ nth 1 (block_matches duplicate_key_doc)
                     {| Re.m_start := 0; Re.m_end := 0; Re.m_caps := [] |}
                   :: skipn 2 (block_matches duplicate_key_doc))
    by (vm_compute; reflexivity).
  assert (L : forall m', In m' (skipn 2 (block_matches duplicate_key_doc)) ->
              strip (Re.group 1 m')
              <> strip (Re.group 1 (nth 1 (block_matches duplicate_key_doc)
                          {| Re.m_start := 0; Re.m_end := 0; Re.m_caps := [] |})))
    by (vm_compute; intros m' [<-|[]]; discriminate).
  split; [exact X|]; split; [exact S|]; split; [exact L|].
  split; [vm_compute; reflexivity|].
  exact (@duplicate_key_keeps_last_body duplicate_key_doc _ _ _ _ _ _ X S L).
Defined.

(** The shape of an entry match: the key in braces is group 1, the text up
    to the next entry or the end marker is group 2. *)
Lemma bibitem_match_shape (t rest : text) (c : Re.caps) :
  matches bibitem_pattern t [] rest c ->
  exists g1 g2,
    t = txt "\bibitem{" ++ g1 ++ txt "}" ++ g2 ++ rest
    /\ g1 <> [] /\ Forall (fun x => not_char rbrace x = true) g1
    /\ Re.lookup 1 c = g1 /\ Re.lookup 2 c = g2
    /\ (starts_with (txt "\bibitem{") rest = true \/ starts_with end_marker rest = true).
Proof.
  unfold bibitem_pattern; intros H; inv_matches; exists pre0, pre;
    rewrite !firstn_app_minus; cbn [Re.lookup Nat.eqb];
    (split; [reflexivity|]); (split; [assumption|]); (split; [assumption|]);
    (split; [reflexivity|]); (split; [reflexivity|]).
  - left; apply starts_with_app.
  - right; apply starts_with_app.
Qed.

Lemma lstrip_In (x : char) (s : text) : In x (lstrip s) -> In x s.
Proof.
  destruct (lstrip_suffix s) as [w E]; intros H; rewrite E; apply in_or_app; now right.
Qed.

Lemma strip_In (x : char) (s : text) : In x (strip s) -> In x s.
Proof.
  unfold strip, rstrip; intros H.
  apply in_rev, lstrip_In, in_rev in H; now apply lstrip_In.
Qed.

Lemma bibitem_key_no_brace (s : text) (m : Re.Match) :
  In m (Re.finditer bibitem_pattern s) -> ~ In rbrace (strip (Re.group 1 m)).
Proof.
  intros H I; apply strip_In in I.
  apply finditer_In in H; destruct H as (rest & _ & M & _).
  apply match_at_sound, bibitem_match_shape in M.
  destruct M as (g1 & g2 & _ & _ & F & G1 & _).
  unfold Re.group in I; rewrite G1 in I.
  rewrite Forall_forall in F; apply F in I.
  unfold not_char in I; now rewrite N.eqb_refl in I.
Qed.

(** The clean-up in terms of lines. *)
Lemma clean_content_lines (body : text) :
  clean_content body = drop_blank_lines (strip body) /\ trimmed (clean_content body).
Proof.
  destruct (sub_blank_trimmed (strip_is_trimmed body)) as [S T].
  assert (E : clean_content body = drop_blank_lines (strip body))
    by (unfold clean_content; rewrite S; now apply trimmed_strip).
  split; [exact E | now rewrite E].
Qed.

Lemma filter_idem (A : Type) (f : A -> bool) (l : list A) :
  filter f (filter f l) = filter f l.
Proof.
  apply filter_all_true; intros x H; apply filter_In in H; tauto.
Qed.

Lemma clean_content_no_blank_line (body : text) :
  clean_content body <> [] ->
  Forall (fun l => blank_line l = false) (split nl (clean_content body)).
Proof.
  destruct (clean_content_lines body) as [E _]; rewrite E; unfold drop_blank_lines.
  intros N; rewrite split_join.
  - apply Forall_forall; intros l H; apply filter_In in H.
    destruct H as [_ H]; now apply negb_true_iff.
  - apply Forall_filter_lines, split_nl_free.
  - intros Z; apply N; now rewrite Z.
Qed.

(** X9.  The clean-up of a body is idempotent: a cleaned body is trimmed,
    none of its lines is blank, and cleaning it again changes nothing. *)
Theorem clean_content_idempotent (body : text) :
  clean_content (clean_content body) = clean_content body
  /\ strip (clean_content body) = clean_content body
  /\ (clean_content body <> [] ->
      Forall (fun l => blank_line l = false) (split nl (clean_content body))).
Proof.
  destruct (clean_content_lines body) as [E T].
  assert (S : strip (clean_content body) = clean_content body) by now apply trimmed_strip.
  split; [|split; [exact S | apply clean_content_no_blank_line]].
  destruct (clean_content_lines (clean_content body)) as [E2 _].
  rewrite E2, S.
  destruct (list_eq_dec N.eq_dec (clean_content body) []) as [Z|N]; [now rewrite Z|].
  pose proof (@clean_content_no_blank_line body N) as F.
  unfold drop_blank_lines; rewrite filter_all_true; [apply join_split|].
  intros l H; rewrite Forall_forall in F; now rewrite (F l H).
Qed.

(** X10.  Every key of the parsed mapping is trimmed and holds no closing
    brace, every body is a cleaned body (trimmed, without blank line, left
    unchanged by the clean-up), and no key occurs twice. *)
Theorem parsed_entries_are_clean (tex_content : text) (entries : Dict.t text)
    (bounds : nat * nat) (opening_line : text) :
  fst (extract_bibliography_entries tex_content) = Some (entries, bounds, opening_line) ->
  NoDup (Dict.keys entries)
  /\ forall k v, Dict.get k entries = Some v ->
       trimmed k /\ ~ In rbrace k
       /\ trimmed v /\ clean_content v = v
       /\ (v <> [] -> Forall (fun l => blank_line l = false) (split nl v)).
Proof.
  intros X; split; [rewrite (extract_keys _ X); apply dedup_NoDup|].
  intros k v G.
  assert (I : forall m, In m (block_matches tex_content) ->
                        ~ In rbrace (strip (Re.group 1 m))).
  { unfold block_matches.
    destruct (Re.search begin_pattern tex_content); [|intros ? []].
    destruct (Re.search end_pattern tex_content); [|intros ? []].
    intros em; apply bibitem_key_no_brace. }
  apply extract_entries_fold in X; destruct X as [-> _].
  apply add_entry_get_origin in G; destruct G as [G|(m & Hm & -> & ->)]; [discriminate|].
  split; [apply strip_is_trimmed|]; split; [now apply I|].
  destruct (clean_content_lines (Re.group 2 m)) as [_ T].
  destruct (clean_content_lines (clean_content (Re.group 2 m))) as [E2 _].
  split; [exact T|]; split; [|apply clean_content_no_blank_line].
  rewrite E2, (trimmed_strip T).
  destruct (list_eq_dec N.eq_dec (clean_content (Re.group 2 m)) []) as [Z|N];
    [now rewrite Z|].
  pose proof (@clean_content_no_blank_line (Re.group 2 m) N) as F.
  unfold drop_blank_lines; rewrite filter_all_true; [apply join_split|].
  intros l H; rewrite Forall_forall in F; now rewrite (F l H).
Qed.

(** Witness of X10: the sample document. *)
Lemma parsed_entries_are_clean_witness :
  fst (extract_bibliography_entries sample_doc)
    = Some (sample_entries, (53, 160), sample_opening)
  /\ NoDup (Dict.keys sample_entries)
  /\ forall k v, Dict.get k sample_entries = Some v ->
       trimmed k /\ ~ In rbrace k
       /\ trimmed v /\ clean_content v = v
       /\ (v <> [] -> Forall (fun l => blank_line l = false) (split nl v)).
Proof.
  assert (E : fst (extract_bibliography_entries sample_doc)
              = Some (sample_entries, (53, 160), sample_opening))
    by (vm_compute; reflexivity).
  split; [exact E|].
  exact (@parsed_entries_are_clean sample_doc sample_entries (53, 160) sample_opening E).
Defined.

(** ** The tracker in general *)

Lemma insert_sorted_permutation (A : Type) (key : A -> Q) (x : A) (l : list A) :
  Permutation (insert_sorted key x l) (x :: l).
Proof.
  induction l as [|y l IH]; simpl; [reflexivity|].
  destruct (Qle_bool (key x) (key y)); [reflexivity|].
  rewrite IH; apply perm_swap.
Qed.

Lemma insert_sorted_sorted (A : Type) (key : A -> Q) (x : A) (l : list A) :
  StronglySorted (fun a b => (key a <= key b)%Q) l ->
  StronglySorted (fun a b => (key a <= key b)%Q) (insert_sorted key x l).
Proof.
  induction 1 as [|y l S1 IH F]; simpl; [repeat constructor|].
  destruct (Qle_bool (key x) (key y)) eqn:E.
  - apply Qle_bool_iff in E; constructor; [now constructor|].
    constructor; [assumption|].
    rewrite Forall_forall in *; intros z Hz; eapply Qle_trans; eauto.
  - assert (L : (key y <= key x)%Q).
    { destruct (Qlt_le_dec (key y) (key x)) as [G|G]; [now apply Qlt_le_weak|].
      apply Qle_bool_iff in G; congruence. }
    constructor; [assumption|].
    rewrite Forall_forall in *; intros z Hz.
    apply (Permutation_in _ (insert_sorted_permutation key x l)) in Hz.
    destruct Hz as [<-|Hz]; auto.
Qed.

Lemma sorted_sorted (A : Type) (key : A -> Q) (l : list A) :
  StronglySorted (fun a b => (key a <= key b)%Q) (sorted key l).
Proof.
  induction l as [|x l IH]; [constructor|].
  unfold sorted in *; simpl; now apply insert_sorted_sorted.
Qed.

(** X11.  Whatever the tracker holds, [get_ordered_citations] returns its
    keys, each as often as the index holds it, in an order in which the
    recorded positions never decrease. *)
Theorem ordered_citations_sorted (self : CitationTracker) :
  let sorted_citations := sorted snd (citations self) in
  get_ordered_citations self = map fst sorted_citations
  /\ Permutation sorted_citations (citations self)
  /\ StronglySorted (fun a b => (snd a <= snd b)%Q) sorted_citations
  /\ Permutation (get_ordered_citations self) (Dict.keys (citations self)).
Proof.
  cbv zeta; split; [reflexivity|]; split; [apply sorted_permutation|].
  split; [apply sorted_sorted|].
  unfold get_ordered_citations, Dict.keys; apply Permutation_map, sorted_permutation.
Qed.

Lemma dict_get_app_new (V : Type) (k k0 : text) (v : V) (d : Dict.t V) :
  Dict.get k0 (d ++ [(k, v)])
  = match Dict.get k0 d with
    | Some x => Some x
    | None => if text_eqb k0 k then Some v else None
    end.
Proof.
  induction d as [|[k' v'] d IH]; simpl; [reflexivity|].
  destruct (text_eqb k0 k'); [reflexivity | exact IH].
Qed.

(** One call of [add_citation]: a key that is already in the index keeps its
    position, a new key gets the position of the call, no other key changes,
    and an index without duplicate keys stays without. *)
Lemma add_citation_step (position : Q) (citation_key : text)
    (self : CitationTracker) :
  let self' := add_citation position citation_key self in
  let k := strip citation_key in
  citation_positions self' = citation_positions self ++ [(position, k)]
  /\ Dict.get k (citations self')
     = match Dict.get k (citations self) with
       | Some first => Some first
       | None => Some position
       end
  /\ (forall k', k' <> k -> Dict.get k' (citations self') = Dict.get k' (citations self))
  /\ (NoDup (Dict.keys (citations self)) -> NoDup (Dict.keys (citations self'))).
Proof.
  cbv zeta; unfold add_citation, Dict.mem; simpl.
  split; [reflexivity|].
  destruct (Dict.get (strip citation_key) (citations self)) as [q|] eqn:G.
  - rewrite G; repeat split; auto.
  - rewrite dict_get_app_new, G, text_eqb_refl; split; [reflexivity|]; split.
    + intros k' N; rewrite dict_get_app_new.
      apply text_eqb_false in N; rewrite N; now destruct (Dict.get k' (citations self)).
    + intros N; unfold Dict.keys; rewrite map_app; simpl.
      apply NoDup_app; [exact N | repeat constructor; simpl; tauto|].
      intros x Hx [<-|[]]; apply dict_get_none_keys in G; contradiction.
Qed.

Lemma record_all_tracks (calls : list (Q * text)) :
  tracks (record_all calls)
    (map (fun c => {| occ_pos := 0; occ_sub := 0; occ_q := fst c;
                      occ_key := strip (snd c) |}) calls).
Proof.
  unfold record_all.
  assert (G : forall tr os, tracks tr os ->
            tracks (fold_left (fun tr c => add_citation (fst c) (snd c) tr) calls tr)
              (os ++ map (fun c => {| occ_pos := 0; occ_sub := 0; occ_q := fst c;
                                      occ_key := strip (snd c) |}) calls)).
  { induction calls as [|c calls IH]; intros tr os T; simpl; [now rewrite app_nil_r|].
    match goal with
    | |- tracks _ (os ++ ?x :: ?t) =>
        replace (os ++ x :: t) with ((os ++ [x]) ++ t) by (now rewrite <- app_assoc)
    end.
    apply IH.
    apply (@tracks_add tr os {| occ_pos := 0; occ_sub := 0; occ_q := fst c;
                                occ_key := strip (snd c) |} (snd c) T eq_refl). }
  apply (G new_tracker []); split; reflexivity.
Qed.

Lemma first_occs_In_first (o : Occurrence) (os1 os2 : list Occurrence) :
  forall seen,
    ~ In (occ_key o) seen -> ~ In (occ_key o) (map occ_key os1) ->
    In o (first_occs seen (os1 ++ o :: os2)).
Proof.
  induction os1 as [|a os1 IH]; intros seen N1 N2; simpl.
  - apply in_set_false in N1; rewrite N1; now left.
  - destruct (in_set (occ_key a) seen); [apply IH; simpl in N2; tauto|].
    right; apply IH; simpl in *; [intros [E|H]; auto | tauto].
Qed.

Lemma dict_get_In (V : Type) (k : text) (v : V) (d : Dict.t V) :
  NoDup (Dict.keys d) -> In (k, v) d -> Dict.get k d = Some v.
Proof.
  induction d as [|[k' v'] d IH]; intros N I; [destruct I|].
  simpl in *; inversion N; subst.
  destruct I as [E|I].
  - injection E as -> ->; now rewrite text_eqb_refl.
  - destruct (text_eqb k k') eqn:E; [|now apply IH].
    apply text_eqb_true in E; subst k'.
    exfalso; match goal with H : ~ In _ _ |- _ => apply H end.
    apply in_map_iff; exists (k, v); auto.
Qed.

(** X12.  After any sequence of [add_citation] calls on a new tracker,
    [citation_positions] lists every call with its stripped key, the index
    holds each stripped key once, in the order of the first calls, and the
    position stored for a key is that of the first call made for it. *)
Theorem tracker_keeps_first_positions (calls : list (Q * text)) :
  let self := record_all calls in
  citation_positions self = map (fun c => (fst c, strip (snd c))) calls
  /\ Dict.keys (citations self)
     = first_occurrences (map (fun c => strip (snd c)) calls)
  /\ NoDup (Dict.keys (citations self))
  /\ forall calls1 c calls2,
       calls = calls1 ++ c :: calls2 ->
       (forall c', In c' calls1 -> strip (snd c') <> strip (snd c)) ->
       Dict.get (strip (snd c)) (citations self) = Some (fst c).
Proof.
  cbv zeta; destruct (record_all_tracks calls) as [T1 T2].
  set (mk := fun c : Q * text => {| occ_pos := 0; occ_sub := 0; occ_q := fst c;
                                    occ_key := strip (snd c) |}) in *.
  assert (K : Dict.keys (citations (record_all calls))
              = first_occurrences (map (fun c => strip (snd c)) calls)).
  { rewrite T2; unfold Dict.keys; rewrite map_map; simpl.
    change (map (fun x => occ_key x) (first_occs [] (map mk calls)))
      with (map occ_key (first_occs [] (map mk calls))).
    rewrite first_occs_keys, map_map; reflexivity. }
  assert (N : NoDup (Dict.keys (citations (record_all calls))))
    by (rewrite K; apply dedup_NoDup).
  split; [rewrite T1, map_map; reflexivity|]; split; [exact K|]; split; [exact N|].
  intros calls1 c calls2 E F.
  apply dict_get_In; [exact N|].
  rewrite T2; apply in_map_iff; exists (mk c); split; [reflexivity|].
  rewrite E, map_app; simpl; apply first_occs_In_first; [simpl; tauto|].
  rewrite map_map; intros I; apply in_map_iff in I; destruct I as (c' & E' & I).
  now apply (F c' I).
Qed.

(** ** The scanner *)

Lemma split_sep_free (sep : char) (s : text) :
  Forall (fun l => ~ In sep l) (split sep s).
Proof.
  induction s as [|c s IH]; simpl; [repeat constructor; auto|].
  destruct (N.eqb_spec c sep) as [->|N]; [constructor; auto|].
  destruct (split sep s) as [|h t]; [repeat constructor; simpl; intuition|].
  inversion IH; subst; constructor; [simpl; intuition | assumption].
Qed.

Lemma split_In (sep x : char) (s l : text) :
  In l (split sep s) -> In x l -> In x s.
Proof.
  revert l; induction s as [|c s IH]; intros l; simpl.
  - intros [<-|[]] [].
  - destruct (c =? sep)%N.
    + intros [<-|H] I; [destruct I | right; eapply IH; eauto].
    + destruct (split sep s) as [|h t] eqn:E.
      * intros [<-|[]] [<-|[]]; now left.
      * intros [<-|H] I.
        -- destruct I as [<-|I]; [now left | right; apply (IH h); simpl; auto].
        -- right; apply (IH l); simpl; auto.
Qed.

Lemma contains_false (c : char) (s : text) : contains c s = false -> ~ In c s.
Proof.
  unfold contains; intros H I.
  assert (existsb (N.eqb c) s = true)
    by (apply existsb_exists; exists c; split; [assumption | apply N.eqb_refl]).
  congruence.
Qed.

Lemma split_without_sep (sep : char) (s : text) : ~ In sep s -> split sep s = [s].
Proof.
  induction s as [|c s IH]; intros H; simpl; [reflexivity|].
  destruct (N.eqb_spec c sep) as [->|N]; [exfalso; apply H; now left|].
  rewrite IH by (intros ?; apply H; now right); reflexivity.
Qed.

Lemma strip_idempotent (s : text) : strip (strip s) = strip s.
Proof. apply trimmed_strip, strip_is_trimmed. Qed.

Lemma cite_group_no_brace (tex_content : text) (m : Re.Match) :
  In m (Re.finditer cite_pattern tex_content) -> ~ In rbrace (Re.group 1 m).
Proof.
  intros H I; apply finditer_In in H; destruct H as (rest & _ & M & _).
  apply match_at_sound, cite_match_shape in M.
  destruct M as (opt & g & _ & _ & F & C).
  unfold Re.group in I; rewrite C in I; simpl in I.
  rewrite Forall_forall in F; apply F in I.
  unfold not_char in I; now rewrite N.eqb_refl in I.
Qed.

(** The keys of the occurrences of a marker are the components of its
    braces, stripped, whether the braces hold a comma or not. *)
Lemma match_occurrences_keys (m : Re.Match) :
  map occ_key (match_occurrences m) = map strip (split comma (Re.group 1 m))
  /\ map occ_sub (match_occurrences m)
     = seq 0 (length (split comma (Re.group 1 m))).
Proof.
  unfold match_occurrences; destruct (contains comma (Re.group 1 m)) eqn:C.
  - rewrite !map_map; simpl; unfold enumerate.
    set (l := map strip (split comma (Re.group 1 m))).
    assert (L : length (split comma (Re.group 1 m)) = length l)
      by (unfold l; now rewrite length_map).
    rewrite L; split.
    + transitivity (map strip l).
      * clearbody l; clear L; generalize 0.
        induction l as [|x l IH]; intros n; simpl; [reflexivity|]; now rewrite IH.
      * unfold l; rewrite map_map; apply map_ext; intros; apply strip_idempotent.
    + clearbody l; clear L; generalize 0.
      induction l as [|x l IH]; intros n; simpl; [reflexivity|]; now rewrite IH.
  - apply contains_false in C; rewrite (@split_without_sep comma _ C); simpl.
    now rewrite strip_idempotent.
Qed.

(** X13.  The keys handed to the tracker are, marker by marker and in
    order, the comma-separated components of the braces, stripped; a marker
    without comma is the case of one component.  No tracked key holds a
    comma or a closing brace or has whitespace at either end. *)
Theorem scanned_keys_are_components (tex_content : text) :
  let tr := find_all_citations tex_content in
  map snd (citation_positions tr)
    = flat_map (fun m => map strip (split comma (Re.group 1 m)))
        (Re.finditer cite_pattern tex_content)
  /\ get_ordered_citations tr
     = first_occurrences
         (flat_map (fun m => map strip (split comma (Re.group 1 m)))
            (Re.finditer cite_pattern tex_content))
  /\ forall k, In k (map snd (citation_positions tr)) ->
       trimmed k /\ ~ In comma k /\ ~ In rbrace k.
Proof.
  cbv zeta.
  destruct (find_all_citations_tracks tex_content) as [T1 _].
  assert (K : map occ_key (occurrences tex_content)
              = flat_map (fun m => map strip (split comma (Re.group 1 m)))
                  (Re.finditer cite_pattern tex_content)).
  { unfold occurrences.
    induction (Re.finditer cite_pattern tex_content) as [|m ms IH]; [reflexivity|].
    simpl; rewrite map_app, IH; f_equal; apply match_occurrences_keys. }
  assert (P : map snd (citation_positions (find_all_citations tex_content))
              = map occ_key (occurrences tex_content))
    by (rewrite T1, map_map; reflexivity).
  split; [now rewrite P|]; split.
  - rewrite ordered_citations_firsts, first_occs_keys, K; reflexivity.
  - intros k; rewrite P, K; intros I.
    apply in_flat_map in I; destruct I as (m & Hm & I).
    apply in_map_iff in I; destruct I as (c & <- & Hc).
    split; [apply strip_is_trimmed|]; split; intros J; apply strip_In in J.
    + pose proof (split_sep_free comma (Re.group 1 m)) as F.
      rewrite Forall_forall in F; now apply (F c Hc).
    + apply (@cite_group_no_brace tex_content m Hm).
      exact (@split_In comma rbrace (Re.group 1 m) c Hc J).
Qed.

(** ** What the reconciler prints *)

Lemma unused_fold_printed (bib_entries : Dict.t text) (l : list text) :
  forall st : Reorder,
    (forall k, In k l -> In k (Dict.keys bib_entries)) ->
    printed (fold_left (unused_step bib_entries) l st)
      = printed st ++ map UnusedAdded l
    /\ used_citations (fold_left (unused_step bib_entries) l st) = used_citations st.
Proof.
  induction l as [|k l IH]; intros st H; simpl; [now rewrite app_nil_r|].
  destruct (IH (unused_step bib_entries st k)) as [E1 E2];
    [intros; apply H; now right|].
  rewrite E1, E2; unfold unused_step.
  destruct (Dict.get k bib_entries) eqn:G; simpl.
  - now rewrite <- app_assoc.
  - apply dict_get_none_keys in G; exfalso; apply G, H; now left.
Qed.

Lemma unused_keys_orphans (order : list text) (bib_entries : Dict.t text) :
  unused_keys (rev (matched_keys order bib_entries)) bib_entries
  = orphan_keys order bib_entries.
Proof.
  unfold unused_keys, orphan_keys; apply filter_ext_in; intros k Hk; f_equal.
  destruct (in_set k order) eqn:E.
  - apply in_set_In; rewrite <- in_rev; apply matched_keys_In.
    apply in_set_In in E; tauto.
  - apply in_set_false; rewrite <- in_rev, matched_keys_In.
    apply in_set_false in E; tauto.
Qed.

Lemma unused_pass_printed (bib_entries : Dict.t text) (st : Reorder) :
  printed (unused_pass bib_entries st)
    = printed st
      ++ match unused_keys (used_citations st) bib_entries with
         | [] => []
         | _ :: _ =>
             AddingUnused (length (unused_keys (used_citations st) bib_entries))
               :: map UnusedAdded (unused_keys (used_citations st) bib_entries)
         end
  /\ used_citations (unused_pass bib_entries st) = used_citations st.
Proof.
  unfold unused_pass; fold (unused_keys (used_citations st) bib_entries).
  assert (H : forall k, In k (unused_keys (used_citations st) bib_entries) ->
                        In k (Dict.keys bib_entries))
    by (intros k Hk; apply filter_In in Hk; tauto).
  destruct (unused_keys (used_citations st) bib_entries) as [|k l] eqn:E.
  - now rewrite app_nil_r.
  - destruct (unused_fold_printed bib_entries (k :: l)
                {| reordered_entries := reordered_entries st;
                   used_citations := used_citations st;
                   printed := printed st ++ [AddingUnused (length (k :: l))] |} H)
      as [P1 P2].
    rewrite P1, P2; cbn [printed used_citations]; now rewrite <- app_assoc.
Qed.

(** X14.  The reconciler writes the entries of the cited keys that have an
    entry, in citation order, and then the entries that no citation names,
    in the order of the mapping.  It prints the number of citations, one
    line for each cited key with its rank (added or missing) and, when some
    entry is not cited, the number of these entries and one line for each. *)
Theorem reconciler_output_and_log (citation_order : list text) (bib_entries : Dict.t text) :
  let st := reorder citation_order bib_entries in
  let orphans := orphan_keys citation_order bib_entries in
  reordered_entries st
    = map (entry_of bib_entries) (matched_keys citation_order bib_entries)
      ++ map (entry_of bib_entries) orphans
  /\ printed st
     = Processing (length citation_order)
       :: map (step_diag bib_entries) (enumerate 1 citation_order)
       ++ match orphans with
          | [] => []
          | _ :: _ => AddingUnused (length orphans) :: map UnusedAdded orphans
          end
  /\ (forall k, In k (used_citations st)
        <-> In k citation_order /\ In k (Dict.keys bib_entries)).
Proof.
  cbv zeta; unfold reorder.
  destruct (citation_pass_spec citation_order bib_entries) as (E1 & E2 & E3).
  pose proof (unused_keys_orphans citation_order bib_entries) as U.
  destruct (unused_pass_printed bib_entries (citation_pass citation_order bib_entries))
    as [P1 P2].
  rewrite unused_pass_entries, P1, P2, E1, E2, E3, U.
  split; [reflexivity|]; split; [reflexivity|].
  intros x; rewrite <- in_rev; apply matched_keys_In.
Qed.

(** ** The debug listing *)

Lemma get_first_occs (os : list Occurrence) (k : text) :
  forall seen, ~ In k seen ->
  Dict.get k (map (fun o => (occ_key o, occ_q o)) (first_occs seen os)) = first_q os k.
Proof.
  induction os as [|o os IH]; intros seen N; simpl; [reflexivity|].
  destruct (in_set (occ_key o) seen) eqn:E.
  - apply in_set_In in E.
    destruct (text_eqb k (occ_key o)) eqn:T; [|now apply IH].
    apply text_eqb_true in T; subst k; contradiction.
  - simpl; destruct (text_eqb k (occ_key o)) eqn:T; [reflexivity|].
    apply IH; apply text_eqb_false in T; simpl; intros [H|H]; auto.
Qed.

Lemma tracks_get (tr : CitationTracker) (os : list Occurrence) (k : text) :
  tracks tr os -> Dict.get k (citations tr) = first_q os k.
Proof. intros [_ T]; rewrite T; now apply get_first_occs. Qed.

Lemma first_q_app (a b : list Occurrence) (k : text) :
  first_q (a ++ b) k
  = match first_q a k with Some q => Some q | None => first_q b k end.
Proof.
  induction a as [|o a IH]; simpl; [reflexivity|].
  destruct (text_eqb k (occ_key o)); [reflexivity | exact IH].
Qed.

Lemma first_q_In (os : list Occurrence) (k : text) (q : Q) :
  first_q os k = Some q -> exists o, In o os /\ occ_key o = k /\ occ_q o = q.
Proof.
  induction os as [|o os IH]; simpl; [discriminate|].
  destruct (text_eqb k (occ_key o)) eqn:T.
  - apply text_eqb_true in T; intros H; injection H as <-; exists o; auto.
  - intros H; destruct (IH H) as (o' & I & E); exists o'; auto.
Qed.

Lemma first_q_None (os : list Occurrence) (k : text) :
  first_q os k = None <-> ~ In k (map occ_key os).
Proof.
  induction os as [|o os IH]; simpl; [tauto|].
  destruct (text_eqb k (occ_key o)) eqn:T.
  - apply text_eqb_true in T; split; [discriminate | intros H; exfalso; auto].
  - apply text_eqb_false in T; rewrite IH; split; [intros H [E|I] | intros H I]; auto.
Qed.

Lemma first_flags_ext (s1 s2 l : list text) :
  (forall x, In x s1 <-> In x s2) -> first_flags s1 l = first_flags s2 l.
Proof.
  revert s1 s2; induction l as [|k l IH]; intros s1 s2 H; simpl; [reflexivity|].
  rewrite (in_set_ext _ _ H k); f_equal; apply IH; intros x; simpl; now rewrite H.
Qed.

Lemma Qeq_bool_refl (q : Q) : Qeq_bool q q = true.
Proof. apply Qeq_bool_iff; reflexivity. Qed.

Lemma StronglySorted_app_rel (A : Type) (R : A -> A -> Prop) (l1 l2 : list A)
    (a b : A) :
  StronglySorted R (l1 ++ l2) -> In a l1 -> In b l2 -> R a b.
Proof.
  induction l1 as [|x l1 IH]; simpl; intros St Ia Ib; [contradiction|].
  apply StronglySorted_inv in St; destruct St as [St F].
  destruct Ia as [->|Ia]; [|now apply IH].
  rewrite Forall_forall in F; apply F, in_or_app; now right.
Qed.

(** The lines of the listing for a run of occurrences that lies in the
    scanned list [pre ++ os ++ post]. *)
Lemma debug_lines_spec (tr : CitationTracker) (tex_content : text)
    (os : list Occurrence) :
  forall (pre post : list Occurrence) (n : nat),
    StronglySorted occ_lt (pre ++ os ++ post) ->
    (forall k, Dict.get k (citations tr) = first_q (pre ++ os ++ post) k) ->
    exists listing,
      map_all (debug_line tr tex_content)
        (enumerate n (map (fun o => (occ_q o, occ_key o)) os)) = Some listing
      /\ map dbg_cite listing = map occ_key os
      /\ map dbg_pos listing = map (fun o => int_of (occ_q o)) os
      /\ map dbg_context listing
         = map (fun o => debug_context tex_content (int_of (occ_q o))) os
      /\ map dbg_first listing = first_flags (map occ_key pre) (map occ_key os)
      /\ map dbg_rank listing = seq (n + 1) (length os).
Proof.
  induction os as [|o os IH]; intros pre post n St G.
  - exists []; repeat split; reflexivity.
  - cbn [map]; rewrite enumerate_cons; cbn [map_all debug_line].
    destruct (IH (pre ++ [o]) post (S n)) as (L & E1 & E2 & E3 & E3' & E4 & E5).
    { now rewrite <- app_assoc. }
    { intros k; rewrite G, <- app_assoc; reflexivity. }
    assert (Fl : forall x, In x (map occ_key (pre ++ [o])) <-> In x (occ_key o :: map occ_key pre)).
    { intros x; rewrite map_app, in_app_iff; simpl; tauto. }
    rewrite G, first_q_app; cbn [first_q app]; rewrite text_eqb_refl.
    destruct (first_q pre (occ_key o)) as [q'|] eqn:F.
    + rewrite E1; eexists; split; [reflexivity|].
      cbn [map dbg_cite dbg_first dbg_rank dbg_pos dbg_context length seq first_flags].
      rewrite E2, E3, E3', E5, E4, (@first_flags_ext _ _ _ Fl).
      replace (S n + 1) with (S (n + 1)) by lia.
      repeat split; f_equal.
      destruct (first_q_In _ _ F) as (o' & I & K & Q').
      assert (H : In (occ_key o) (map occ_key pre))
        by (apply in_map_iff; exists o'; auto).
      apply in_set_In in H; rewrite H; simpl.
      assert (Lt : occ_lt o' o).
      { apply (@StronglySorted_app_rel _ occ_lt pre ((o :: os) ++ post) o' o St I);
          simpl; now left. }
      destruct Lt as [_ Lt]; rewrite Q' in Lt.
      destruct (Qeq_bool (occ_q o) q') eqn:B; [|reflexivity].
      apply Qeq_bool_iff in B; rewrite B in Lt; now apply Qlt_irrefl in Lt.
    + rewrite E1; eexists; split; [reflexivity|].
      cbn [map dbg_cite dbg_first dbg_rank dbg_pos dbg_context length seq first_flags].
      rewrite E2, E3, E3', E5, E4, (@first_flags_ext _ _ _ Fl).
      replace (S n + 1) with (S (n + 1)) by lia.
      repeat split; f_equal.
      apply first_q_None in F; apply in_set_false in F; rewrite F; simpl.
      apply Qeq_bool_refl.
Qed.

Lemma unique_lines_spec (tr : CitationTracker) (fs : list Occurrence) :
  (forall o, In o fs -> Dict.get (occ_key o) (citations tr) = Some (occ_q o)) ->
  forall n,
    map_all (unique_line tr) (enumerate n (map occ_key fs))
    = Some (map (fun io => (fst io, occ_key (snd io), occ_q (snd io))) (enumerate n fs)).
Proof.
  induction fs as [|o fs IH]; intros H n; [reflexivity|].
  cbn [map]; rewrite !enumerate_cons; cbn [map_all map fst snd].
  unfold unique_line at 1; cbn [fst snd]; rewrite (H o) by now left.
  rewrite IH by (intros; apply H; now right); reflexivity.
Qed.

Lemma first_flags_firstn (n : nat) (l : list text) :
  forall seen, first_flags seen (firstn n l) = firstn n (first_flags seen l).
Proof.
  revert l; induction n as [|n IH]; intros [|k l] seen; simpl; try reflexivity.
  now rewrite IH.
Qed.

Lemma first_flags_nth (l : list text) :
  forall (seen : list text) (i : nat) (k : text),
    nth_error l i = Some k ->
    exists b, nth_error (first_flags seen l) i = Some b
              /\ (b = true <-> ~ In k seen /\ ~ In k (firstn i l)).
Proof.
  induction l as [|x l IH]; intros seen [|i] k H; simpl in H; try discriminate.
  - injection H as ->; simpl; eexists; split; [reflexivity|].
    rewrite negb_true_iff, in_set_false; tauto.
  - destruct (IH (x :: seen) i k H) as (b & E & B).
    exists b; split; [exact E|]; rewrite B; simpl; intuition congruence.
Qed.

Lemma int_of_offset (p i : nat) :
  int_of (offset_position p i) = Z.of_nat (p + i / 1000).
Proof.
  rewrite Nat2Z.inj_add, Nat2Z.inj_div.
  change (Z.of_nat 1000) with 1000%Z.
  unfold int_of, offset_position, int_position; cbn.
  rewrite Z.quot_div_nonneg by lia.
  rewrite !Z.mul_1_r, Z.div_add_l by lia; reflexivity.
Qed.

Lemma int_of_int_position (p : nat) : int_of (int_position p) = Z.of_nat p.
Proof. unfold int_of, int_position; cbn; apply Z.quot_1_r. Qed.

Lemma occurrences_numbered (tex_content : text) (o : Occurrence) :
  In o (occurrences tex_content) -> numbered o.
Proof.
  unfold occurrences; intros H; apply in_flat_map in H; destruct H as (m & _ & H).
  now apply match_occurrences_In in H.
Qed.

Lemma int_of_numbered (o : Occurrence) :
  numbered o -> int_of (occ_q o) = Z.of_nat (occ_pos o + occ_sub o / 1000).
Proof.
  intros [E|[E1 E2]]; [rewrite E; apply int_of_offset|].
  rewrite E2, E1, int_of_int_position; simpl; f_equal; lia.
Qed.

(** X15.  The debug listing of a scanned document.  For the tracker that
    [find_all_citations] returns, [print_debug_info] never fails on a lookup.
    Its first part has one line for each of the first fifteen key
    occurrences, in scan order and numbered from 1; the line shows the key,
    the position of the marker (plus one for each full thousand of keys
    before it in the same marker) and the context around that position, and
    it is marked as a first appearance exactly when the key does not occur
    earlier in the scan.  Its second part lists the first occurrence of each
    key, in scan order and numbered from 1, with the recorded position. *)
Theorem debug_listing_of_scan (tex_content : text) :
  let tr := find_all_citations tex_content in
  let occs := occurrences tex_content in
  let shown := firstn 15 occs in
  exists listing unique,
    print_debug_info tr tex_content = Some (listing, unique)
    /\ map dbg_cite listing = map occ_key shown
    /\ map dbg_rank listing = seq 1 (length shown)
    /\ map dbg_pos listing = map (fun o => Z.of_nat (occ_pos o + occ_sub o / 1000)) shown
    /\ (forall line, In line listing ->
          dbg_context line = debug_context tex_content (dbg_pos line))
    /\ map dbg_first listing = firstn 15 (first_flags [] (map occ_key occs))
    /\ (forall i line, nth_error listing i = Some line ->
          (dbg_first line = true <-> ~ In (dbg_cite line) (firstn i (map occ_key occs))))
    /\ unique = map (fun io => (fst io, occ_key (snd io), occ_q (snd io)))
                    (enumerate 1 (first_occs [] occs)).
Proof.
  intros tr occs shown.
  pose proof (find_all_citations_tracks tex_content) as T.
  pose proof (occurrences_sorted tex_content) as St.
  fold occs in St; fold tr occs in T.
  assert (Sp : occs = [] ++ shown ++ skipn 15 occs)
    by (unfold shown; cbn [app]; symmetry; apply firstn_skipn).
  destruct (@debug_lines_spec tr tex_content shown [] (skipn 15 occs) 0)
    as (L & E1 & E2 & E3 & E4 & E5 & E6).
  { now rewrite <- Sp. }
  { intros k; rewrite <- Sp; now apply tracks_get. }
  assert (U : map_all (unique_line tr) (enumerate 1 (get_ordered_citations tr))
              = Some (map (fun io => (fst io, occ_key (snd io), occ_q (snd io)))
                          (enumerate 1 (first_occs [] occs)))).
  { unfold tr at 2; rewrite ordered_citations_firsts; fold occs.
    apply unique_lines_spec; intros o I.
    destruct T as [_ T]; rewrite T; apply dict_get_In.
    - unfold Dict.keys; rewrite map_map; cbn [fst].
      change (map (fun x : Occurrence => occ_key x)) with (map occ_key).
      rewrite first_occs_keys; apply dedup_NoDup.
    - apply in_map_iff; exists o; auto. }
  assert (P : citation_positions tr = map (fun o => (occ_q o, occ_key o)) occs)
    by apply T.
  assert (E3' : map dbg_pos L
                = map (fun o => Z.of_nat (occ_pos o + occ_sub o / 1000)) shown).
  { rewrite E3; apply map_ext_in; intros o I; apply int_of_numbered.
    apply (@occurrences_numbered tex_content); fold occs.
    unfold shown in I; rewrite <- (firstn_skipn 15 occs); apply in_or_app; now left. }
  exists L, (map (fun io => (fst io, occ_key (snd io), occ_q (snd io)))
                 (enumerate 1 (first_occs [] occs))).
  split; [|split; [exact E2 | split; [exact E6 | split; [exact E3'|]]]].
  - unfold print_debug_info; rewrite P, U, firstn_map; fold shown.
    now rewrite E1.
  - split; [|split; [|split; [|reflexivity]]].
    + intros line I; apply In_nth_error in I; destruct I as [i I].
      pose proof (map_nth_error dbg_context _ _ I) as C.
      pose proof (map_nth_error dbg_pos _ _ I) as D.
      rewrite E4 in C; rewrite E3 in D.
      destruct (nth_error shown i) as [o|] eqn:N.
      * rewrite (map_nth_error _ _ _ N) in C; rewrite (map_nth_error _ _ _ N) in D.
        injection C as <-; injection D as <-; reflexivity.
      * apply nth_error_None in N.
        assert (i < length (map dbg_pos L))
          by (rewrite length_map; apply nth_error_Some; congruence).
        rewrite E3, length_map in H; lia.
    + rewrite E5; unfold shown; rewrite <- firstn_map; cbn [map].
      apply first_flags_firstn.
    + intros i line I.
      pose proof (map_nth_error dbg_first _ _ I) as F.
      pose proof (map_nth_error dbg_cite _ _ I) as K.
      rewrite E5 in F; rewrite E2 in K.
      destruct (@first_flags_nth (map occ_key shown) [] i (dbg_cite line) K)
        as (b & B1 & B2).
      simpl in F; rewrite B1 in F; injection F as ->.
      rewrite B2.
      assert (Li : i < 15).
      { assert (i < length (map occ_key shown))
          by (apply nth_error_Some; congruence).
        rewrite length_map in H; unfold shown in H; rewrite length_firstn in H; lia. }
      unfold shown; rewrite <- firstn_map, firstn_firstn.
      replace (Nat.min i 15) with i by lia.
      simpl; tauto.
Qed.

Lemma replace_one_char (a b : char) (s : text) :
  replace [a] [b] s = map (fun c => if (c =? a)%N then b else c) s.
Proof.
  unfold replace; induction s as [|c s IH]; [reflexivity|].
  cbn [replace_from starts_with map length].
  rewrite andb_true_r, (N.eqb_sym c a); destruct (a =? c)%N; simpl; now rewrite IH.
Qed.

Lemma lstrip_length (s : text) : length (lstrip s) <= length s.
Proof.
  destruct (lstrip_suffix s) as [w E]; rewrite E at 2; rewrite length_app; lia.
Qed.

Lemma strip_length (s : text) : length (strip s) <= length s.
Proof.
  unfold strip, rstrip; rewrite length_rev.
  pose proof (lstrip_length (rev (lstrip s))) as H; rewrite length_rev in H.
  pose proof (lstrip_length s); lia.
Qed.

Lemma slice_In (a b : nat) (s : text) (c : char) : In c (slice a b s) -> In c s.
Proof.
  unfold slice; intros H.
  rewrite <- (firstn_skipn a s); apply in_or_app; right.
  rewrite <- (firstn_skipn (b - a) (skipn a s)); apply in_or_app; now left.
Qed.

(** X16.  The context shown for a citation is the text from twenty
    characters before its position to forty characters after it, cut at the
    ends of the document, with each line break turned into a space and the
    whitespace at both ends removed.  So it holds no line break, neither
    starts nor ends with whitespace, has at most sixty characters, and each
    of its characters is a character of the document or a space. *)
Theorem debug_context_shape (tex_content : text) (p : nat) :
  let context := debug_context tex_content (Z.of_nat p) in
  context = strip (map (fun c => if (c =? nl)%N then 32%N else c)
                       (slice (p - 20) (Nat.min (length tex_content) (p + 40)) tex_content))
  /\ ~ In nl context
  /\ trimmed context
  /\ length context <= 60
  /\ (forall c, In c context -> In c tex_content \/ c = 32%N).
Proof.
  cbv zeta; unfold debug_context.
  replace (Z.to_nat (Z.max 0 (Z.of_nat p - 20))) with (p - 20) by lia.
  replace (Z.to_nat (Z.min (Z.of_nat (length tex_content)) (Z.of_nat p + 40)))
    with (Nat.min (length tex_content) (p + 40)) by lia.
  rewrite replace_one_char.
  set (piece := slice (p - 20) (Nat.min (length tex_content) (p + 40)) tex_content).
  split; [reflexivity|].
  assert (I : forall c, In c (strip (map (fun c => if (c =? nl)%N then 32%N else c) piece)) ->
                        c <> nl /\ (In c tex_content \/ c = 32%N)).
  { intros c H; apply strip_In, in_map_iff in H; destruct H as (x & E & H).
    destruct (x =? nl)%N eqn:X.
    - subst c; split; [discriminate | now right].
    - subst c; apply N.eqb_neq in X; split; [exact X | left].
      now apply slice_In in H. }
  split; [intros H; now apply I in H|].
  split; [apply strip_is_trimmed|].
  split; [|intros c H; now apply I in H].
  etransitivity; [apply strip_length|].
  rewrite length_map; unfold piece, slice; rewrite length_firstn; lia.
Qed.

(** ** The citation pattern *)

Lemma star_greedy (p : char -> bool) (k : text -> option Re.result)
    (g s : text) (x : Re.result) :
  Forall (fun c => p c = true) g ->
  (s = [] \/ exists c s', s = c :: s' /\ p c = false) ->
  k s = Some x ->
  Re.star p k (g ++ s) = Some x.
Proof.
  intros F E K; induction F as [|a g Pa F IH]; simpl.
  - destruct E as [->|(c & s' & -> & Pc)]; simpl; [exact K | now rewrite Pc].
  - now rewrite Pa, IH.
Qed.

Lemma cite_braces_run (g rest : text) (c0 : Re.caps) :
  g <> [] -> Forall (fun x => not_char rbrace x = true) g ->
  Re.run (Re.Str (txt "{") +++ Re.Group 1 (Re.Plus (not_char rbrace)) +++ Re.Str (txt "}"))
         (txt "{" ++ g ++ txt "}" ++ rest) c0 (fun s c => Some (s, c))
  = Some (rest, (1, g) :: c0).
Proof.
  intros N F; cbn [Re.run].
  rewrite strip_prefix_complete.
  destruct g as [|ch g]; [congruence|].
  inversion F as [|? ? Pc F']; subst.
  cbn [app]; rewrite Pc.
  apply star_greedy; [assumption | right; exists rbrace, rest; split; reflexivity|].
  change (txt "}" ++ rest) with ([rbrace] ++ rest).
  rewrite strip_prefix_complete.
  change (ch :: g ++ [rbrace] ++ rest) with ((ch :: g) ++ [rbrace] ++ rest).
  rewrite (@firstn_app_minus _ (ch :: g) ([rbrace] ++ rest)); reflexivity.
Qed.

Lemma cite_match_complete (opt g rest : text) :
  (opt = [] \/ exists o, opt = txt "[" ++ o ++ txt "]"
                         /\ Forall (fun x => not_char rbracket x = true) o) ->
  g <> [] -> Forall (fun x => not_char rbrace x = true) g ->
  Re.match_at cite_pattern (txt "\cite" ++ opt ++ txt "{" ++ g ++ txt "}" ++ rest)
  = Some (rest, [(1, g)]).
Proof.
  intros O N F; unfold Re.match_at, cite_pattern.
  cbn [Re.run]; rewrite strip_prefix_complete.
  pose proof (@cite_braces_run g rest [] N F) as T; cbn [Re.run] in T.
  destruct O as [->|(o & -> & Fo)].
  - cbn [app]; change (txt "{" ++ g ++ txt "}" ++ rest)
      with (123%N :: g ++ txt "}" ++ rest).
    cbn [Re.strip_prefix txt]; simpl N.eqb; cbv iota.
    exact T.
  - rewrite <- !app_assoc, strip_prefix_complete.
    rewrite (@star_greedy (not_char rbracket) _ o
               (txt "]" ++ txt "{" ++ g ++ txt "}" ++ rest) (rest, [(1, g)]));
      [reflexivity | assumption | right; eexists _, _; split; reflexivity|].
    change (txt "]" ++ txt "{" ++ g ++ txt "}" ++ rest)
      with ([rbracket] ++ txt "{" ++ g ++ txt "}" ++ rest).
    rewrite strip_prefix_complete; exact T.
Qed.

Lemma cite_match_shape_full (t rest : text) (c : Re.caps) :
  matches cite_pattern t [] rest c ->
  exists opt g,
    t = txt "\cite" ++ opt ++ txt "{" ++ g ++ txt "}" ++ rest
    /\ (opt = [] \/ exists o, opt = txt "[" ++ o ++ txt "]"
                              /\ Forall (fun x => not_char rbracket x = true) o)
    /\ g <> [] /\ Forall (fun x => not_char rbrace x = true) g
    /\ c = [(1, g)].
Proof.
  unfold cite_pattern; intros H; inv_matches; rewrite firstn_app_minus.
  - exists (txt "[" ++ pre0 ++ txt "]"), pre.
    split; [now rewrite <- !app_assoc|].
    split; [right; exists pre0; auto | auto].
  - exists [], pre; auto.
Qed.

Lemma not_char_Forall (a : char) (s : text) :
  Forall (fun x => not_char a x = true) s <-> ~ In a s.
Proof.
  rewrite Forall_forall; unfold not_char; split.
  - intros H I; apply H in I; now rewrite N.eqb_refl in I.
  - intros H x I; apply negb_true_iff, N.eqb_neq; intros ->; contradiction.
Qed.

(** X17.  What counts as a citation marker.  The citation pattern matches at
    the head of a text exactly when the text starts with [\cite], then
    optionally a bracket pair around a text without a closing bracket, then a
    brace pair around a non-empty text without a closing brace; the match
    ends with that closing brace and group 1 is the text between the braces.
    So a command such as [\citep{k}] or [\cite {k}] is no marker.  The
    markers found in a document all have this shape, lie inside the document,
    come in scan order and do not overlap. *)
Theorem citation_marker_shape (tex_content : text) :
  (forall t rest c,
     Re.match_at cite_pattern t = Some (rest, c) <->
     exists opt g,
       t = txt "\cite" ++ opt ++ txt "{" ++ g ++ txt "}" ++ rest
       /\ (opt = [] \/ exists o, opt = txt "[" ++ o ++ txt "]" /\ ~ In rbracket o)
       /\ g <> [] /\ ~ In rbrace g /\ c = [(1, g)])
  /\ Forall (fun m =>
       exists opt g,
         matched_text m tex_content = txt "\cite" ++ opt ++ txt "{" ++ g ++ txt "}"
         /\ (opt = [] \/ exists o, opt = txt "[" ++ o ++ txt "]" /\ ~ In rbracket o)
         /\ g <> [] /\ ~ In rbrace g /\ Re.group 1 m = g
         /\ Re.m_end m <= length tex_content)
       (Re.finditer cite_pattern tex_content)
  /\ StronglySorted before (Re.finditer cite_pattern tex_content).
Proof.
  assert (A : forall t rest c,
     Re.match_at cite_pattern t = Some (rest, c) <->
     exists opt g,
       t = txt "\cite" ++ opt ++ txt "{" ++ g ++ txt "}" ++ rest
       /\ (opt = [] \/ exists o, opt = txt "[" ++ o ++ txt "]" /\ ~ In rbracket o)
       /\ g <> [] /\ ~ In rbrace g /\ c = [(1, g)]).
  { intros t rest c; split.
    - intros H; apply match_at_sound, cite_match_shape_full in H.
      destruct H as (opt & g & T & O & N & F & C); exists opt, g.
      split; [exact T|]; split; [|split; [exact N | split; [now apply not_char_Forall | exact C]]].
      destruct O as [O|(o & O & Fo)]; [now left | right; exists o].
      split; [exact O | now apply not_char_Forall].
    - intros (opt & g & -> & O & N & F & ->).
      apply cite_match_complete; [|exact N | now apply not_char_Forall].
      destruct O as [O|(o & O & Fo)]; [now left | right; exists o].
      split; [exact O | now apply not_char_Forall]. }
  split; [exact A|]; split; [|apply finditer_sorted].
  apply Forall_forall; intros m I.
  pose proof (finditer_end_le _ _ _ I) as [_ Le].
  apply finditer_In in I; destruct I as (rest & L & M & E).
  apply A in M; destruct M as (opt & g & T & O & N & F & C).
  exists opt, g; split; [|split; [exact O | split; [exact N | split; [exact F|split; [|exact Le]]]]].
  - unfold matched_text, slice.
    replace (Re.m_end m - Re.m_start m)
      with (length (skipn (Re.m_start m) tex_content) - length rest) by lia.
    rewrite T.
    replace (txt "\cite" ++ opt ++ txt "{" ++ g ++ txt "}" ++ rest)
      with ((txt "\cite" ++ opt ++ txt "{" ++ g ++ txt "}") ++ rest)
      by (now rewrite <- !app_assoc).
    apply firstn_app_minus.
  - unfold Re.group; rewrite C; reflexivity.
Qed.

(** ** The entry pattern *)

Lemma run_Seq (r1 r2 : Re.regex) (s : text) (c : Re.caps) k :
  Re.run (r1 +++ r2) s c k = Re.run r1 s c (fun s' c' => Re.run r2 s' c' k).
Proof. reflexivity. Qed.

Lemma run_Str (l s : text) (c : Re.caps) k :
  Re.run (Re.Str l) s c k
  = match Re.strip_prefix l s with Some s' => k s' c | None => None end.
Proof. reflexivity. Qed.

Lemma run_Group (n : nat) (r : Re.regex) (s : text) (c : Re.caps) k :
  Re.run (Re.Group n r) s c k
  = Re.run r s c (fun s' c' => k s' ((n, firstn (length s - length s') s) :: c')).
Proof. reflexivity. Qed.

Lemma run_Plus (p : char -> bool) (s : text) (c : Re.caps) k :
  Re.run (Re.Plus p) s c k
  = match s with
    | ch :: s' => if p ch then Re.star p (fun s'' => k s'' c) s' else None
    | [] => None
    end.
Proof. reflexivity. Qed.

Lemma run_LazyStar (p : char -> bool) (s : text) (c : Re.caps) k :
  Re.run (Re.LazyStar p) s c k = Re.lazy_star p (fun s' => k s' c) s.
Proof. reflexivity. Qed.

(** The lookahead of the entry pattern. *)
Lemma ahead_stop_run (s : text) (c : Re.caps) k :
  Re.run (Re.Ahead (Re.Alt (Re.Str (txt "\bibitem{")) (Re.Str end_marker))) s c k
  = if entry_stop s then k s c else None.
Proof.
  cbn [Re.run]; unfold entry_stop.
  destruct (Re.strip_prefix (txt "\bibitem{") s) as [t|] eqn:E1.
  - pose proof (strip_prefix_sound _ _ E1) as E; rewrite E at 2.
    now rewrite starts_with_app.
  - apply strip_prefix_starts in E1; rewrite E1; cbn [orb].
    destruct (Re.strip_prefix end_marker s) as [t|] eqn:E2.
    + pose proof (strip_prefix_sound _ _ E2) as E; rewrite E at 2.
      now rewrite starts_with_app.
    + apply strip_prefix_starts in E2; now rewrite E2.
Qed.

(** The lazy repetition of any character stops at the first place where the
    continuation succeeds. *)
Lemma lazy_star_any (k : text -> option Re.result) (s : text) (x : Re.result) :
  Re.lazy_star any_char k s = Some x <->
  exists n, n <= length s /\ k (skipn n s) = Some x
            /\ forall i, i < n -> k (skipn i s) = None.
Proof.
  induction s as [|ch s IH]; simpl.
  - destruct (k []) as [y|] eqn:K; split.
    + intros H; exists 0; simpl; rewrite K; repeat split; auto; intros; lia.
    + intros (n & L & H & _); destruct n; simpl in H; congruence.
    + discriminate.
    + intros (n & L & H & _); destruct n; simpl in H; congruence.
  - destruct (k (ch :: s)) as [y|] eqn:K; split.
    + intros H; exists 0; simpl; rewrite K; repeat split; auto; [lia | intros; lia].
    + intros (n & L & H & M); destruct n as [|n]; [simpl in H; congruence|].
      specialize (M 0 ltac:(lia)); simpl in M; congruence.
    + intros H; apply IH in H; destruct H as (n & L & H & M).
      exists (S n); split; [lia|]; split; [exact H|].
      intros [|i] Hi; [exact K | apply M; lia].
    + intros (n & L & H & M); apply IH.
      destruct n as [|n]; [simpl in H; congruence|].
      exists n; split; [lia|]; split; [exact H|].
      intros i Hi; apply (M (S i)); lia.
Qed.

(** The body of an entry: group 2 and the lookahead. *)
Lemma entry_body_run (s rest : text) (c0 c : Re.caps) :
  Re.run (Re.Group 2 (Re.LazyStar any_char)
          +++ Re.Ahead (Re.Alt (Re.Str (txt "\bibitem{")) (Re.Str end_marker)))
         s c0 (fun s' c' => Some (s', c')) = Some (rest, c)
  <-> exists g2,
        s = g2 ++ rest /\ entry_stop rest = true
        /\ (forall i, i < length g2 -> entry_stop (skipn i s) = false)
        /\ c = (2, g2) :: c0.
Proof.
  rewrite run_Seq, run_Group, run_LazyStar, lazy_star_any; split.
  - intros (n & L & H & M); rewrite ahead_stop_run in H.
    destruct (entry_stop (skipn n s)) eqn:St; [|discriminate].
    injection H as <- <-; exists (firstn n s).
    split; [now rewrite firstn_skipn|]; split; [exact St|].
    rewrite length_firstn, length_skipn.
    split; [|do 3 f_equal; lia].
    intros i Hi; specialize (M i ltac:(lia)); rewrite ahead_stop_run in M.
    destruct (entry_stop (skipn i s)); [discriminate | reflexivity].
  - intros (g2 & -> & St & M & ->); exists (length g2).
    assert (Sk : skipn (length g2) (g2 ++ rest) = rest)
      by (rewrite skipn_app, Nat.sub_diag, skipn_all; reflexivity).
    rewrite Sk; split; [rewrite length_app; lia|]; split.
    + rewrite ahead_stop_run, St, firstn_app_minus; reflexivity.
    + intros i Hi; rewrite ahead_stop_run, (M i Hi); reflexivity.
Qed.

Lemma bibitem_match_exact (t rest : text) (c : Re.caps) :
  Re.match_at bibitem_pattern t = Some (rest, c) <->
  exists g1 g2,
    t = txt "\bibitem{" ++ g1 ++ txt "}" ++ g2 ++ rest
    /\ g1 <> [] /\ ~ In rbrace g1
    /\ entry_stop rest = true
    /\ (forall i, i < length g2 -> entry_stop (skipn i (g2 ++ rest)) = false)
    /\ c = [(2, g2); (1, g1)].
Proof.
  unfold Re.match_at, bibitem_pattern; rewrite run_Seq, run_Str; split.
  - destruct (Re.strip_prefix (txt "\bibitem{") t) as [t1|] eqn:E; [|discriminate].
    apply strip_prefix_sound in E; subst t.
    rewrite run_Seq, run_Group, run_Plus.
    destruct t1 as [|ch t1]; [discriminate|].
    destruct (not_char rbrace ch) eqn:Pc; [|discriminate].
    intros H; apply star_sound in H; destruct H as (pre & s' & -> & F & K).
    rewrite run_Seq, run_Str in K.
    destruct (Re.strip_prefix (txt "}") s') as [s3|] eqn:E; [|discriminate].
    apply strip_prefix_sound in E; subst s'.
    apply entry_body_run in K; destruct K as (g2 & -> & St & M & ->).
    exists (ch :: pre), g2.
    split; [reflexivity|]; split; [discriminate|].
    split; [apply not_char_Forall; now constructor|].
    split; [exact St|]; split; [exact M|].
    change (ch :: pre ++ txt "}" ++ g2 ++ rest)
      with ((ch :: pre) ++ txt "}" ++ g2 ++ rest).
    now rewrite firstn_app_minus.
  - intros (g1 & g2 & -> & N & F & St & M & ->).
    rewrite strip_prefix_complete, run_Seq, run_Group, run_Plus.
    apply not_char_Forall in F.
    destruct g1 as [|ch g1]; [congruence|].
    inversion F as [|? ? Pc F']; subst.
    cbn [app]; rewrite Pc.
    apply star_greedy; [assumption | right; exists rbrace, (g2 ++ rest); split; reflexivity|].
    rewrite run_Seq, run_Str.
    change (txt "}" ++ g2 ++ rest) with ([rbrace] ++ g2 ++ rest).
    rewrite strip_prefix_complete.
    apply entry_body_run; exists g2.
    split; [reflexivity|]; split; [exact St|]; split; [exact M|].
    change (ch :: g1 ++ [rbrace] ++ g2 ++ rest)
      with ((ch :: g1) ++ [rbrace] ++ g2 ++ rest).
    now rewrite firstn_app_minus.
Qed.

Lemma skipn_length_app (A : Type) (a b : list A) : skipn (length a) (a ++ b) = b.
Proof. rewrite skipn_app, Nat.sub_diag, skipn_all; reflexivity. Qed.

(** X18.  What counts as an entry.  The entry pattern matches at the head of
    a text exactly when the text starts with [\bibitem{], a non-empty key
    without a closing brace and [}], and a following entry start or the end
    marker comes somewhere after that; the match ends just before the first
    such place, group 1 is the key and group 2 the text between the closing
    brace and that place.  The entries found in a section all have this
    shape: the text right after each starts the next entry or the end marker,
    neither starts inside its body, and the matches come in scan order
    without overlap. *)
Theorem entry_match_shape (bib_section : text) :
  (forall t rest c,
     Re.match_at bibitem_pattern t = Some (rest, c) <->
     exists g1 g2,
       t = txt "\bibitem{" ++ g1 ++ txt "}" ++ g2 ++ rest
       /\ g1 <> [] /\ ~ In rbrace g1
       /\ entry_stop rest = true
       /\ (forall i, i < length g2 -> entry_stop (skipn i (g2 ++ rest)) = false)
       /\ c = [(2, g2); (1, g1)])
  /\ Forall (fun m =>
       exists g1 g2,
         matched_text m bib_section = txt "\bibitem{" ++ g1 ++ txt "}" ++ g2
         /\ g1 <> [] /\ ~ In rbrace g1
         /\ Re.group 1 m = g1 /\ Re.group 2 m = g2
         /\ entry_stop (skipn (Re.m_end m) bib_section) = true
         /\ (forall j, Re.m_end m - length g2 <= j < Re.m_end m ->
               entry_stop (skipn j bib_section) = false))
       (Re.finditer bibitem_pattern bib_section)
  /\ StronglySorted before (Re.finditer bibitem_pattern bib_section).
Proof.
  split; [intros; apply bibitem_match_exact|]; split; [|apply finditer_sorted].
  apply Forall_forall; intros m I.
  apply finditer_In in I; destruct I as (rest & L & M & E).
  apply bibitem_match_exact in M; destruct M as (g1 & g2 & T & N & F & St & Mi & C).
  set (P := txt "\bibitem{" ++ g1 ++ txt "}").
  assert (T' : skipn (Re.m_start m) bib_section = (P ++ g2) ++ rest)
    by (rewrite T; unfold P; now rewrite <- !app_assoc).
  assert (Le : Re.m_end m = Re.m_start m + length (P ++ g2))
    by (rewrite E, T', (length_app (P ++ g2) rest); lia).
  assert (Lp : Re.m_end m - length g2 = Re.m_start m + length P)
    by (rewrite Le, length_app; lia).
  exists g1, g2.
  split; [|split; [exact N | split; [exact F | split; [|split; [|split]]]]].
  - unfold matched_text, slice.
    replace (Re.m_end m - Re.m_start m)
      with (length ((P ++ g2) ++ rest) - length rest)
      by (rewrite Le, (length_app (P ++ g2) rest); lia).
    rewrite T', firstn_app_minus; unfold P; now rewrite <- !app_assoc.
  - unfold Re.group; rewrite C; reflexivity.
  - unfold Re.group; rewrite C; reflexivity.
  - rewrite Le, Nat.add_comm, <- skipn_skipn, T', skipn_length_app; exact St.
  - intros j Hj.
    replace j with ((j - (Re.m_start m + length P)) + length P + Re.m_start m) by lia.
    rewrite <- !skipn_skipn, T', <- app_assoc, skipn_length_app.
    apply Mi; rewrite Le, length_app in Hj; lia.
Qed.

(** * The empty key in the order and in the block *)

Lemma dedup_app (l1 l2 : list text) :
  forall seen, dedup seen (l1 ++ l2) = dedup seen l1 ++ dedup (l1 ++ seen) l2.
Proof.
  induction l1 as [|x l1 IH]; intros seen; [reflexivity|].
  cbn [app dedup]; destruct (in_set x seen) eqn:E.
  - rewrite IH; f_equal; apply dedup_ext; intros y.
    apply in_set_In in E; simpl; rewrite !in_app_iff.
    split; [tauto | intros [->|H]; tauto].
  - cbn [app]; rewrite IH; do 2 f_equal; apply dedup_ext; intros y.
    simpl; rewrite !in_app_iff; simpl; tauto.
Qed.

(** The first element of a list with a given image. *)
Lemma first_with_key (A : Type) (f : A -> text) (k : text) (l : list A) :
  In k (map f l) ->
  exists l1 x l2, l = l1 ++ x :: l2 /\ f x = k /\ ~ In k (map f l1).
Proof.
  induction l as [|a l IH]; simpl; [tauto|]; intros H.
  destruct (text_eqb (f a) k) eqn:E.
  - apply text_eqb_true in E; exists [], a, l; simpl; auto.
  - apply text_eqb_false in E; destruct H as [H|H]; [contradiction|].
    destruct (IH H) as (l1 & x & l2 & -> & Fx & N).
    exists (a :: l1), x, l2; simpl; split; [reflexivity|]; split; [exact Fx|].
    intros [H'|H']; auto.
Qed.

Lemma matched_keys_app (o1 o2 : list text) (bib_entries : Dict.t text) :
  matched_keys (o1 ++ o2) bib_entries
  = matched_keys o1 bib_entries ++ matched_keys o2 bib_entries.
Proof. unfold matched_keys; apply filter_app. Qed.

Lemma output_keys_orphans (order : list text) (bib_entries : Dict.t text) :
  output_keys order bib_entries
  = matched_keys order bib_entries ++ orphan_keys order bib_entries.
Proof.
  unfold output_keys; f_equal.
  transitivity (unused_keys (rev (matched_keys order bib_entries)) bib_entries);
    [|apply unused_keys_orphans].
  apply unused_keys_ext; intros x; apply in_rev.
Qed.

Lemma reorder_used (order : list text) (bib_entries : Dict.t text) :
  used_citations (reorder order bib_entries) = rev (matched_keys order bib_entries).
Proof.
  unfold reorder.
  destruct (unused_pass_printed bib_entries (citation_pass order bib_entries)) as [_ U].
  rewrite U; apply citation_pass_spec.
Qed.

Lemma reorder_printed_step (order : list text) (bib_entries : Dict.t text)
    (i : nat) (k : text) :
  nth_error order i = Some k ->
  In (step_diag bib_entries (S i, k)) (printed (reorder order bib_entries)).
Proof.
  intros H; unfold reorder; apply printed_unused_pass.
  destruct (citation_pass_spec order bib_entries) as (_ & _ & P); rewrite P.
  right; apply in_map, (enumerate_nth order 1 i H).
Qed.

(** C10.  In a marker with several keys, a component that is empty after
    stripping is handed to the tracker as an occurrence with the empty key,
    at the numeric position of its sub-index, and the empty key is part of
    the tracker's index.  In the resolved order it stands once, at the
    place of its first occurrence: in front of it stand the keys that occur
    before that occurrence, in order of first appearance.  The reconciler
    treats it like any other cited key: when the mapping has an entry under
    the empty key, that entry is emitted after the entries of the cited
    keys in front of it and before those of the cited keys behind it, it is
    not among the unused entries, the key enters the used set and the log
    reports it as added at its rank; when the mapping has no such entry,
    the log warns at its rank and the block has no entry for it. *)
Theorem empty_key_is_tracked (tex_content : text) (m : Re.Match) (i : nat) (c : text) :
  In m (Re.finditer cite_pattern tex_content) ->
  contains comma (Re.group 1 m) = true ->
  nth_error (split comma (Re.group 1 m)) i = Some c ->
  strip c = [] ->
  let tr := find_all_citations tex_content in
  let order := get_ordered_citations tr in
  In (offset_position (Re.m_start m) i, []) (citation_positions tr)
  /\ Dict.mem [] (citations tr) = true
  /\ In [] order
  /\ order = first_occurrences (map occ_key (occurrences tex_content))
  /\ exists os1 o os2 before after,
       occurrences tex_content = os1 ++ o :: os2
       /\ occ_key o = [] /\ ~ In [] (map occ_key os1)
       /\ before = first_occurrences (map occ_key os1)
       /\ order = before ++ [] :: after
       /\ ~ In [] before /\ ~ In [] after
       /\ forall bib_entries : Dict.t text,
            let st := reorder order bib_entries in
            (forall body,
               Dict.get [] bib_entries = Some body ->
               reordered_entries st
               = map (entry_of bib_entries) (matched_keys before bib_entries)
                 ++ [full_entry [] body]
                 ++ map (entry_of bib_entries) (matched_keys after bib_entries)
                 ++ map (entry_of bib_entries) (orphan_keys order bib_entries)
               /\ ~ In [] (orphan_keys order bib_entries)
               /\ In [] (used_citations st)
               /\ In (Added (S (length before)) []) (printed st))
            /\ (Dict.get [] bib_entries = None ->
                In (MissingEntry (S (length before)) []) (printed st)
                /\ ~ In [] (used_citations st)
                /\ ~ In [] (output_keys order bib_entries)).
Proof.
  intros Hm Hc Hi Hs tr order.
  pose proof (find_all_citations_tracks tex_content) as T.
  set (o0 := {| occ_pos := Re.m_start m; occ_sub := i;
                occ_q := offset_position (Re.m_start m) i; occ_key := [] |}).
  assert (Ho : In o0 (occurrences tex_content)).
  { apply in_flat_map; exists m; split; [assumption|].
    unfold match_occurrences; rewrite Hc.
    apply in_map_iff; exists (i, strip c); split.
    - unfold o0; simpl; now rewrite Hs.
    - now apply enumerate_map_nth. }
  assert (Hk : In [] (map occ_key (occurrences tex_content)))
    by (apply in_map_iff; exists o0; auto).
  assert (O : order = first_occurrences (map occ_key (occurrences tex_content)))
    by (unfold order, tr; rewrite ordered_citations_firsts; apply first_occs_keys).
  assert (Hord : In [] order) by (rewrite O; now apply first_occurrences_In).
  split; [destruct T as [T1 _]; unfold tr; rewrite T1;
          apply in_map_iff; exists o0; auto|].
  split; [unfold tr; rewrite (tracks_mem [] T); now apply in_set_In|].
  split; [exact Hord|]; split; [exact O|].
  destruct (first_with_key occ_key [] (occurrences tex_content) Hk)
    as (os1 & o & os2 & Eo & Ko & N1).
  set (before := first_occurrences (map occ_key os1)).
  set (after := dedup ([] :: map occ_key os1 ++ []) (map occ_key os2)).
  assert (Eord : order = before ++ [] :: after).
  { rewrite O, Eo, map_app; unfold first_occurrences; rewrite dedup_app.
    cbn [map dedup]; rewrite Ko.
    assert (F : in_set [] (map occ_key os1 ++ []) = false)
      by (apply in_set_false; now rewrite app_nil_r).
    rewrite F; reflexivity. }
  assert (Nb : ~ In [] before)
    by (unfold before; rewrite first_occurrences_In; exact N1).
  assert (Na : ~ In [] after)
    by (unfold after; rewrite dedup_In; simpl; tauto).
  assert (Nth : nth_error order (length before) = Some [])
    by (rewrite Eord, nth_error_app2, Nat.sub_diag by lia; reflexivity).
  exists os1, o, os2, before, after.
  split; [exact Eo|]; split; [exact Ko|]; split; [exact N1|]; split; [reflexivity|].
  split; [exact Eord|]; split; [exact Nb|]; split; [exact Na|].
  intros bib_entries st; split.
  - intros body G.
    assert (Mm : Dict.mem [] bib_entries = true) by (unfold Dict.mem; now rewrite G).
    assert (Mk : matched_keys order bib_entries
                 = matched_keys before bib_entries ++ [] :: matched_keys after bib_entries).
    { rewrite Eord, matched_keys_app; f_equal.
      unfold matched_keys at 1; cbn [filter]; now rewrite Mm. }
    split; [|split; [|split]].
    + unfold st; rewrite reorder_entries, output_keys_orphans, Mk, !map_app.
      cbn [map]; unfold entry_of at 2, body_of; rewrite G.
      rewrite <- !app_assoc; reflexivity.
    + unfold orphan_keys; rewrite filter_In, negb_true_iff, in_set_false; tauto.
    + unfold st; rewrite reorder_used, <- in_rev, Mk.
      apply in_or_app; right; now left.
    + unfold st; pose proof (reorder_printed_step order bib_entries _ Nth) as P.
      unfold step_diag in P; cbn [fst snd] in P; now rewrite Mm in P.
  - intros G.
    assert (Mm : Dict.mem [] bib_entries = false) by (unfold Dict.mem; now rewrite G).
    split; [|split].
    + unfold st; pose proof (reorder_printed_step order bib_entries _ Nth) as P.
      unfold step_diag in P; cbn [fst snd] in P; now rewrite Mm in P.
    + unfold st; rewrite reorder_used, <- in_rev, matched_keys_In.
      apply dict_get_none_keys in G; tauto.
    + rewrite output_keys_In; now apply dict_get_none_keys.
Qed.

(** Witness of C10: the marker [\cite{c,,d}] of the sample document. *)
Lemma empty_key_is_tracked_witness :
  let m := {| Re.m_start := 40; Re.m_end := 51; Re.m_caps := [(1, txt "c,,d")] |} in
  In m (Re.finditer cite_pattern sample_doc)
  /\ contains comma (Re.group 1 m) = true
  /\ nth_error (split comma (Re.group 1 m)) 1 = Some []
  /\ strip [] = []
  /\ let tr := find_all_citations sample_doc in
     let order := get_ordered_citations tr in
     In (offset_position (Re.m_start m) 1, []) (citation_positions tr)
     /\ Dict.mem [] (citations tr) = true
     /\ In [] order
     /\ order = first_occurrences (map occ_key (occurrences sample_doc))
     /\ exists os1 o os2 before after,
          occurrences sample_doc = os1 ++ o :: os2
          /\ occ_key o = [] /\ ~ In [] (map occ_key os1)
          /\ before = first_occurrences (map occ_key os1)
          /\ order = before ++ [] :: after
          /\ ~ In [] before /\ ~ In [] after
          /\ forall bib_entries : Dict.t text,
               let st := reorder order bib_entries in
               (forall body,
                  Dict.get [] bib_entries = Some body ->
                  reordered_entries st
                  = map (entry_of bib_entries) (matched_keys before bib_entries)
                    ++ [full_entry [] body]
                    ++ map (entry_of bib_entries) (matched_keys after bib_entries)
                    ++ map (entry_of bib_entries) (orphan_keys order bib_entries)
                  /\ ~ In [] (orphan_keys order bib_entries)
                  /\ In [] (used_citations st)
                  /\ In (Added (S (length before)) []) (printed st))
               /\ (Dict.get [] bib_entries = None ->
                   In (MissingEntry (S (length before)) []) (printed st)
                   /\ ~ In [] (used_citations st)
                   /\ ~ In [] (output_keys order bib_entries)).
Proof.
  intros m.
  assert (H1 : In m (Re.finditer cite_pattern sample_doc))
    by (vm_compute; right; right; left; reflexivity).
  assert (H2 : contains comma (Re.group 1 m) = true) by reflexivity.
  assert (H3 : nth_error (split comma (Re.group 1 m)) 1 = Some []) by reflexivity.
  split; [exact H1|]; split; [exact H2|]; split; [exact H3|]; split; [reflexivity|].
  exact (@empty_key_is_tracked sample_doc m 1 [] H1 H2 H3 eq_refl).
Defined.

(** * The second run

    ** Occurrences of a literal *)

Lemma starts_with_app_l (t a b : text) :
  starts_with t a = true -> starts_with t (a ++ b) = true.
Proof.
  revert a; induction t as [|x t IH]; intros [|y a]; simpl; try congruence.
  intros H; apply andb_true_iff in H; destruct H as [H1 H2].
  now rewrite H1, IH.
Qed.

(** A character that the literal does not hold ends every attempt. *)
Lemma starts_with_sep (t a b : text) (c : char) :
  ~ In c t -> starts_with t (a ++ c :: b) = starts_with t a.
Proof.
  revert a; induction t as [|x t IH]; intros a N; [now destruct a|].
  destruct a as [|y a]; simpl.
  - destruct (N.eqb_spec x c) as [->|]; [exfalso; apply N; now left | reflexivity].
  - rewrite IH; [reflexivity | intros H; apply N; now right].
Qed.

Lemma occursb_nil (t : text) : t <> [] -> occursb t [] = false.
Proof. destruct t; [congruence | reflexivity]. Qed.

Lemma occursb_sep (t a b : text) (c : char) :
  t <> [] -> ~ In c t -> occursb t (a ++ c :: b) = occursb t a || occursb t b.
Proof.
  intros T N; induction a as [|x a IH].
  - cbn [app]; rewrite occursb_cons, occursb_nil by assumption.
    change (c :: b) with ([] ++ c :: b) at 1; rewrite starts_with_sep by assumption.
    destruct t; [congruence | reflexivity].
  - cbn [app]; rewrite !occursb_cons, IH.
    change (x :: a ++ c :: b) with ((x :: a) ++ c :: b).
    rewrite starts_with_sep by assumption; now rewrite orb_assoc.
Qed.

Lemma occursb_iff (t x : text) :
  occursb t x = true <-> exists q, starts_with t (skipn q x) = true.
Proof.
  split.
  - induction x as [|c x IH]; simpl.
    + rewrite orb_false_r; intros H; exists 0; exact H.
    + intros H; apply orb_true_iff in H; destruct H as [H|H]; [now exists 0|].
      destruct (IH H) as [q Hq]; now exists (S q).
  - intros [q H]; apply occursb_starts in H; now apply occursb_skipn in H.
Qed.

Lemma occursb_false_at (t x : text) (q : nat) :
  occursb t x = false -> starts_with t (skipn q x) = false.
Proof.
  intros H; destruct (starts_with t (skipn q x)) eqn:E; [|reflexivity].
  assert (O : occursb t x = true) by (apply occursb_iff; now exists q).
  congruence.
Qed.

Lemma occursb_app_r (t a b : text) : occursb t b = true -> occursb t (a ++ b) = true.
Proof.
  intros H; induction a as [|x a IH]; [exact H|].
  cbn [app]; rewrite occursb_cons, IH; apply orb_true_r.
Qed.

Lemma occursb_app_l (t a b : text) : occursb t a = true -> occursb t (a ++ b) = true.
Proof.
  induction a as [|x a IH]; intros H.
  - destruct t; [now destruct b | discriminate].
  - cbn [app]; rewrite occursb_cons in *; apply orb_true_iff in H.
    destruct H as [H|H]; [|rewrite IH by assumption; apply orb_true_r].
    change (x :: a ++ b) with ((x :: a) ++ b); now rewrite starts_with_app_l.
Qed.

Lemma occursb_middle (t a x b : text) :
  occursb t x = true -> occursb t (a ++ x ++ b) = true.
Proof. intros H; now apply occursb_app_r, occursb_app_l. Qed.

(** A text without the first character of a literal does not hold it. *)
Lemma occursb_no_head (c0 : char) (t x : text) :
  ~ In c0 x -> occursb (c0 :: t) x = false.
Proof.
  induction x as [|c x IH]; intros N; [reflexivity|].
  rewrite occursb_cons, IH by (intros H; apply N; now right).
  cbn [starts_with]; destruct (N.eqb_spec c0 c) as [->|]; [|reflexivity].
  exfalso; apply N; now left.
Qed.

(** A literal without line break that occurs in a joined text occurs in
    one of the joined parts. *)
Lemma occursb_join_nl (t : text) (L : list text) :
  t <> [] -> ~ In nl t ->
  occursb t (join [nl] L) = existsb (occursb t) L.
Proof.
  intros T N; induction L as [|a L IH]; [now apply occursb_nil|].
  rewrite join_cons_tail; destruct L as [|b L].
  - now rewrite app_nil_r; cbn [existsb]; rewrite orb_false_r.
  - rewrite occursb_sep, IH by assumption; reflexivity.
Qed.

Lemma occursb_join_blank (t : text) (L : list text) :
  t <> [] -> ~ In nl t ->
  (forall x, In x L -> occursb t x = false) ->
  occursb t (join [nl; nl] L) = false.
Proof.
  intros T N; induction L as [|a L IH]; intros H; [now apply occursb_nil|].
  cbn [join]; destruct L as [|b L]; [apply H; now left|].
  change (a ++ [nl; nl] ++ join [nl; nl] (b :: L))
    with (a ++ nl :: ([] ++ nl :: join [nl; nl] (b :: L))).
  rewrite !occursb_sep, occursb_nil, IH by (auto; intros; apply H; now right).
  rewrite (H a) by now left.
  reflexivity.
Qed.

Lemma lstrip_rstrip_parts (s : text) : exists w1 w2, s = w1 ++ strip s ++ w2.
Proof.
  destruct (lstrip_suffix s) as [w1 E1].
  destruct (lstrip_suffix (rev (lstrip s))) as [w2 E2].
  exists w1, (rev w2); unfold strip, rstrip.
  rewrite <- rev_app_distr, <- E2, rev_involutive; exact E1.
Qed.

(** The clean-up does not bring in a literal without line break. *)
Lemma occursb_clean_content (t body : text) :
  t <> [] -> ~ In nl t ->
  occursb t (clean_content body) = true -> occursb t body = true.
Proof.
  intros T N H.
  destruct (clean_content_lines body) as [C _]; rewrite C in H.
  unfold drop_blank_lines in H; rewrite occursb_join_nl in H by assumption.
  apply existsb_exists in H; destruct H as (l & I & O).
  apply filter_In in I; destruct I as [I _].
  assert (S1 : occursb t (strip body) = true).
  { rewrite <- (join_split (strip body)), occursb_join_nl by assumption.
    apply existsb_exists; eauto. }
  destruct (lstrip_rstrip_parts body) as (w1 & w2 & E); rewrite E.
  now apply occursb_middle.
Qed.

(** ** The scan of a text in parts *)

Lemma finditer_from_skip (r : Re.regex) (a t : text) :
  forall pos,
    Re.finditer_from r pos (length a) (a ++ t) = Re.finditer_from r (pos + length a) 0 t.
Proof.
  induction a as [|x a IH]; intros pos; cbn [length app].
  - now rewrite Nat.add_0_r.
  - cbn [Re.finditer_from]; rewrite IH; f_equal; lia.
Qed.

Lemma finditer_from_no_match (r : Re.regex) (a t : text) :
  forall pos,
    (forall i, i < length a -> Re.match_at r (skipn i (a ++ t)) = None) ->
    Re.finditer_from r pos 0 (a ++ t) = Re.finditer_from r (pos + length a) 0 t.
Proof.
  induction a as [|x a IH]; intros pos H; cbn [length app].
  - now rewrite Nat.add_0_r.
  - cbn [Re.finditer_from].
    pose proof (H 0 ltac:(simpl; lia)) as H0; cbn [skipn app] in H0; rewrite H0.
    rewrite IH by (intros i Hi; apply (H (S i)); simpl; lia).
    f_equal; lia.
Qed.

Lemma finditer_from_match (r : Re.regex) (mt rest : text) (caps : Re.caps) (pos : nat) :
  mt <> [] ->
  Re.match_at r (mt ++ rest) = Some (rest, caps) ->
  Re.finditer_from r pos 0 (mt ++ rest)
  = {| Re.m_start := pos; Re.m_end := pos + length mt; Re.m_caps := caps |}
      :: Re.finditer_from r (pos + length mt) 0 rest.
Proof.
  destruct mt as [|x mt]; [congruence|]; intros _ M.
  cbn [app] in *; cbn [Re.finditer_from]; rewrite M.
  cbn [length]; rewrite length_app.
  replace (S (length mt + length rest) - length rest) with (S (length mt)) by lia.
  cbn [Nat.sub]; rewrite Nat.sub_0_r, finditer_from_skip.
  do 2 f_equal; lia.
Qed.

Lemma finditer_from_none (r : Re.regex) (t : text) :
  forall pos skip,
    (forall i, Re.match_at r (skipn i t) = None) ->
    Re.finditer_from r pos skip t = [].
Proof.
  induction t as [|x t IH]; intros pos skip H.
  - pose proof (H 0) as H0; cbn [skipn] in H0.
    cbn [Re.finditer_from]; rewrite H0; now destruct skip.
  - pose proof (H 0) as H0; cbn [skipn] in H0.
    cbn [Re.finditer_from]; destruct skip as [|n].
    + rewrite H0; apply IH; intros i; apply (H (S i)).
    + apply IH; intros i; apply (H (S i)).
Qed.

(** ** The citation scan of a document whose markers stand in front *)

Lemma cite_match_needs_literal (t : text) :
  starts_with (txt "\cite") t = false -> Re.match_at cite_pattern t = None.
Proof.
  intros H; destruct (Re.match_at cite_pattern t) as [[rest c]|] eqn:M; [|reflexivity].
  apply match_at_sound, cite_match_shape in M.
  destruct M as (opt & g & -> & _); now rewrite starts_with_app in H.
Qed.

Lemma cite_match_extend (t x rest : text) (c : Re.caps) :
  Re.match_at cite_pattern t = Some (rest, c) ->
  Re.match_at cite_pattern (t ++ x) = Some (rest ++ x, c).
Proof.
  intros M; apply match_at_sound, cite_match_shape_full in M.
  destruct M as (opt & g & -> & O & N & F & ->).
  rewrite <- !app_assoc; now apply cite_match_complete.
Qed.

Lemma finditer_cite_front (P X : text) :
  forall pos skip,
    (forall p, starts_with (txt "\cite") (skipn p (P ++ X)) = true ->
               Re.match_at cite_pattern (skipn p P) <> None) ->
    Re.finditer_from cite_pattern pos skip (P ++ X)
    = Re.finditer_from cite_pattern pos skip P.
Proof.
  induction P as [|c P IH]; intros pos skip H.
  - cbn [app]; rewrite finditer_from_none; [now destruct skip|].
    intros i; apply cite_match_needs_literal.
    destruct (starts_with (txt "\cite") (skipn i X)) eqn:E; [|reflexivity].
    specialize (H i E); destruct i; now contradiction H.
  - assert (H' : forall p, starts_with (txt "\cite") (skipn p (P ++ X)) = true ->
                           Re.match_at cite_pattern (skipn p P) <> None)
      by (intros p; apply (H (S p))).
    cbn [app Re.finditer_from]; destruct skip as [|n]; [|now apply IH].
    destruct (starts_with (txt "\cite") (c :: P ++ X)) eqn:E.
    + specialize (H 0 E); cbn [skipn] in H.
      destruct (Re.match_at cite_pattern (c :: P)) as [[rest caps]|] eqn:M;
        [|now contradiction H].
      change (c :: P ++ X) with ((c :: P) ++ X).
      rewrite (@cite_match_extend (c :: P) X rest caps M), !length_app.
      replace (length (c :: P) + length X - (length rest + length X))
        with (length (c :: P) - length rest) by lia.
      now rewrite IH.
    + rewrite (@cite_match_needs_literal _ E).
      assert (E' : starts_with (txt "\cite") (c :: P) = false).
      { destruct (starts_with (txt "\cite") (c :: P)) eqn:E2; [|reflexivity].
        change (c :: P ++ X) with ((c :: P) ++ X) in E.
        now rewrite (@starts_with_app_l _ (c :: P) X E2) in E. }
      rewrite (@cite_match_needs_literal _ E'); now apply IH.
Qed.

(** ** Searching a literal *)

(** A character that only stands at the head of the literal ends every
    attempt that began before it. *)
Lemma starts_with_sep_tail (c0 c : char) (t u x : text) :
  ~ In c t -> u <> [] ->
  starts_with (c0 :: t) (u ++ c :: x) = starts_with (c0 :: t) u.
Proof.
  intros N U; destruct u as [|y u]; [congruence|].
  cbn [app starts_with]; now rewrite starts_with_sep.
Qed.

Lemma search_literal_at (t s : text) (i : nat) :
  starts_with t (skipn i s) = true ->
  (forall j, j < i -> starts_with t (skipn j s) = false) ->
  Re.search (Re.Str t) s
  = Some {| Re.m_start := i; Re.m_end := i + length t; Re.m_caps := [] |}.
Proof.
  intros H1 H2; rewrite search_literal_find; unfold find.
  destruct (find_from t 0 s) as [i'|] eqn:F.
  - apply find_from_first in F; destruct F as (_ & F1 & F2).
    rewrite Nat.sub_0_r in *.
    assert (i' = i); [|subst; reflexivity].
    destruct (Nat.lt_trichotomy i' i) as [L|[E|L]]; [|exact E|].
    + rewrite (H2 _ L) in F1; discriminate.
    + rewrite (F2 i) in H1 by lia; discriminate.
  - apply find_from_none in F.
    rewrite (occursb_false_at _ _ i F) in H1; discriminate.
Qed.

(** What a successful extraction says about the document. *)
Lemma extract_facts (tex_content : text) (entries : Dict.t text)
    (bib_start bib_end : nat) (opening_line : text) :
  fst (extract_bibliography_entries tex_content)
    = Some (entries, (bib_start, bib_end), opening_line) ->
  bib_start < bib_end ->
  bib_start + length begin_marker + length end_marker <= bib_end
  /\ bib_end <= length tex_content
  /\ starts_with begin_marker (skipn bib_start tex_content) = true
  /\ (forall j, j < bib_start -> starts_with begin_marker (skipn j tex_content) = false)
  /\ starts_with end_marker (skipn (bib_end - length end_marker) tex_content) = true
  /\ (forall j, j < bib_end - length end_marker ->
        starts_with end_marker (skipn j tex_content) = false)
  /\ opening_line = take_while (not_char nl) (slice bib_start bib_end tex_content)
  /\ starts_with begin_marker opening_line = true
  /\ entries = fold_left add_entry
                 (Re.finditer bibitem_pattern (slice bib_start bib_end tex_content)) [].
Proof.
  unfold extract_bibliography_entries, begin_pattern, end_pattern.
  destruct (Re.search (Re.Str begin_marker) tex_content) as [mb|] eqn:B; [|discriminate].
  destruct (Re.search (Re.Str end_marker) tex_content) as [me|] eqn:E; [|discriminate].
  cbn [fst]; intros H L; injection H as <- <- <- <-.
  pose proof (finditer_end_le _ _ _ (search_In _ _ E)) as Le.
  apply search_literal_first in B, E.
  destruct B as (_ & B1 & B2), E as (E0 & E1 & E2).
  pose proof (markers_do_not_overlap _ _ _ B1 E1) as D.
  assert (S1 : starts_with begin_marker
                 (slice (Re.m_start mb) (Re.m_end me) tex_content) = true).
  { pose proof (starts_with_split _ _ B1) as B3; unfold slice; rewrite B3.
    rewrite firstn_app.
    rewrite firstn_all2
      by (change (length begin_marker) with 23 in *;
          change (length end_marker) with 21 in *; lia).
    apply starts_with_app. }
  destruct (search_opening _ S1) as (m & Sm & Mm).
  unfold bib_section_of; rewrite Sm, Mm, E0 in *; rewrite Nat.add_sub.
  change (length begin_marker) with 23 in *; change (length end_marker) with 21 in *.
  split; [lia|]; split; [lia|]; split; [exact B1|]; split; [exact B2|].
  split; [exact E1|]; split; [exact E2|]; split; [reflexivity|]; split; [|reflexivity].
  apply starts_with_split in S1; rewrite S1 at 1.
  rewrite take_while_app by reflexivity; apply starts_with_app.
Qed.

Lemma bibitem_needs_literal (t : text) :
  starts_with (txt "\bibitem{") t = false -> Re.match_at bibitem_pattern t = None.
Proof.
  intros H; destruct (Re.match_at bibitem_pattern t) as [[rest c]|] eqn:M; [|reflexivity].
  apply bibitem_match_exact in M.
  destruct M as (g1 & g2 & -> & _); now rewrite starts_with_app in H.
Qed.

(** ** Assignments to new keys *)

Lemma dict_set_new (V : Type) (k : text) (v : V) (d : Dict.t V) :
  ~ In k (Dict.keys d) -> Dict.set k v d = d ++ [(k, v)].
Proof.
  induction d as [|[k' v'] d IH]; simpl; intros N; [reflexivity|].
  destruct (text_eqb k k') eqn:E.
  - apply text_eqb_true in E; subst; exfalso; apply N; now left.
  - rewrite IH; [reflexivity | intros H; apply N; now right].
Qed.

Lemma set_fold_new (V : Type) (f : text -> V) (K : list text) :
  forall d : Dict.t V,
    NoDup K -> (forall x, In x K -> ~ In x (Dict.keys d)) ->
    fold_left (fun d x => Dict.set x (f x) d) K d = d ++ map (fun x => (x, f x)) K.
Proof.
  induction K as [|k K IH]; intros d N H; cbn [fold_left map]; [now rewrite app_nil_r|].
  inversion N as [|? ? N1 N2]; subst.
  rewrite dict_set_new by (apply H; now left).
  rewrite IH; [now rewrite <- app_assoc | assumption|].
  intros x Hx; unfold Dict.keys; rewrite map_app, in_app_iff; simpl.
  intros [I|[I|[]]]; [apply (H x); [now right | exact I] | subst; contradiction].
Qed.

(** ** Whitespace around a text *)

Lemma lstrip_pad (w x : text) : forallb isspace w = true -> lstrip (w ++ x) = lstrip x.
Proof.
  induction w as [|c w IH]; simpl; [reflexivity|].
  intros H; apply andb_true_iff in H; destruct H as [H1 H2]; now rewrite H1, IH.
Qed.

Lemma rstrip_pad (x w : text) : forallb isspace w = true -> rstrip (x ++ w) = rstrip x.
Proof.
  intros H; unfold rstrip; rewrite rev_app_distr, lstrip_pad; [reflexivity|].
  rewrite forallb_forall in *; intros c I; apply H; now apply in_rev.
Qed.

Lemma lstrip_blank (w : text) : forallb isspace w = true -> lstrip w = [].
Proof.
  intros H; rewrite <- (app_nil_r w), lstrip_pad by assumption; reflexivity.
Qed.

Lemma strip_pad (w1 x w2 : text) :
  forallb isspace w1 = true -> forallb isspace w2 = true ->
  strip (w1 ++ x ++ w2) = strip x.
Proof.
  intros H1 H2; unfold strip; rewrite lstrip_pad by assumption.
  induction x as [|c x IH]; cbn [app].
  - now rewrite lstrip_blank.
  - cbn [lstrip]; destruct (isspace c); [exact IH|].
    change (c :: x ++ w2) with ((c :: x) ++ w2); now apply rstrip_pad.
Qed.

Lemma clean_content_pad (w1 x w2 : text) :
  forallb isspace w1 = true -> forallb isspace w2 = true ->
  clean_content (w1 ++ x ++ w2) = clean_content x.
Proof. intros H1 H2; unfold clean_content; now rewrite strip_pad. Qed.

Lemma clean_content_fix (body : text) :
  clean_content (clean_content body) = clean_content body.
Proof.
  destruct (clean_content_lines body) as [E T].
  destruct (clean_content_lines (clean_content body)) as [E2 _].
  rewrite E2, (trimmed_strip T).
  destruct (list_eq_dec N.eq_dec (clean_content body) []) as [Z|N]; [now rewrite Z|].
  pose proof (@clean_content_no_blank_line body N) as F.
  unfold drop_blank_lines; rewrite filter_all_true; [apply join_split|].
  intros l H; rewrite Forall_forall in F; now rewrite (F l H).
Qed.

(** The three literals that the scanner and the parser look for. *)
Lemma literal_facts :
  (txt "\cite" <> [] /\ ~ In nl (txt "\cite"))
  /\ (txt "\bibitem{" <> [] /\ ~ In nl (txt "\bibitem{"))
  /\ (end_marker <> [] /\ ~ In nl end_marker).
Proof. repeat split; try discriminate; vm_compute; intuition discriminate. Qed.

(** In the gap between the key of an entry and the next entry or the end
    marker, which holds the body and the line breaks around it, no entry
    and no end marker begins. *)
Lemma body_gap_no_stop (v w rest : text) :
  occursb (txt "\bibitem{") v = false -> occursb end_marker v = false ->
  w = [] \/ w = [nl] ->
  forall i, i < length (nl :: v ++ nl :: w) ->
            entry_stop (skipn i ((nl :: v ++ nl :: w) ++ rest)) = false.
Proof.
  intros B E W i L.
  destruct literal_facts as (_ & (_ & Nb) & (_ & Ne)).
  destruct i as [|i]; [reflexivity|].
  cbn [app skipn]; rewrite <- app_assoc; cbn [app].
  destruct (Nat.le_gt_cases i (length v)) as [Le|Gt].
  - rewrite skipn_app; replace (i - length v) with 0 by lia; cbn [skipn].
    unfold entry_stop; rewrite !starts_with_sep by assumption.
    now rewrite !occursb_false_at.
  - destruct W as [-> | ->]; cbn [length] in L; rewrite length_app in L; cbn [length] in L;
      [lia|].
    replace i with (1 + length v) by lia.
    rewrite <- skipn_skipn.
    rewrite skipn_length_app; reflexivity.
Qed.

(** ** The document written by a run, read again *)

Section SecondRun.

Variables (content : text) (entries : Dict.t text) (bib_start bib_end : nat).
Variables (opening_line : text) (order : list text).

Hypothesis Hextract :
  fst (extract_bibliography_entries content)
    = Some (entries, (bib_start, bib_end), opening_line).
Hypothesis Hentries : entries <> [].
Hypothesis Hcites : cites_in_front bib_start content = true.
Hypothesis Hkeys : plain_keys entries = true.
Hypothesis Hopening : plain_opening opening_line = true.
Hypothesis Horder : NoDup order.

Local Abbreviation front := (firstn bib_start content).
Local Abbreviation back := (skipn bib_end content).
Local Abbreviation old_section := (slice bib_start bib_end content).
Local Abbreviation out_keys := (output_keys order entries).
Local Abbreviation joined := (join [nl; nl] (map (entry_of entries) out_keys)).
Local Abbreviation block := (serialize opening_line (map (entry_of entries) out_keys)).
Local Abbreviation new_content := (splice content bib_start bib_end block).

Lemma second_span : bib_start < bib_end.
Proof. now apply (extract_entries_span _ Hextract). Qed.

Lemma second_bounds :
  bib_start + 44 <= bib_end /\ bib_end <= length content /\ length front = bib_start.
Proof.
  destruct (extract_facts _ Hextract second_span) as (A & B & _).
  change (length begin_marker) with 23 in A; change (length end_marker) with 21 in A.
  split; [lia|]; split; [exact B|]; rewrite length_firstn; lia.
Qed.

Lemma second_parts : content = front ++ old_section ++ back.
Proof.
  destruct second_bounds as (A & B & _); unfold slice.
  replace (skipn bib_end content)
    with (skipn (bib_end - bib_start) (skipn bib_start content))
    by (rewrite skipn_skipn; f_equal; lia).
  now rewrite !firstn_skipn.
Qed.

Lemma second_tail : skipn bib_start content = old_section ++ back.
Proof.
  destruct second_bounds as (_ & _ & L).
  rewrite second_parts at 1; rewrite <- L at 1; apply skipn_length_app.
Qed.

(** The citations of the document. *)
Lemma second_cites_front (p : nat) :
  starts_with (txt "\cite") (skipn p content) = true ->
  Re.match_at cite_pattern (skipn p front) <> None.
Proof.
  intros H; unfold cites_in_front in Hcites; rewrite forallb_forall in Hcites.
  destruct (Nat.lt_ge_cases p (length content)) as [L|G].
  - specialize (Hcites p); rewrite in_seq, H in Hcites; cbn [negb orb] in Hcites.
    destruct (Re.match_at cite_pattern (skipn p front)); [discriminate|].
    discriminate Hcites; lia.
  - rewrite skipn_all2 in H by lia; discriminate.
Qed.

Lemma second_no_cite_after (p : nat) :
  bib_start <= p -> starts_with (txt "\cite") (skipn p content) = false.
Proof.
  intros L; destruct (starts_with (txt "\cite") (skipn p content)) eqn:E; [|reflexivity].
  exfalso; apply (second_cites_front _ E).
  destruct second_bounds as (_ & _ & F).
  rewrite skipn_all2 by lia; reflexivity.
Qed.

Lemma second_no_cite_tail : occursb (txt "\cite") (old_section ++ back) = false.
Proof.
  destruct (occursb (txt "\cite") (old_section ++ back)) eqn:E; [|reflexivity].
  apply occursb_iff in E; destruct E as [q E].
  rewrite <- second_tail, skipn_skipn in E.
  rewrite second_no_cite_after in E by lia; discriminate.
Qed.

Lemma second_no_cite_section : occursb (txt "\cite") old_section = false.
Proof.
  destruct (occursb (txt "\cite") old_section) eqn:E; [|reflexivity].
  pose proof (occursb_app_l _ _ back E) as H.
  now rewrite second_no_cite_tail in H.
Qed.

Lemma second_no_cite_back : occursb (txt "\cite") back = false.
Proof.
  destruct (occursb (txt "\cite") back) eqn:E; [|reflexivity].
  pose proof (occursb_app_r _ old_section _ E) as H.
  now rewrite second_no_cite_tail in H.
Qed.


(** The parsed entries. *)
Lemma second_origin (k v : text) :
  Dict.get k entries = Some v ->
  exists m, In m (Re.finditer bibitem_pattern old_section)
            /\ k = strip (Re.group 1 m) /\ v = clean_content (Re.group 2 m).
Proof.
  destruct (extract_facts _ Hextract second_span) as (_ & _ & _ & _ & _ & _ & _ & _ & E).
  rewrite E; intros G; apply add_entry_get_origin in G.
  destruct G as [G|G]; [discriminate | exact G].
Qed.

Lemma second_group (m : Re.Match) :
  In m (Re.finditer bibitem_pattern old_section) ->
  (exists a b, old_section = a ++ Re.group 2 m ++ b)
  /\ occursb (txt "\bibitem{") (Re.group 2 m) = false
  /\ occursb end_marker (Re.group 2 m) = false.
Proof.
  intros I; apply finditer_In in I; destruct I as (rest & L & M & _).
  apply bibitem_match_exact in M; destruct M as (g1 & g2 & T & _ & _ & _ & Mi & C).
  assert (G : Re.group 2 m = g2) by (unfold Re.group; rewrite C; reflexivity).
  rewrite G; split.
  - exists (firstn (Re.m_start m) old_section ++ txt "\bibitem{" ++ g1 ++ txt "}"), rest.
    rewrite <- (firstn_skipn (Re.m_start m) old_section) at 1.
    rewrite T, <- !app_assoc; reflexivity.
  - assert (F : forall t, t <> [] -> (forall x, starts_with t x = true -> entry_stop x = true) ->
                          occursb t g2 = false).
    { intros t Nt St; destruct (occursb t g2) eqn:O; [|reflexivity].
      apply occursb_iff in O; destruct O as [q O].
      destruct (Nat.lt_ge_cases q (length g2)) as [Lq|Gq].
      - specialize (Mi q Lq); rewrite skipn_app in Mi.
        rewrite (St _ (starts_with_app_l _ _ _ O)) in Mi; discriminate.
      - rewrite skipn_all2 in O by lia; destruct t; [congruence | discriminate]. }
    split; apply F; try discriminate; intros x H; unfold entry_stop; rewrite H;
      [reflexivity | apply orb_true_r].
Qed.

Lemma second_key (k : text) :
  In k (Dict.keys entries) ->
  k <> [] /\ ~ In backslash k /\ ~ In rbrace k /\ strip k = k.
Proof.
  intros I.
  assert (P : match k with [] => false | _ :: _ => negb (contains backslash k) end = true).
  { unfold plain_keys in Hkeys; rewrite forallb_forall in Hkeys; now apply Hkeys. }
  assert (G : exists v, Dict.get k entries = Some v).
  { destruct (Dict.get k entries) as [v|] eqn:G; [eauto|].
    apply dict_get_none_keys in G; contradiction. }
  destruct G as [v G]; destruct (second_origin _ G) as (m & Hm & -> & _).
  split; [intros Z; rewrite Z in P; discriminate|].
  split; [|split; [now apply (bibitem_key_no_brace _ _ Hm) | apply strip_idempotent]].
  destruct (strip (Re.group 1 m)) as [|c s] eqn:E; [discriminate|].
  apply negb_true_iff in P; now apply contains_false.
Qed.

Lemma second_body (k : text) :
  In k (Dict.keys entries) ->
  let v := body_of entries k in
  Dict.get k entries = Some v
  /\ occursb (txt "\bibitem{") v = false
  /\ occursb end_marker v = false
  /\ occursb (txt "\cite") v = false
  /\ clean_content v = v.
Proof.
  intros I v.
  assert (G : Dict.get k entries = Some v).
  { unfold v, body_of; destruct (Dict.get k entries) as [x|] eqn:G; [reflexivity|].
    apply dict_get_none_keys in G; contradiction. }
  split; [exact G|].
  destruct (second_origin _ G) as (m & Hm & _ & Ev).
  destruct (second_group _ Hm) as ((a & b & Es) & Nb & Ne).
  destruct literal_facts as ((Tc & Nc) & (Tb & Nlb) & (Te & Nle)).
  assert (F : forall t, t <> [] -> ~ In nl t -> occursb t (Re.group 2 m) = false ->
                        occursb t v = false).
  { intros t T N O; destruct (occursb t v) eqn:Ov; [|reflexivity].
    rewrite Ev in Ov; apply occursb_clean_content in Ov; congruence. }
  split; [now apply F|]; split; [now apply F|]; split; [|rewrite Ev; apply clean_content_fix].
  apply F; try assumption.
  destruct (occursb (txt "\cite") (Re.group 2 m)) eqn:O; [|reflexivity].
  pose proof (occursb_middle _ a _ b O) as H; rewrite <- Es in H.
  now rewrite second_no_cite_section in H.
Qed.

Lemma second_out_keys (k : text) : In k out_keys <-> In k (Dict.keys entries).
Proof. apply output_keys_In. Qed.

Lemma dict_has_key (V : Type) (d : Dict.t V) :
  d <> [] -> exists k, In k (Dict.keys d).
Proof. destruct d as [|[k v] d]; [congruence|]; intros _; exists k; now left. Qed.

Lemma second_out_keys_not_nil : out_keys <> [].
Proof.
  destruct (dict_has_key Hentries) as [k I].
  intros Z; apply second_out_keys in I; now rewrite Z in I.
Qed.

(** The opening line. *)
Lemma second_opening :
  ~ In nl opening_line
  /\ starts_with begin_marker opening_line = true
  /\ occursb (txt "\bibitem{") opening_line = false
  /\ occursb end_marker opening_line = false
  /\ occursb (txt "\cite") opening_line = false.
Proof.
  destruct (extract_facts _ Hextract second_span)
    as (_ & _ & _ & _ & _ & _ & O & B & _).
  unfold plain_opening in Hopening; apply andb_true_iff in Hopening.
  destruct Hopening as [H1 H2]; apply negb_true_iff in H1, H2.
  split; [rewrite O; apply forallb_not_In, take_while_class|].
  split; [exact B|]; split; [exact H1|]; split; [exact H2|].
  destruct (occursb (txt "\cite") opening_line) eqn:E; [|reflexivity].
  rewrite O in E.
  pose proof (occursb_app_l _ _ (drop_while (not_char nl) old_section) E) as H.
  rewrite take_drop_while, second_no_cite_section in H; discriminate.
Qed.


(** The text of the new block. *)
Lemma entry_head_free (k : text) :
  ~ In backslash k ->
  occursb end_marker (txt "\bibitem{" ++ k ++ txt "}") = false
  /\ occursb (txt "\cite") (txt "\bibitem{" ++ k ++ txt "}") = false.
Proof.
  intros N.
  assert (Nk : ~ In backslash (k ++ [125%N])).
  { rewrite in_app_iff; intros [H|[H|[]]]; [contradiction | discriminate]. }
  split.
  - change (txt "\bibitem{" ++ k ++ txt "}")
      with (txt "\bibite" ++ 109%N :: (123%N :: k ++ [125%N])).
    rewrite occursb_sep; [|discriminate | vm_compute; intuition discriminate].
    change end_marker with (backslash :: txt "end{thebibliography}") at 2.
    rewrite occursb_no_head; [reflexivity|].
    intros [H|H]; [discriminate | contradiction].
  - change (txt "\bibitem{" ++ k ++ txt "}")
      with (txt "\" ++ 98%N :: (txt "ibitem{" ++ k ++ [125%N])).
    rewrite occursb_sep; [|discriminate | vm_compute; intuition discriminate].
    change (txt "\cite") with (backslash :: txt "cite") at 2.
    rewrite occursb_no_head; [reflexivity|].
    cbn [txt app]; simpl; intros H.
    repeat (destruct H as [H|H]; [discriminate|]); contradiction.
Qed.

Lemma second_entry_free (k : text) :
  In k (Dict.keys entries) ->
  occursb end_marker (entry_of entries k) = false
  /\ occursb (txt "\cite") (entry_of entries k) = false.
Proof.
  intros I.
  destruct (second_key _ I) as (_ & Nb & _).
  destruct (second_body _ I) as (_ & _ & Ve & Vc & _).
  destruct (entry_head_free _ Nb) as [He Hc].
  destruct literal_facts as ((Tc & Nc) & _ & (Te & Ne)).
  assert (E : forall t, t <> [] -> ~ In nl t ->
                        occursb t (entry_of entries k)
                        = occursb t (txt "\bibitem{" ++ k ++ txt "}")
                          || occursb t (body_of entries k)).
  { intros t T N; unfold entry_of, full_entry.
    replace (txt "\bibitem{" ++ k ++ txt "}" ++ [nl] ++ body_of entries k)
      with ((txt "\bibitem{" ++ k ++ txt "}") ++ nl :: body_of entries k)
      by (now rewrite <- !app_assoc).
    now apply occursb_sep. }
  rewrite !E by assumption.
  now rewrite He, Hc, Ve, Vc.
Qed.

Lemma second_joined_free :
  occursb end_marker joined = false /\ occursb (txt "\cite") joined = false.
Proof.
  destruct literal_facts as ((Tc & Nc) & _ & (Te & Ne)).
  split.
  - apply (@occursb_join_blank end_marker _ Te Ne); intros x I.
    apply in_map_iff in I; destruct I as (k & <- & I).
    apply (proj1 (second_out_keys k)) in I.
    destruct (second_entry_free _ I) as [A _]; exact A.
  - apply (@occursb_join_blank (txt "\cite") _ Tc Nc); intros x I.
    apply in_map_iff in I; destruct I as (k & <- & I).
    apply (proj1 (second_out_keys k)) in I.
    destruct (second_entry_free _ I) as [_ B]; exact B.
Qed.

Lemma second_block_shape :
  block = (opening_line ++ nl :: nl :: joined) ++ nl :: end_marker.
Proof. unfold serialize; rewrite <- app_assoc; reflexivity. Qed.

Lemma second_inner_free :
  occursb end_marker (opening_line ++ nl :: nl :: joined) = false
  /\ occursb (txt "\cite") (opening_line ++ nl :: nl :: joined) = false.
Proof.
  destruct literal_facts as ((Tc & Nc) & _ & (Te & Ne)).
  destruct second_opening as (_ & _ & _ & Oe & Oc).
  destruct second_joined_free as [Je Jc].
  split; rewrite occursb_sep by assumption;
    change (nl :: joined) with ([] ++ nl :: joined);
    rewrite occursb_sep, occursb_nil by assumption.
  - now rewrite Oe, Je.
  - now rewrite Oc, Jc.
Qed.

(** No end marker begins in the new document before the one that closes
    the new block. *)
Lemma second_end_first (j : nat) :
  j <= length (opening_line ++ nl :: nl :: joined) ->
  starts_with end_marker (skipn j (block ++ back)) = false.
Proof.
  intros L; destruct literal_facts as (_ & _ & (Te & Ne)).
  destruct second_inner_free as [Ie _].
  rewrite second_block_shape, <- app_assoc; cbn [app].
  rewrite skipn_app; replace (j - length (opening_line ++ nl :: nl :: joined)) with 0 by lia.
  cbn [skipn]; rewrite starts_with_sep by assumption.
  now apply occursb_false_at.
Qed.

Lemma second_new_tail_no_cite : occursb (txt "\cite") (block ++ back) = false.
Proof.
  destruct literal_facts as ((Tc & Nc) & _).
  destruct second_inner_free as [_ Ic].
  rewrite second_block_shape, <- app_assoc; cbn [app].
  rewrite occursb_sep, Ic by assumption; cbn [orb].
  change (end_marker ++ back) with (txt "\end{thebibliography" ++ 125%N :: back).
  rewrite occursb_sep; [|assumption | vm_compute; intuition discriminate].
  now rewrite second_no_cite_back.
Qed.


(** The entries of the new block, read again. *)
Local Abbreviation entries_text K :=
  (join [nl; nl] (map (entry_of entries) K) ++ nl :: end_marker).

Lemma second_entries_text (k : text) (K : list text) :
  exists w rest,
    entries_text (k :: K)
    = (txt "\bibitem{" ++ k ++ txt "}" ++ nl :: body_of entries k ++ nl :: w) ++ rest
    /\ (w = [] \/ w = [nl])
    /\ entry_stop rest = true
    /\ (K = [] /\ rest = end_marker \/ K <> [] /\ rest = entries_text K).
Proof.
  destruct K as [|k2 K].
  - exists [], end_marker; split; [|split; [now left | split; [reflexivity | now left]]].
    cbn [map join]; unfold entry_of, full_entry.
    rewrite <- !app_assoc; cbn [app]; now rewrite <- !app_assoc.
  - exists [nl], (entries_text (k2 :: K)).
    split; [|split; [now right | split; [|right; split; [discriminate | reflexivity]]]].
    + cbn [map]; rewrite join_cons2; unfold entry_of at 1, full_entry.
      rewrite <- !app_assoc; cbn [app]; now rewrite <- !app_assoc.
    + cbn [map]; unfold entry_of at 1, full_entry, entry_stop.
      destruct (map (entry_of entries) K); cbn [join]; rewrite <- !app_assoc;
        now rewrite starts_with_app.
Qed.

Lemma second_entry_match (k w rest : text) :
  In k (Dict.keys entries) -> w = [] \/ w = [nl] -> entry_stop rest = true ->
  Re.match_at bibitem_pattern
    ((txt "\bibitem{" ++ k ++ txt "}" ++ nl :: body_of entries k ++ nl :: w) ++ rest)
  = Some (rest, [(2, nl :: body_of entries k ++ nl :: w); (1, k)]).
Proof.
  intros I W St.
  destruct (second_key _ I) as (Nk & _ & Nr & _).
  destruct (second_body _ I) as (_ & Vb & Ve & _).
  apply bibitem_match_exact.
  exists k, (nl :: body_of entries k ++ nl :: w).
  split; [now rewrite <- !app_assoc|].
  split; [exact Nk|]; split; [exact Nr|]; split; [exact St|]; split; [|reflexivity].
  now apply body_gap_no_stop.
Qed.

Lemma second_no_entry_in_end_marker (pos : nat) :
  Re.finditer_from bibitem_pattern pos 0 end_marker = [].
Proof.
  apply finditer_from_none; intros i; apply bibitem_needs_literal.
  apply occursb_false_at; vm_compute; reflexivity.
Qed.

Lemma second_parse (K : list text) :
  forall (pos : nat) (d : Dict.t text),
    K <> [] -> (forall x, In x K -> In x (Dict.keys entries)) ->
    fold_left add_entry (Re.finditer_from bibitem_pattern pos 0 (entries_text K)) d
    = fold_left (fun d x => Dict.set x (body_of entries x) d) K d.
Proof.
  induction K as [|k K IH]; intros pos d N H; [congruence|].
  assert (I : In k (Dict.keys entries)) by (apply H; now left).
  destruct (second_entries_text k K) as (w & rest & E & W & St & R).
  destruct (second_key _ I) as (_ & _ & _ & Sk).
  destruct (second_body _ I) as (_ & _ & _ & _ & Cv).
  rewrite E, (@finditer_from_match bibitem_pattern _ rest _ pos)
    by (try apply second_entry_match; auto; discriminate).
  cbn [fold_left].
  assert (A : add_entry d
                {| Re.m_start := pos;
                   Re.m_end := pos + length (txt "\bibitem{" ++ k ++ txt "}" ++
                                             nl :: body_of entries k ++ nl :: w);
                   Re.m_caps := [(2, nl :: body_of entries k ++ nl :: w); (1, k)] |}
              = Dict.set k (body_of entries k) d).
  { unfold add_entry, Re.group; cbn [Re.m_caps Re.lookup Nat.eqb]; rewrite Sk.
    change (nl :: body_of entries k ++ nl :: w)
      with ([nl] ++ body_of entries k ++ nl :: w).
    rewrite clean_content_pad, Cv; [reflexivity | reflexivity|].
    destruct W as [-> | ->]; reflexivity. }
  rewrite A.
  destruct R as [[-> ->]|[NK ->]].
  - now rewrite second_no_entry_in_end_marker.
  - apply IH; [exact NK | intros x Hx; apply H; now right].
Qed.


Lemma second_parse_block :
  fold_left add_entry (Re.finditer bibitem_pattern block) [] = reread order entries.
Proof.
  destruct second_opening as (_ & _ & Ob & _).
  destruct literal_facts as (_ & (Tb & Nb) & _).
  unfold Re.finditer.
  replace block with ((opening_line ++ [nl; nl]) ++ entries_text out_keys)
    by (unfold serialize; now rewrite <- !app_assoc).
  rewrite finditer_from_no_match.
  - rewrite second_parse;
      [|exact second_out_keys_not_nil | intros x; apply second_out_keys].
    rewrite set_fold_new; [reflexivity| |intros x _ []].
    apply output_keys_NoDup; [exact Horder|].
    rewrite (extract_keys _ Hextract); apply dedup_NoDup.
  - intros i Li; apply bibitem_needs_literal.
    rewrite <- !app_assoc; cbn [app].
    rewrite length_app in Li; cbn [length] in Li.
    destruct (Nat.le_gt_cases i (length opening_line)) as [Le|Gt].
    + rewrite skipn_app; replace (i - length opening_line) with 0 by lia; cbn [skipn].
      rewrite starts_with_sep by assumption.
      now apply occursb_false_at.
    + replace i with (1 + length opening_line) by lia.
      rewrite <- skipn_skipn, skipn_length_app; reflexivity.
Qed.

(** The new document. *)
Lemma second_new_parts : new_content = front ++ block ++ back.
Proof. reflexivity. Qed.

Lemma second_new_tails :
  (exists x, block ++ back = backslash :: x)
  /\ (exists x, old_section ++ back = backslash :: x).
Proof.
  destruct second_opening as (_ & Ob & _).
  destruct (extract_facts _ Hextract second_span) as (_ & _ & B & _).
  split.
  - apply starts_with_split in Ob; rewrite Ob; unfold serialize.
    rewrite <- !app_assoc; eexists; reflexivity.
  - rewrite <- second_tail; apply starts_with_split in B; rewrite B.
    eexists; reflexivity.
Qed.

(** In front of the block, a literal with a single backslash, at its head,
    begins at the same places in the new document as in the old one. *)
Lemma second_window (t : text) (j : nat) :
  ~ In backslash t -> j < bib_start ->
  starts_with (backslash :: t) (skipn j new_content)
  = starts_with (backslash :: t) (skipn j content).
Proof.
  intros N L; destruct second_bounds as (_ & _ & F).
  destruct second_new_tails as [[x Ex] [y Ey]].
  assert (U : skipn j front <> []).
  { intros Z; apply (f_equal (@length char)) in Z.
    rewrite length_skipn, F in Z; simpl in Z; lia. }
  assert (E1 : skipn j new_content = skipn j front ++ block ++ back).
  { rewrite second_new_parts, skipn_app, F.
    replace (j - bib_start) with 0 by lia; reflexivity. }
  assert (E2 : skipn j content = skipn j front ++ old_section ++ back).
  { transitivity (skipn j (front ++ old_section ++ back));
      [f_equal; exact second_parts|].
    rewrite skipn_app, F; replace (j - bib_start) with 0 by lia; reflexivity. }
  rewrite E1, E2, Ex, Ey, !starts_with_sep_tail by assumption; reflexivity.
Qed.

Lemma second_skipn_new (j : nat) :
  bib_start <= j -> skipn j new_content = skipn (j - bib_start) (block ++ back).
Proof.
  intros L; destruct second_bounds as (_ & _ & F).
  rewrite second_new_parts, skipn_app, F, skipn_all2 by lia; reflexivity.
Qed.

Lemma second_begin_search :
  Re.search begin_pattern new_content
  = Some {| Re.m_start := bib_start; Re.m_end := bib_start + length begin_marker;
            Re.m_caps := [] |}.
Proof.
  destruct second_opening as (_ & Ob & _).
  destruct (extract_facts _ Hextract second_span) as (_ & _ & _ & B & _).
  apply search_literal_at.
  - rewrite second_skipn_new, Nat.sub_diag by lia; cbn [skipn].
    unfold serialize; rewrite <- !app_assoc; now apply starts_with_app_l.
  - intros j L.
    change begin_marker with (backslash :: txt "begin{thebibliography}").
    rewrite second_window; [now apply B | vm_compute; intuition discriminate | exact L].
Qed.

Lemma second_block_length :
  length block = length (opening_line ++ nl :: nl :: joined) + 1 + length end_marker.
Proof. rewrite second_block_shape, length_app; cbn [length]; lia. Qed.

Lemma second_end_search :
  Re.search end_pattern new_content
  = Some {| Re.m_start := bib_start + length block - length end_marker;
            Re.m_end := bib_start + length block; Re.m_caps := [] |}.
Proof.
  destruct (extract_facts _ Hextract second_span) as (A & _ & _ & _ & _ & E & _).
  pose proof second_block_length as Lb.
  replace (bib_start + length block)
    with ((bib_start + length block - length end_marker) + length end_marker) at 2 by lia.
  apply search_literal_at.
  - rewrite second_skipn_new by lia.
    replace (bib_start + length block - length end_marker - bib_start)
      with (1 + length (opening_line ++ nl :: nl :: joined)) by lia.
    rewrite second_block_shape, <- app_assoc, <- skipn_skipn, skipn_length_app.
    cbn [skipn app]; apply starts_with_app.
  - intros j L.
    destruct (Nat.lt_ge_cases j bib_start) as [Lt|Ge].
    + change end_marker with (backslash :: txt "end{thebibliography}").
      rewrite second_window; [|vm_compute; intuition discriminate | exact Lt].
      apply E; change (length end_marker) with 21 in *;
        change (length begin_marker) with 23 in *; lia.
    + rewrite second_skipn_new by exact Ge.
      apply second_end_first; lia.
Qed.

Lemma second_opening_search :
  exists m, Re.search opening_pattern block = Some m
            /\ matched_text m block = opening_line.
Proof.
  destruct second_opening as (Nn & Ob & _).
  assert (S1 : starts_with begin_marker block = true)
    by (unfold serialize; now apply starts_with_app_l).
  destruct (search_opening _ S1) as (m & Sm & Mm).
  exists m; split; [exact Sm|]; rewrite Mm; unfold serialize.
  rewrite take_while_app; [cbn [app take_while]; apply app_nil_r|].
  apply forallb_forall; intros c I; unfold not_char.
  apply negb_true_iff, N.eqb_neq; intros <-; contradiction.
Qed.

(** The parser on the new document: the same bounds start, the new block as
    the section, the same opening line, and the entries of the block in
    its order. *)
Lemma second_extract :
  extract_bibliography_entries new_content
  = (Some (reread order entries, (bib_start, bib_start + length block), opening_line), []).
Proof.
  destruct second_opening_search as (m & Sm & Mm).
  unfold extract_bibliography_entries.
  rewrite second_begin_search, second_end_search; cbn [Re.m_start Re.m_end].
  assert (S1 : bib_section_of bib_start (bib_start + length block) new_content = block).
  { unfold bib_section_of, slice.
    rewrite second_skipn_new, Nat.sub_diag by lia; cbn [skipn].
    replace (bib_start + length block - bib_start) with (length block) by lia.
    rewrite firstn_app, Nat.sub_diag, firstn_all; cbn [firstn]; apply app_nil_r. }
  rewrite S1, Sm, Mm, second_parse_block; reflexivity.
Qed.

(** The scanner on the new document finds the markers of the old one. *)
Lemma second_scan :
  Re.finditer cite_pattern new_content = Re.finditer cite_pattern content.
Proof.
  unfold Re.finditer.
  transitivity (Re.finditer_from cite_pattern 0 0 front).
  - change new_content with (front ++ block ++ back).
    apply finditer_cite_front; intros p H; apply second_cites_front.
    change (front ++ block ++ back) with new_content in H.
    destruct (Nat.lt_ge_cases p bib_start) as [Lt|Ge].
    + change (txt "\cite") with (backslash :: txt "cite") in *.
      rewrite <- second_window; [exact H | vm_compute; intuition discriminate | exact Lt].
    + exfalso; rewrite second_skipn_new in H by exact Ge.
      rewrite occursb_false_at in H; [discriminate | apply second_new_tail_no_cite].
  - pose proof (@finditer_cite_front front (old_section ++ back) 0 0) as H.
    rewrite <- second_parts in H; symmetry; apply H.
    intros p Hp; now apply second_cites_front.
Qed.

Lemma second_tracker : find_all_citations new_content = find_all_citations content.
Proof. unfold find_all_citations; now rewrite second_scan. Qed.

(** Splicing the new block into the new document gives the new document. *)
Lemma second_splice_fixed :
  splice new_content bib_start (bib_start + length block) block = new_content.
Proof.
  destruct second_bounds as (_ & _ & F).
  assert (A : firstn bib_start new_content = front).
  { rewrite second_new_parts, firstn_app, F, Nat.sub_diag; cbn [firstn].
    rewrite app_nil_r; apply firstn_all2; lia. }
  assert (B : skipn (bib_start + length block) new_content = back).
  { rewrite second_skipn_new by lia.
    replace (bib_start + length block - bib_start) with (length block) by lia.
    apply skipn_length_app. }
  change (splice new_content bib_start (bib_start + length block) block)
    with (firstn bib_start new_content ++ block
          ++ skipn (bib_start + length block) new_content).
  rewrite A, B; reflexivity.
Qed.

End SecondRun.

(** ** The second run *)

(** A run whose checks pass and whose output path can be written. *)
Lemma reorder_run (fs : FS) (input_file : text) (output_file : option text)
    (content : text) (entries : Dict.t text) (bib_start bib_end : nat)
    (opening_line block : text) :
  fs_read fs input_file = Some content ->
  citations (find_all_citations content) <> [] ->
  fst (extract_bibliography_entries content)
    = Some (entries, (bib_start, bib_end), opening_line) ->
  fst (create_reordered_bibliography
         (get_ordered_citations (find_all_citations content)) entries opening_line)
    = Some block ->
  fs_writable fs (output_path input_file output_file) = true ->
  exists fs' log,
    reorder_latex_bibliography fs input_file output_file = (true, fs', log)
    /\ fs_read fs' (output_path input_file output_file)
       = Some (splice content bib_start bib_end block)
    /\ In (ShowBibliography block) log.
Proof.
  intros R C X B W; unfold reorder_latex_bibliography, output_path in *; rewrite R.
  destruct (citations (find_all_citations content)); [congruence|].
  destruct (extract_bibliography_entries content) as [x log2]; cbn [fst] in X; subst x.
  destruct (create_reordered_bibliography _ entries opening_line) as [b log3];
    cbn [fst] in B; subst b.
  unfold fs_write; rewrite W.
  eexists _, _; split; [reflexivity|]; split.
  - cbn [fs_read]; now rewrite text_eqb_refl.
  - apply in_or_app; right; right; now left.
Qed.


